(** * LI3: memory pools, reservation catalog, query 7 statistics and the
      query dispatcher

    A shallow embedding of the memory-management layer, the reservation
    manager, the ranking step of query 7 and the query dispatcher of the
    LI3 project, together with the properties its specification states
    about them.

    Conventions.
    - A C pointer that may be [NULL] is an [option]; [None] is [NULL].
    - A call to [malloc] is resolved by a boolean argument of the modelled
      function ([true]: the allocation is granted, [false]: it fails), so
      that every allocation-failure path of the code can be exercised.
    - GLib hash tables are finite maps ([gmap]); [g_hash_table_insert]
      replaces the value of a key that is already present and reports
      whether the key was new. *)

From Stdlib Require Import ZArith Lia Ascii String.
From stdpp Require Import base tactics option list gmap strings sorting.

Local Open Scope Z_scope.
Local Open Scope nat_scope.

(* ===================================================================== *)
(** ** Block pool ([utils/pool.h]) *)
(* ===================================================================== *)

Module Pool.

(** A handle is the position of a slot: block index, then slot index. It
    stands for the item pointer the C interface returns. *)
Definition handle : Type := nat * nat.

(** Modelled from the spec: [pool.c] is not part of the sources, only its
    interface [pool.h] is. The pool owns an ordered sequence of blocks of
    [block_capacity] slots each. [top] is the block being filled and
    [top_usage] the number of its slots already handed out. A slot holds
    [None] until something is written to it. The item size of the C pool
    is the Rocq type of the items. *)
Record pool (A : Type) : Type := mk_pool {
  block_capacity : nat;
  blocks : list (list (option A));
  top : nat;
  top_usage : nat
}.

Arguments mk_pool {A} _ _ _ _.
Arguments block_capacity {A} _.
Arguments blocks {A} _.
Arguments top {A} _.
Arguments top_usage {A} _.

Section Operations.
Context {A : Type}.

(** Modelled from the spec: [__pool_create] allocates the pool with its
    first block; [None] is the allocation failure. *)
Definition __pool_create (block_capacity : nat) (malloc_ok : bool)
  : option (pool A) :=
  if malloc_ok
  then Some (mk_pool block_capacity [replicate block_capacity None] 0 0)
  else None.

(** A slot is live when it has been handed out since the last
    [pool_empty]. *)
Definition live (p : pool A) (h : handle) : bool :=
  orb (bool_decide (h.1 < top p))
      (andb (bool_decide (h.1 = top p)) (bool_decide (h.2 < top_usage p))).

(** Dereferencing a handle: [None] when the handle is not valid,
    [Some c] with [c] the slot's contents otherwise. *)
Definition pool_get (p : pool A) (h : handle) : option (option A) :=
  if live p h then blocks p !! h.1 ≫= λ b, b !! h.2 else None.

(** Writing through an item pointer: [*h = v]. *)
Definition pool_set (p : pool A) (h : handle) (v : A) : pool A :=
  mk_pool (block_capacity p)
          (alter (λ b, <[h.2 := Some v]> b) h.1 (blocks p))
          (top p) (top_usage p).

(** Updating an item in place through its pointer, as a setter called
    on a pool-owned item does. *)
Definition pool_modify (p : pool A) (h : handle) (f : A → A) : pool A :=
  mk_pool (block_capacity p)
          (alter (λ b, alter (fmap f) h.2 b) h.1 (blocks p))
          (top p) (top_usage p).

(** Modelled from the spec (growth policy): when the current block is
    full, the pool moves on to the next block, which is storage kept by
    an earlier [pool_empty] when there is one and a newly allocated
    block of the same capacity, appended to the sequence, otherwise.
    Blocks already in the sequence are never moved or resized. *)
Definition __pool_alloc_item (malloc_ok : bool) (p : pool A)
  : pool A * option handle :=
  if decide (top_usage p < block_capacity p) then
    (mk_pool (block_capacity p) (blocks p) (top p) (S (top_usage p)),
     Some (top p, top_usage p))
  else if decide (S (top p) < length (blocks p)) then
    (mk_pool (block_capacity p) (blocks p) (S (top p)) 1,
     Some (S (top p), 0))
  else if malloc_ok then
    (mk_pool (block_capacity p)
             (blocks p ++ [replicate (block_capacity p) None])
             (length (blocks p)) 1,
     Some (length (blocks p), 0))
  else (p, None).

(** Modelled from the spec: [__pool_put_item] allocates a slot and
    copies the item into it (a shallow copy). *)
Definition __pool_put_item (malloc_ok : bool) (p : pool A) (item : A)
  : pool A * option handle :=
  match __pool_alloc_item malloc_ok p with
  | (p', Some h) => (pool_set p' h item, Some h)
  | (p', None) => (p', None)
  end.

(** Modelled from the spec: [pool_empty] invalidates every handle and
    keeps the block storage for reuse. *)
Definition pool_empty (p : pool A) : pool A :=
  mk_pool (block_capacity p) (blocks p) 0 0.

(** The live slots, in block order and then slot order. *)
Definition live_slots (p : pool A) : list (option A) :=
  concat (take (top p) (blocks p))
    ++ take (top_usage p) (default [] (blocks p !! top p)).

Section Iter.
Context {S : Type}.

(** The iteration of [pool_iter] over a sequence of items: the
    callback threads the user data [S], and a non-zero return value
    stops the iteration. The result is the last value returned. *)
Fixpoint iter_items (callback : S → option A → S * Z)
    (user_data : S) (items : list (option A)) : S * Z :=
  match items with
  | [] => (user_data, 0%Z)
  | item :: rest =>
      let (user_data', retval) := callback user_data item in
      if decide (retval = 0%Z)
      then iter_items callback user_data' rest
      else (user_data', retval)
  end.

Definition pool_iter (p : pool A) (callback : S → option A → S * Z)
    (user_data : S) : S * Z :=
  iter_items callback user_data (live_slots p).
End Iter.

(** The operations of a client on a pool. *)
Inductive op : Type :=
| OpAlloc (malloc_ok : bool)
| OpPut (malloc_ok : bool) (item : A)
| OpEmpty.

Definition is_empty_op (o : op) : bool :=
  match o with OpEmpty => true | _ => false end.

Definition step (o : op) (p : pool A) : pool A * option handle :=
  match o with
  | OpAlloc ok => __pool_alloc_item ok p
  | OpPut ok item => __pool_put_item ok p item
  | OpEmpty => (pool_empty p, None)
  end.

Fixpoint run (ops : list op) (p : pool A) : pool A :=
  match ops with
  | [] => p
  | o :: rest => run rest (step o p).1
  end.

(** The representation invariant: every block has [block_capacity]
    slots, [top] is a block of the sequence and [top_usage] does not
    exceed the capacity. *)
Definition wf (p : pool A) : Prop :=
  0 < block_capacity p
  ∧ Forall (λ b, length b = block_capacity p) (blocks p)
  ∧ top p < length (blocks p)
  ∧ top_usage p ≤ block_capacity p.

End Operations.

End Pool.

(* ===================================================================== *)
(** ** String pool ([utils/string_pool.h]) *)
(* ===================================================================== *)

Module StringPool.

(** The terminator of a C string. *)
Definition NUL : ascii := Ascii.zero.

(** The C string found at an address: the bytes of memory up to, and
    without, the first terminator. This is what [strlen], [strcmp],
    [g_str_hash] and [g_str_equal] see of a [const char *]. *)
Fixpoint c_str (mem : list ascii) : list ascii :=
  match mem with
  | [] => []
  | c :: rest => if decide (c = NUL) then [] else c :: c_str rest
  end.

(** A handle is the position of the first byte of a string: block index,
    then offset in the block. It stands for the [char *] returned. *)
Definition handle : Type := nat * nat.

(** Modelled from the spec: [string_pool.c] is not part of the sources.
    The pool owns a sequence of blocks of bytes; each block is modelled by
    the part of it that has been written. *)
Record string_pool : Type := mk_string_pool {
  block_capacity : nat;
  blocks : list (list ascii)
}.

(** Modelled from the spec: creation allocates the first block. *)
Definition string_pool_create (block_capacity : nat) (malloc_ok : bool)
  : option string_pool :=
  if malloc_ok then Some (mk_string_pool block_capacity [[]]) else None.

(** The memory found at a handle, up to the end of its block, and the C
    string that starts there. *)
Definition bytes_at (p : string_pool) (h : handle) : list ascii :=
  drop h.2 (default [] (blocks p !! h.1)).

Definition string_at (p : string_pool) (h : handle) : list ascii :=
  c_str (bytes_at p h).

(** Modelled from the spec: [string_pool_put] stores a null-terminated
    copy of the string contiguously and returns where it starts. The copy
    goes to the end of the last block when it fits there, and to a newly
    allocated block otherwise; [None] is the allocation failure. The spec
    does not say what happens to a string longer than a block: here it
    gets a block of its own. *)
Definition string_pool_put (malloc_ok : bool) (p : string_pool)
    (str : list ascii) : string_pool * option handle :=
  let data := c_str str ++ [NUL] in
  match last (blocks p) with
  | Some blk =>
      if decide (length blk + length data ≤ block_capacity p) then
        (mk_string_pool (block_capacity p)
           (<[pred (length (blocks p)) := blk ++ data]> (blocks p)),
         Some (pred (length (blocks p)), length blk))
      else if malloc_ok then
        (mk_string_pool (block_capacity p) (blocks p ++ [data]),
         Some (length (blocks p), 0))
      else (p, None)
  | None =>
      if malloc_ok then
        (mk_string_pool (block_capacity p) (blocks p ++ [data]),
         Some (length (blocks p), 0))
      else (p, None)
  end.

(** The number of bytes written to the arena so far. *)
Definition bytes_used (p : string_pool) : nat :=
  length (concat (blocks p)).

(** [stored p h s]: the string [s], followed by its terminator, lies in
    the pool at handle [h]. *)
Definition stored (p : string_pool) (h : handle) (s : list ascii) : Prop :=
  ∃ pre post,
    blocks p !! h.1 = Some (pre ++ s ++ NUL :: post)
    ∧ length pre = h.2
    ∧ NUL ∉ s.

End StringPool.

(* ===================================================================== *)
(** ** String pool without duplicates
       ([utils/string_pool_no_duplicates.c]) *)
(* ===================================================================== *)

Module StringPoolNoDuplicates.

Import StringPool.

(** [already_stored] is a [GHashTable] created with [g_str_hash] and
    [g_str_equal]: its keys are [char *] compared by the C string they
    point to, so the map is keyed by string contents. *)
Record string_pool_no_duplicates : Type := mk_no_dups_pool {
  strings : string_pool;
  already_stored : gmap (list ascii) handle
}.

Definition string_pool_no_duplicates_create (block_capacity : nat)
    (malloc_ok malloc_strings_ok : bool) : option string_pool_no_duplicates :=
  if malloc_ok then
    match string_pool_create block_capacity malloc_strings_ok with
    | None => None
    | Some strings => Some (mk_no_dups_pool strings ∅)
    end
  else None.

(** The key registered after a miss is the pointer just returned by the
    string pool: the table sees the C string stored there. *)
Definition string_pool_no_duplicates_put (malloc_ok : bool)
    (pool : string_pool_no_duplicates) (str : list ascii)
  : string_pool_no_duplicates * option handle :=
  match already_stored pool !! c_str str with
  | None =>
      match string_pool_put malloc_ok (strings pool) str with
      | (strings', None) =>
          (mk_no_dups_pool strings' (already_stored pool), None)
      | (strings', Some pool_string) =>
          (mk_no_dups_pool strings'
             (<[string_at strings' pool_string := pool_string]>
                (already_stored pool)),
           Some pool_string)
      end
  | Some data => (pool, Some data)
  end.

(** The invariant of the index: every key is the C string stored at the
    handle it maps to. *)
Definition index_ok (pool : string_pool_no_duplicates) : Prop :=
  ∀ k h, already_stored pool !! k = Some h → stored (strings pool) h k.

End StringPoolNoDuplicates.

(* ===================================================================== *)
(** ** Reservations ([types/reservation.h]) *)
(* ===================================================================== *)

Module Reservation.

(** A [char *] field of a reservation: a string in memory owned by the
    caller (given by the bytes found there), or a string owned by the
    string pool of a manager. *)
Inductive str_ptr : Type :=
| CallerStr (mem : list ascii)
| PoolStr (h : StringPool.handle).

(** The fixed-width fields read by the queries. *)
Record reservation_scalars : Type := mk_scalars {
  hotel_id : Z;
  hotel_stars : Z;
  begin_date : Z;
  end_date : Z;
  includes_breakfast : bool
}.

(** Modelled from the spec: [reservation.c] and [reservation.h] are not
    part of the sources. A reservation has an identifier, two string
    fields, scalar fields, and can be marked invalid in place; the mark is
    the field [invalidated]. *)
Record reservation : Type := mk_reservation {
  id : Z;
  user_id : str_ptr;
  hotel_name : str_ptr;
  scalars : reservation_scalars;
  invalidated : bool
}.

Definition reservation_get_id (r : reservation) : Z := id r.
Definition reservation_get_const_user_id (r : reservation) : str_ptr :=
  user_id r.
Definition reservation_get_const_hotel_name (r : reservation) : str_ptr :=
  hotel_name r.

Definition reservation_set_user_id (p : str_ptr) (r : reservation)
  : reservation :=
  mk_reservation (id r) p (hotel_name r) (scalars r) (invalidated r).

Definition reservation_set_hotel_name (p : str_ptr) (r : reservation)
  : reservation :=
  mk_reservation (id r) (user_id r) p (scalars r) (invalidated r).

(** Modelled from the spec: marks the reservation invalid, in place. *)
Definition reservation_invalidate (r : reservation) : reservation :=
  mk_reservation (id r) (user_id r) (hotel_name r) (scalars r) true.

(** Modelled from the spec, with the return convention that [flight.h]
    documents for [flight_is_valid]: [0] for a valid entity, [1] for an
    invalid one. *)
Definition reservation_is_valid (r : reservation) : Z :=
  if invalidated r then 1%Z else 0%Z.

(** The C string a string field points to, read in a given string pool. *)
Definition str_read (strings : StringPool.string_pool) (p : str_ptr)
  : list ascii :=
  match p with
  | CallerStr mem => StringPool.c_str mem
  | PoolStr h => StringPool.string_at strings h
  end.

(** The memory a string field points to. *)
Definition str_mem (strings : StringPool.string_pool) (p : str_ptr)
  : list ascii :=
  match p with
  | CallerStr mem => mem
  | PoolStr h => StringPool.bytes_at strings h
  end.

(** A string field is well formed when it points to caller memory or to
    a string stored in the pool. *)
Definition str_valid (strings : StringPool.string_pool) (p : str_ptr) : Prop :=
  match p with
  | CallerStr _ => True
  | PoolStr h => ∃ s, StringPool.stored strings h s
  end.

End Reservation.

(* ===================================================================== *)
(** ** Reservation manager ([database/reservation_manager.c]) *)
(* ===================================================================== *)

Module ReservationManager.

Import Reservation.

(** [id_reservations_rel] is a [GHashTable] created with [g_direct_hash]
    and [g_direct_equal]; its keys are the identifiers themselves
    ([GINT_TO_POINTER] is injective on identifiers). *)
Record reservation_manager : Type := mk_manager {
  reservations : Pool.pool reservation;
  strings : StringPool.string_pool;
  id_reservations_rel : gmap Z Pool.handle
}.

Definition RESERVATION_MANAGER_RESERVATIONS_POOL_BLOCK_CAPACITY : nat :=
  Z.to_nat 50000.
Definition RESERVATION_MANAGER_STRINGS_POOL_BLOCK_CAPACITY : nat :=
  Z.to_nat 100000.

(** What the manager writes to [stderr]. *)
Inductive log_line : Type :=
| REPEATED_RESERVATION_ID (res_id : Z).

(** The three allocations an insertion may need: a block of the entity
    pool and a block of the string pool for each of the two strings. *)
Record add_mallocs : Type := mk_mallocs {
  malloc_reservation : bool;
  malloc_user_id : bool;
  malloc_hotel_name : bool
}.

Definition reservation_manager_create_with (res_cap str_cap : nat)
    (malloc_manager malloc_reservations malloc_strings : bool)
  : option reservation_manager :=
  if malloc_manager then
    match Pool.__pool_create res_cap malloc_reservations with
    | None => None
    | Some reservations =>
        match StringPool.string_pool_create str_cap malloc_strings with
        | None => None
        | Some strings => Some (mk_manager reservations strings ∅)
        end
    end
  else None.

Definition reservation_manager_create
    (malloc_manager malloc_reservations malloc_strings : bool)
  : option reservation_manager :=
  reservation_manager_create_with
    RESERVATION_MANAGER_RESERVATIONS_POOL_BLOCK_CAPACITY
    RESERVATION_MANAGER_STRINGS_POOL_BLOCK_CAPACITY
    malloc_manager malloc_reservations malloc_strings.

(** The result of an insertion: the manager afterwards, the lines written
    to [stderr], and the pointer returned. *)
Definition reservation_manager_add_reservation (mallocs : add_mallocs)
    (manager : reservation_manager) (reservation : reservation)
  : reservation_manager * list log_line * option Pool.handle :=
  match Pool.__pool_put_item (malloc_reservation mallocs)
          (reservations manager) reservation with
  | (reservations', None) =>
      (mk_manager reservations' (strings manager)
         (id_reservations_rel manager), [], None)
  | (reservations', Some pool_reservation) =>
      (* Copy strings to string pool *)
      let '(strings1, pool_user_id) :=
        StringPool.string_pool_put (malloc_user_id mallocs) (strings manager)
          (str_mem (strings manager)
             (reservation_get_const_user_id reservation)) in
      let '(strings2, pool_hotel_name) :=
        StringPool.string_pool_put (malloc_hotel_name mallocs) strings1
          (str_mem strings1 (reservation_get_const_hotel_name reservation)) in
      match pool_user_id, pool_hotel_name with
      | Some pool_user_id, Some pool_hotel_name =>
          let reservations'' :=
            Pool.pool_modify
              (Pool.pool_modify reservations' pool_reservation
                 (reservation_set_user_id (PoolStr pool_user_id)))
              pool_reservation
              (reservation_set_hotel_name (PoolStr pool_hotel_name)) in
          (* Reservation identifier *)
          let res_id := reservation_get_id reservation in
          let log :=
            match id_reservations_rel manager !! res_id with
            | Some _ => [REPEATED_RESERVATION_ID res_id]
            | None => []
            end in
          (mk_manager reservations'' strings2
             (<[res_id := pool_reservation]> (id_reservations_rel manager)),
           log, Some pool_reservation)
      | _, _ =>
          (* On allocation failure, it's impossible to remove anything
             already in a pool *)
          (mk_manager
             (Pool.pool_modify reservations' pool_reservation
                reservation_invalidate)
             strings2 (id_reservations_rel manager),
           [], None)
      end
  end.

Definition reservation_manager_get_by_id (manager : reservation_manager)
    (id : Z) : option Pool.handle :=
  id_reservations_rel manager !! id.

Section Iter.
Context {S : Type}.

(** A [reservation_manager_iter_callback_t]: it threads the user data
    and returns [0] to go on. *)
Definition iter_callback : Type := S → reservation → S * Z.

(** The manager only fills its pool through [pool_put_item], so every
    item the pool iterates over has been written; the branch for a slot
    that has not is never taken. *)
Definition __reservation_manager_iter_callback (callback : iter_callback)
    (original_user_data : S) (item : option reservation) : S * Z :=
  match item with
  | Some item =>
      if decide (reservation_is_valid item = 0%Z)
      then callback original_user_data item
      else (original_user_data, 0%Z)
  | None => (original_user_data, 0%Z)
  end.

Definition reservation_manager_iter (manager : reservation_manager)
    (callback : iter_callback) (user_data : S) : S * Z :=
  Pool.pool_iter (reservations manager)
    (__reservation_manager_iter_callback callback) user_data.
End Iter.

(** A callback instrumented to record, next to its own user data, every
    reservation it is invoked on. *)
Definition traced {S : Type} (callback : @iter_callback S)
  : @iter_callback (S * list reservation) :=
  λ st r, let (s', retval) := callback st.1 r in ((s', st.2 ++ [r]), retval).

(** The iteration the specification asks for: the callback runs over the
    valid reservations only, in pool order, until it returns non-zero. *)
Fixpoint iter_valid {S : Type} (callback : @iter_callback S) (user_data : S)
    (items : list reservation) : S * Z :=
  match items with
  | [] => (user_data, 0%Z)
  | r :: rest =>
      let (user_data', retval) := callback user_data r in
      if decide (retval = 0%Z) then iter_valid callback user_data' rest
      else (user_data', retval)
  end.

(** The valid reservations among the live slots of the entity pool. *)
Definition valid_reservations (manager : reservation_manager)
  : list reservation :=
  filter (λ r, reservation_is_valid r = 0%Z)
         (omap (λ item, item) (Pool.live_slots (reservations manager))).

End ReservationManager.

(* ===================================================================== *)
(** ** Query 7: airports ranked by median departure delay
       ([queries/q07.c]) *)
(* ===================================================================== *)

Module Q07.

(** Conversions between the integer types of the C code: the value kept
    by a [uint64_t], and the value a [gint] (32 bits, two's complement)
    gets from a wider integer. *)
Definition to_uint64 (x : Z) : Z := (x mod 2 ^ 64)%Z.
Definition to_gint (x : Z) : Z := ((x + 2 ^ 31) mod 2 ^ 32 - 2 ^ 31)%Z.

(** [strcmp]: the difference of the first two bytes that differ. *)
Fixpoint strcmp (a b : list ascii) : Z :=
  match a, b with
  | [], [] => 0%Z
  | [], y :: _ => (- Z.of_nat (nat_of_ascii y))%Z
  | x :: _, [] => Z.of_nat (nat_of_ascii x)
  | x :: a', y :: b' =>
      if decide (x = y) then strcmp a' b'
      else (Z.of_nat (nat_of_ascii x) - Z.of_nat (nat_of_ascii y))%Z
  end.

(** [g_array_sort]: the array is sorted with a [qsort]-style comparison
    function; an element goes before another when the function returns a
    negative value for them. The model is a stable insertion sort. *)
Section GArraySort.
Context {A : Type} (compare_func : A → A → Z).

Fixpoint insert_sorted (x : A) (l : list A) : list A :=
  match l with
  | [] => [x]
  | y :: rest =>
      if decide (compare_func x y < 0)%Z then x :: y :: rest
      else y :: insert_sorted x rest
  end.

Definition g_array_sort (l : list A) : list A :=
  foldl (λ sorted x, insert_sorted x sorted) [] l.
End GArraySort.

Record __q07_airport_median : Type := mk_airport_median {
  airport_code : Z;
  median : Z
}.

(** [__q07_generate_statistics_int64_compare_func]. *)
Definition __q07_generate_statistics_int64_compare_func (a b : Z) : Z :=
  to_gint (a - b).

Section Statistics.
(** [airport_code_sprintf] belongs to [types/airport_code.c], which is
    not part of the sources: it is a parameter of the model. *)
Variable airport_code_sprintf : Z → list ascii.

(** [__q07_generate_statistics_airport_median_compare_func]. *)
Definition __q07_generate_statistics_airport_median_compare_func
    (a b : __q07_airport_median) : Z :=
  let crit1 := to_uint64 (median b - median a) in
  if decide (crit1 ≠ 0%Z) then to_gint crit1
  else strcmp (airport_code_sprintf (airport_code a))
              (airport_code_sprintf (airport_code b)).

(** [__q07_generate_statistics_foreach_flight], on the origin and the
    departure delay (in seconds) of a flight. *)
Definition __q07_generate_statistics_foreach_flight
    (airport_delays : gmap Z (list Z)) (flight : Z * Z) : gmap Z (list Z) :=
  let (airport_code, delay) := flight in
  match airport_delays !! airport_code with
  | Some delays => <[airport_code := delays ++ [delay]]> airport_delays
  | None => <[airport_code := [delay]]> airport_delays
  end.

(** The value a [double] gets from a [uint64_t]: the nearest number
    with a significand of 53 bits, ties going to the even significand.
    Numbers below [2^53] are kept as they are. *)
Definition uint64_to_double (x : Z) : Z :=
  if decide (x < 2 ^ 53)%Z then x
  else
    let unit := (2 ^ (Z.log2 x - 52))%Z in
    let significand := (x `div` unit)%Z in
    let remainder := (x `mod` unit)%Z in
    if decide (2 * remainder < unit)%Z then (significand * unit)%Z
    else if decide (unit < 2 * remainder)%Z then ((significand + 1) * unit)%Z
    else if Z.even significand then (significand * unit)%Z
    else ((significand + 1) * unit)%Z.

(** The value an [int64_t] gets from a [double] that holds an integer
    that is not negative: the integer itself below [2^63]. From [2^63]
    on the conversion is undefined in C; the model takes what the
    conversion instruction of x86-64 leaves, [INT64_MIN]. *)
Definition double_to_int64 (x : Z) : Z :=
  if decide (x < 2 ^ 63)%Z then x else (- 2 ^ 63)%Z.

(** The median [__q07_generate_statistics_foreach_airport] stores for
    the array of delays it has sorted. The delays are [int64_t] but are
    read as [uint64_t]: a negative delay is read as a number from [2^63]
    on. With an even number of delays the two middle ones are added as
    [uint64_t], the sum is converted to [double] and halved, and
    [round] takes halves away from zero; with an odd number the middle
    one is converted to [double]. The [double] is then stored in an
    [int64_t]. *)
Definition median_of (delays : list Z) : Z :=
  let middle := Nat.div (length delays) 2 in
  if decide (Nat.modulo (length delays) 2 = 0)
  then
    let sum :=
      to_uint64 (to_uint64 (delays !!! middle)
                 + to_uint64 (delays !!! Nat.sub middle 1)) in
    double_to_int64 ((uint64_to_double sum + 1) `div` 2)%Z
  else double_to_int64 (uint64_to_double (to_uint64 (delays !!! middle))).

(** [__q07_generate_statistics_foreach_airport]. *)
Definition __q07_generate_statistics_foreach_airport
    (to_add : list __q07_airport_median) (entry : Z * list Z)
  : list __q07_airport_median :=
  let (airport, delays) := entry in
  let delays :=
    g_array_sort __q07_generate_statistics_int64_compare_func delays in
  to_add ++ [mk_airport_median airport (median_of delays)].

(** [__q07_generate_statistics], on the origin and departure delay of
    every flight of the database, in iteration order. The order in which
    [g_hash_table_foreach] visits the airports is the order of
    [map_to_list]. *)
Definition __q07_generate_statistics (flights : list (Z * Z))
  : list __q07_airport_median :=
  let airport_delays :=
    foldl __q07_generate_statistics_foreach_flight ∅ flights in
  let airport_medians :=
    foldl __q07_generate_statistics_foreach_airport []
          (map_to_list airport_delays) in
  g_array_sort __q07_generate_statistics_airport_median_compare_func
               airport_medians.

(** The order the specification asks of the statistics array: medians
    descending, and airport identifier strings ascending among equal
    medians. *)
Definition ranked_before (a b : __q07_airport_median) : Prop :=
  (median b < median a)%Z
  ∨ (median a = median b
     ∧ (strcmp (airport_code_sprintf (airport_code a))
               (airport_code_sprintf (airport_code b)) ≤ 0)%Z).

(** Medians are close when any two of them differ by less than [2^31]
    seconds (a little over sixty-eight years). *)
Definition close (l : list __q07_airport_median) : Prop :=
  ∀ a b, a ∈ l → b ∈ l → (- 2 ^ 31 < median b - median a < 2 ^ 31)%Z.

Fixpoint ranked (l : list __q07_airport_median) : Prop :=
  match l with
  | [] => True
  | a :: rest =>
      match rest with
      | [] => True
      | b :: _ => ranked_before a b ∧ ranked rest
      end
  end.
End Statistics.

End Q07.

(* ===================================================================== *)
(** ** Query types, instance lists and the dispatcher
       ([queries/query_type.c], [queries/query_dispatcher.c]) *)
(* ===================================================================== *)

Module QueryDispatcher.

Section Dispatcher.
(** The database, the parsed arguments of a query, the statistics a
    query type generates and the output streams are opaque to the
    dispatcher. *)
Context {database argument_data statistics FILE : Type}.

(** Modelled from the spec: [query_instance.c] is not part of the
    sources. An instance knows the index of its type and carries its
    parsed arguments. *)
Record query_instance : Type := mk_query_instance {
  query_instance_get_type : nat;
  query_instance_get_argument_data : argument_data
}.

(** [struct query_type]: a tuple of callbacks; the two about statistics
    may be [NULL]. [execute] returns what it writes to its output and its
    status ([0] on success). *)
Record query_type : Type := mk_query_type {
  parse_arguments : list string → option argument_data;
  free_query_instance_argument_data : argument_data → unit;
  generate_statistics :
    option (database → list query_instance → option statistics);
  free_statistics : option (option statistics → unit);
  execute :
    database → option statistics → query_instance → list string * Z
}.

Definition query_type_get_generate_statistics_callback (type : query_type) :=
  generate_statistics type.
Definition query_type_get_free_statistics_callback (type : query_type) :=
  free_statistics type.
Definition query_type_get_execute_callback (type : query_type) :=
  execute type.

(** Modelled from the spec: the registry of query types maps a type
    index to its behaviour; a lookup may miss. *)
Definition query_type_list_get_by_index (query_type_list : gmap nat query_type)
    (index : nat) : option query_type :=
  query_type_list !! index.

(** Modelled from the spec: an instance list is an ordered sequence of
    instances. *)
Definition query_instance_list_create : list query_instance := [].
Definition query_instance_list_add (instance_list : list query_instance)
    (query : query_instance) : list query_instance :=
  instance_list ++ [query].

(** Modelled from the spec: [query_instance_list_iter_types] partitions
    the list by type (stable, type-contiguous) and calls the callback on
    every partition, until it returns non-zero. The partition is a
    stable sort by type index followed by a split into maximal runs of
    one type. *)
Fixpoint insert_by_type (x : query_instance) (l : list query_instance)
  : list query_instance :=
  match l with
  | [] => [x]
  | y :: rest =>
      if decide (query_instance_get_type x < query_instance_get_type y)
      then x :: y :: rest
      else y :: insert_by_type x rest
  end.

Definition sort_by_type (l : list query_instance) : list query_instance :=
  foldl (λ sorted x, insert_by_type x sorted) [] l.

Fixpoint group_by_type (l : list query_instance)
  : list (list query_instance) :=
  match l with
  | [] => []
  | x :: rest =>
      match group_by_type rest with
      | (y :: set) :: sets =>
          if decide (query_instance_get_type x = query_instance_get_type y)
          then (x :: y :: set) :: sets
          else [x] :: (y :: set) :: sets
      | sets => [x] :: sets
      end
  end.

Definition partitions (l : list query_instance) : list (list query_instance) :=
  group_by_type (sort_by_type l).

Fixpoint iter_sets {U : Type} (callback : U → list query_instance → U * Z)
    (user_data : U) (sets : list (list query_instance)) : U * Z :=
  match sets with
  | [] => (user_data, 0%Z)
  | set :: rest =>
      let (user_data', retval) := callback user_data set in
      if decide (retval = 0%Z) then iter_sets callback user_data' rest
      else (user_data', retval)
  end.

Definition query_instance_list_iter_types {U : Type}
    (instance_list : list query_instance)
    (callback : U → list query_instance → U * Z) (user_data : U) : U * Z :=
  iter_sets callback user_data (partitions instance_list).

(** What the dispatcher does to the outside: the calls it makes to the
    callbacks of a query type. [CallExecute] records the statistics
    pointer, the instance, the output stream handed to [execute]
    ([None] when the index is past the end of the array), and what
    [execute] wrote and returned. *)
Inductive call : Type :=
| CallGenerateStatistics (type : nat) (instances : list query_instance)
| CallExecute (type : nat) (stats : option statistics)
    (instance : query_instance) (output : option FILE)
    (written : list string) (status : Z)
| CallFreeStatistics (type : nat) (stats : option statistics).

(** [query_dispatcher_data_t], with the calls made so far. *)
Record query_dispatcher_data_t : Type := mk_dispatcher_data {
  data_database : database;
  data_query_type_list : gmap nat query_type;
  data_outputs : list FILE;
  data_i : nat;
  data_calls : list call
}.

(** The [for] loop of the callback: [execute] runs on every instance,
    and nothing is done with the value it returns. *)
Fixpoint execute_all (db : database) (type_index : nat) (type : query_type)
    (stats : option statistics) (outputs : list FILE) (i j : nat)
    (instances : list query_instance) : list call :=
  match instances with
  | [] => []
  | instance :: rest =>
      let (written, status) :=
        query_type_get_execute_callback type db stats instance in
      (* Ignore returned result *)
      CallExecute type_index stats instance (outputs !! (i + j)) written status
        :: execute_all db type_index type stats outputs i (S j) rest
  end.

(** [__query_dispatcher_query_set_callback]. The type is read from the
    first instance of the set; [query_instance_list_iter_types] never
    passes an empty set. *)
Definition __query_dispatcher_query_set_callback
    (dispatcher_data : query_dispatcher_data_t)
    (instances : list query_instance) : query_dispatcher_data_t * Z :=
  match instances with
  | [] => (dispatcher_data, 0%Z)
  | first :: _ =>
      let type_index := query_instance_get_type first in
      match query_type_list_get_by_index
              (data_query_type_list dispatcher_data) type_index with
      | None => (dispatcher_data, 0%Z)
      | Some type =>
          let db := data_database dispatcher_data in
          let '(statistics, generated) :=
            match query_type_get_generate_statistics_callback type with
            | Some generate_stats =>
                (generate_stats db instances,
                 [CallGenerateStatistics type_index instances])
            | None => (None, [])
            end in
          let executed :=
            execute_all db type_index type statistics
              (data_outputs dispatcher_data) (data_i dispatcher_data) 0
              instances in
          let freed :=
            match query_type_get_free_statistics_callback type with
            | Some free_stats => [CallFreeStatistics type_index statistics]
            | None => []
            end in
          (mk_dispatcher_data db (data_query_type_list dispatcher_data)
             (data_outputs dispatcher_data)
             (data_i dispatcher_data + length instances)
             (data_calls dispatcher_data ++ generated ++ executed ++ freed),
           0%Z)
      end
  end.

(** [query_dispatcher_dispatch_list]; the result is the sequence of calls
    made. *)
Definition query_dispatcher_dispatch_list (db : database)
    (query_instance_list : list query_instance)
    (query_type_list : gmap nat query_type) (outputs : list FILE)
  : list call :=
  let dispatcher_data := mk_dispatcher_data db query_type_list outputs 0 [] in
  data_calls
    (query_instance_list_iter_types query_instance_list
       __query_dispatcher_query_set_callback dispatcher_data).1.

(** [query_dispatcher_dispatch_single]: [&output] is an array of one
    output stream. *)
Definition query_dispatcher_dispatch_single (db : database)
    (query_instance : query_instance)
    (query_type_list : gmap nat query_type) (output : FILE) : list call :=
  let list := query_instance_list_create in
  let list := query_instance_list_add list query_instance in
  query_dispatcher_dispatch_list db list query_type_list [output].

(** The calls the specification asks for on one partition whose type is
    registered: statistics generated once over the whole partition when
    the type generates statistics, [execute] once per instance on these
    statistics and on the instance's own output, and the statistics
    freed when the type frees statistics. *)
Definition statistics_of (db : database) (type : query_type)
    (instances : list query_instance) : option statistics :=
  match generate_statistics type with
  | Some generate_stats => generate_stats db instances
  | None => None
  end.

Definition execute_call (db : database) (type_index : nat) (type : query_type)
    (stats : option statistics) (outputs : list FILE) (first_output : nat)
    (j : nat) (instance : query_instance) : call :=
  CallExecute type_index stats instance (outputs !! (first_output + j))
    (execute type db stats instance).1 (execute type db stats instance).2.

Definition partition_calls (db : database) (type_index : nat)
    (type : query_type) (outputs : list FILE) (first_output : nat)
    (instances : list query_instance) : list call :=
  let stats := statistics_of db type instances in
  match generate_statistics type with
  | Some _ => [CallGenerateStatistics type_index instances]
  | None => []
  end
  ++ imap (execute_call db type_index type stats outputs first_output) instances
  ++ match free_statistics type with
     | Some _ => [CallFreeStatistics type_index stats]
     | None => []
     end.

(** The calls made on a sequence of partitions, the first of which
    starts at output [i]. A partition whose type is not registered is
    skipped, and the output index does not move past it. *)
Fixpoint sets_calls (db : database) (tl : gmap nat query_type)
    (outputs : list FILE) (i : nat) (sets : list (list query_instance))
  : list call :=
  match sets with
  | [] => []
  | set :: rest =>
      match set with
      | [] => sets_calls db tl outputs i rest
      | first :: _ =>
          match tl !! query_instance_get_type first with
          | None => sets_calls db tl outputs i rest
          | Some type =>
              partition_calls db (query_instance_get_type first) type
                outputs i set
              ++ sets_calls db tl outputs (i + length set) rest
          end
      end
  end.

(** The instances [execute] was called on, in order, each with the
    output stream it was given. *)
Definition executed_outputs (calls : list call)
  : list (query_instance * option FILE) :=
  omap (λ c, match c with
             | CallExecute _ _ instance output _ _ => Some (instance, output)
             | _ => None
             end) calls.

(** The calls of [execute] among the calls made, in order, each with
    all that was recorded of it: the statistics and the instance it was
    called on, the output stream it was given, what it wrote and what it
    returned. *)
Definition is_execute (c : call) : bool :=
  match c with
  | CallExecute _ _ _ _ _ _ => true
  | _ => false
  end.

Definition executed_calls (calls : list call) : list call :=
  filter (λ c, is_execute c = true) calls.

(** The calls of [execute] the specification asks for on a sequence of
    partitions, the first of which starts at output [i]: one call per
    instance of every partition whose type is registered, whatever the
    calls before it returned. *)
Fixpoint sets_executes (db : database) (tl : gmap nat query_type)
    (outputs : list FILE) (i : nat) (sets : list (list query_instance))
  : list call :=
  match sets with
  | [] => []
  | set :: rest =>
      match set with
      | [] => sets_executes db tl outputs i rest
      | first :: _ =>
          match tl !! query_instance_get_type first with
          | None => sets_executes db tl outputs i rest
          | Some type =>
              imap (execute_call db (query_instance_get_type first) type
                      (statistics_of db type set) outputs i) set
              ++ sets_executes db tl outputs (i + length set) rest
          end
      end
  end.

(** The type of a partition is the type of its first instance. *)
Definition set_type (set : list query_instance) : nat :=
  match set with
  | first :: _ => query_instance_get_type first
  | [] => 0
  end.

(** The order the instance list is sorted by. *)
Definition type_le (a b : query_instance) : Prop :=
  query_instance_get_type a ≤ query_instance_get_type b.

(** A partition is well formed when it is not empty and all its
    instances have one type. *)
Definition uniform (set : list query_instance) : Prop :=
  set ≠ [] ∧ Forall (λ q, query_instance_get_type q = set_type set) set.

Definition is_generate_statistics (type : nat) (c : call) : bool :=
  match c with
  | CallGenerateStatistics t _ => bool_decide (t = type)
  | _ => false
  end.

Definition is_free_statistics (type : nat) (c : call) : bool :=
  match c with
  | CallFreeStatistics t _ => bool_decide (t = type)
  | _ => false
  end.

End Dispatcher.

Arguments query_instance : clear implicits.
Arguments query_type : clear implicits.
Arguments call : clear implicits.
Arguments query_dispatcher_data_t : clear implicits.

End QueryDispatcher.

(* ===================================================================== *)
(** ** Sample data *)
(* ===================================================================== *)

Module Samples.

(** A pool of numbers with blocks of two slots, and operations on it. *)
Definition sample_pool : Pool.pool nat := Pool.mk_pool 2 [[None; None]] 0 0.

Definition sample_later_ops : list (@Pool.op nat) :=
  [Pool.OpPut true 8; Pool.OpAlloc true; Pool.OpPut false 9;
   Pool.OpPut true 10].

(** A pool with blocks of sixteen bytes, and two hotel names; the second
    is found in a larger buffer, after which other bytes follow. *)
Definition sample_no_dups_pool
  : StringPoolNoDuplicates.string_pool_no_duplicates :=
  StringPoolNoDuplicates.mk_no_dups_pool
    (StringPool.mk_string_pool 16 [[]]) ∅.

Definition grand_hotel : list ascii := list_ascii_of_string "Grand Hotel".

Definition grand_hotel_buffer : list ascii :=
  list_ascii_of_string "Grand Hotel"
    ++ StringPool.NUL :: list_ascii_of_string "Ritz".

Import Reservation ReservationManager.

(** A small manager: entity blocks of two slots, string blocks of eight
    bytes. *)
Definition sample_manager : reservation_manager :=
  mk_manager (Pool.mk_pool 2 [[None; None]] 0 0)
             (StringPool.mk_string_pool 8 [[]]) ∅.

Definition sample_reservation (res_id : Z) (user hotel : string)
  : reservation :=
  mk_reservation res_id
    (CallerStr (list_ascii_of_string user))
    (CallerStr (list_ascii_of_string hotel))
    (mk_scalars 1204 4 20231001 20231004 true) false.

Definition all_granted : add_mallocs := mk_mallocs true true true.

(** The manager after the reservation 42 of user [U1] was added. *)
Definition sample_manager_1 : reservation_manager :=
  (reservation_manager_add_reservation all_granted sample_manager
     (sample_reservation 42 "U1" "Ritz")).1.1.

(** The string pool cannot grow: the user identifier fits in the current
    block, the hotel name does not. *)
Definition hotel_name_refused : add_mallocs := mk_mallocs true true false.

Import QueryDispatcher.

(** A database without content, queries that carry a number, statistics
    that are a number, and output streams known by their name. The type
    [counting_type] generates the size of its partition as statistics and
    its [execute] fails on the argument [0]; [direct_type] has no
    statistics. *)
Definition sample_instance (type argument : nat) : query_instance nat :=
  mk_query_instance type argument.

Definition counting_type (with_free : bool) : query_type unit nat nat :=
  mk_query_type
    (λ _, None) (λ _, tt)
    (Some (λ _ instances, Some (length instances)))
    (if with_free then Some (λ _, tt) else None)
    (λ _ stats instance,
       ([], if decide (query_instance_get_argument_data instance = 0)
            then 1%Z else 0%Z)).

Definition direct_type : query_type unit nat nat :=
  mk_query_type (λ _, None) (λ _, tt) None None (λ _ _ _, ([], 0%Z)).

Definition sample_types (with_free : bool)
  : gmap nat (query_type unit nat nat) :=
  <[7 := counting_type with_free]> (<[1 := direct_type]> ∅).

(** The type [writing_type] writes the argument of its instance, a
    digit, as one line of output; on the argument [0] it writes nothing
    and fails. Its statistics are the size of its partition. *)
Definition writing_type : query_type unit nat nat :=
  mk_query_type
    (λ _, None) (λ _, tt)
    (Some (λ _ instances, Some (length instances)))
    (Some (λ _, tt))
    (λ _ stats instance,
       if decide (query_instance_get_argument_data instance = 0)
       then ([], 1%Z)
       else ([String
                (ascii_of_nat (48 + query_instance_get_argument_data instance))
                EmptyString], 0%Z)).

Definition writing_types : gmap nat (query_type unit nat nat) :=
  <[7 := writing_type]> (<[1 := writing_type]> ∅).

Definition sample_list : list (query_instance nat) :=
  [sample_instance 7 0; sample_instance 1 5; sample_instance 7 3].

Definition sample_outputs : list string :=
  ["command1_output.txt"; "command2_output.txt"; "command3_output.txt"]%string.

(** The packed codes of the airports LIS and OPO. *)
Definition LIS : Z := 4999507%Z.
Definition OPO : Z := 5197903%Z.

(** One flight leaves LIS on time. One flight leaves OPO seventy years
    late by the calendar of [date_diff] (years of twelve months of
    thirty-one days): 70 * 372 * 86400 seconds. *)
Definition late_flights : list (Z * Z) :=
  [(LIS, 0%Z); (OPO, 2249856000%Z)].

End Samples.

(* ===================================================================== *)
(** ** Dates ([utils/date.c]) *)
(* ===================================================================== *)

Module Date.

(** [date_union_helper_t]: a date is seen through its three fields, a
    [uint16_t] year and [uint8_t] month and day. How the fields are laid
    out in the 32-bit [date_t] is not modelled: a [date_t] is its
    fields. *)
Record date_t : Type := mk_date {
  year : Z;
  month : Z;
  day : Z
}.

Definition DATE_YEAR_MIN : Z := 1.
Definition DATE_YEAR_MAX : Z := 9999.
Definition DATE_MONTH_MIN : Z := 1.
Definition DATE_MONTH_MAX : Z := 12.
Definition DATE_DAY_MIN : Z := 1.
Definition DATE_DAY_MAX : Z := 31.

(** [date_from_values]: [None] is the return value [1], with [*output]
    left alone; [Some d] is the return value [0] with [d] in [*output]. *)
Definition date_from_values (year month day : Z) : option date_t :=
  if decide (year < DATE_YEAR_MIN ∨ year > DATE_YEAR_MAX
             ∨ month < DATE_MONTH_MIN ∨ month > DATE_MONTH_MAX
             ∨ day < DATE_DAY_MIN ∨ day > DATE_DAY_MAX)%Z
  then None
  else Some (mk_date year month day).

(** [date_diff]. The fields are at most [65535] and [255], so the
    [int64_t] arithmetic does not overflow. *)
Definition date_diff (a b : date_t) : Z :=
  let a_days := (year a * 12 * 31 + month a * 31 + day a)%Z in
  let b_days := (year b * 12 * 31 + month b * 31 + day b)%Z in
  (a_days - b_days)%Z.

Definition date_get_year (date : date_t) : Z := year date.
Definition date_get_month (date : date_t) : Z := month date.
Definition date_get_day (date : date_t) : Z := day date.

(** The setters return the date [*date] holds afterwards and the value
    returned. *)
Definition date_set_year (date : date_t) (year : Z) : date_t * Z :=
  if decide (year < DATE_YEAR_MIN ∨ year > DATE_YEAR_MAX)%Z then (date, 1%Z)
  else (mk_date year (month date) (day date), 0%Z).

Definition date_set_month (date : date_t) (month : Z) : date_t * Z :=
  if decide (month < DATE_MONTH_MIN ∨ month > DATE_MONTH_MAX)%Z
  then (date, 1%Z)
  else (mk_date (year date) month (day date), 0%Z).

Definition date_set_day (date : date_t) (day : Z) : date_t * Z :=
  if decide (day < DATE_DAY_MIN ∨ day > DATE_DAY_MAX)%Z then (date, 1%Z)
  else (mk_date (year date) (month date) day, 0%Z).

(** [date_generate_dayless] and [date_generate_monthless]: the date with
    the fields in question set to zero, as the integer key it returns. *)
Definition date_generate_dayless (date : date_t) : date_t :=
  mk_date (year date) (month date) 0.

Definition date_generate_monthless (date : date_t) : date_t :=
  mk_date (year date) 0 0.

Section ParseField.
(** [int_utils_parse_positive] belongs to [utils/int_utils.c], which is
    not part of the sources: it is a parameter. It returns its return
    value ([0] on success) and the number parsed. *)
Variable int_utils_parse_positive : list ascii → Z * Z.

(** [__date_from_string_parse_field], called with [ntoken] below [3]. It
    returns the date being filled in and the return value. *)
Definition __date_from_string_parse_field (date : date_t)
    (token : list ascii) (ntoken : nat) : date_t * Z :=
  let mins := [DATE_YEAR_MIN; DATE_MONTH_MIN; DATE_DAY_MIN] in
  let maxs := [DATE_YEAR_MAX; DATE_MONTH_MAX; DATE_DAY_MAX] in
  let lengths := [4; 2; 2] in
  let token_length := length (StringPool.c_str token) in
  if decide (token_length ≠ lengths !!! ntoken) then (date, 1%Z)
  else
    let (int_parse_result, parsed) := int_utils_parse_positive token in
    if decide (int_parse_result ≠ 0%Z) then (date, 1%Z)
    else if decide (parsed < mins !!! ntoken ∨ parsed > maxs !!! ntoken)%Z
    then (date, 1%Z) (* Bounds checking *)
    else
      match ntoken with
      | 0 => (mk_date parsed (month date) (day date), 0%Z)
      | 1 => (mk_date (year date) parsed (day date), 0%Z)
      | 2 => (mk_date (year date) (month date) parsed, 0%Z)
      | _ => (date, 0%Z) (* unreachable *)
      end.
End ParseField.

(** A date whose fields are in the ranges [date_from_values] accepts. *)
Definition valid (d : date_t) : Prop :=
  (DATE_YEAR_MIN ≤ year d ≤ DATE_YEAR_MAX
   ∧ DATE_MONTH_MIN ≤ month d ≤ DATE_MONTH_MAX
   ∧ DATE_DAY_MIN ≤ day d ≤ DATE_DAY_MAX)%Z.

(** The chronological order: by year, then month, then day. *)
Definition before (a b : date_t) : Prop :=
  (year a < year b
   ∨ (year a = year b ∧ month a < month b)
   ∨ (year a = year b ∧ month a = month b ∧ day a < day b))%Z.

(** A parser of decimal numbers, to run the field parsers on: it
    accepts a non-empty string of digits. *)
Definition sample_parse_positive (token : list ascii) : Z * Z :=
  let digits := StringPool.c_str token in
  if decide (digits ≠ []
             ∧ Forall (λ c, 48 ≤ nat_of_ascii c ≤ 57) digits)
  then (0%Z,
        foldl (λ number c, number * 10 + (Z.of_nat (nat_of_ascii c) - 48))%Z
              0%Z digits)
  else (1%Z, 0%Z).

End Date.

(* ===================================================================== *)
(** ** Sex of a user ([types/sex.c]) *)
(* ===================================================================== *)

Module Sex.

Inductive sex_t : Type := SEX_M | SEX_F.

(** The string literals ["M"] and ["F"], as found in memory. *)
Definition M_literal : list ascii := ["M"%char; StringPool.NUL].
Definition F_literal : list ascii := ["F"%char; StringPool.NUL].

(** [strcmp] reads both its arguments up to their terminators. *)
Definition c_strcmp (a b : list ascii) : Z :=
  Q07.strcmp (StringPool.c_str a) (StringPool.c_str b).

(** [sex_from_string]: [None] is the return value [1]. *)
Definition sex_from_string (input : list ascii) : option sex_t :=
  if decide (c_strcmp input M_literal = 0%Z) then Some SEX_M
  else if decide (c_strcmp input F_literal = 0%Z) then Some SEX_F
  else None.

(** [sex_sprintf] stores one [uint16_t], whose two bytes are the letter
    and the terminator, whatever the byte order. *)
Definition sex_sprintf (sex : sex_t) : list ascii :=
  match sex with
  | SEX_M => ["M"%char; StringPool.NUL]
  | SEX_F => ["F"%char; StringPool.NUL]
  end.

End Sex.

(* ===================================================================== *)
(** ** Tokenizing strings and streams ([utils/string_utils.c],
       [utils/stream_utils.c]) *)
(* ===================================================================== *)

Module Tokenize.

Import StringPool.

(** A [tokenize_iter_callback_t]: it threads the user data and returns
    [0] to go on. *)
Definition tokenize_iter_callback_t (S : Type) : Type :=
  S → list ascii → S * Z.

(** [strsep] with the one-character delimiter string of
    [string_tokenize], on the C string left to read: the token up to the
    first delimiter, and what is left after it ([None] when there was no
    delimiter, which makes the next call return [NULL]). With the
    delimiter ['\0'] the delimiter string is empty and nothing is a
    delimiter; a C string holds no ['\0'], so this is what the search
    below finds. *)
Fixpoint strsep (delimiter : ascii) (s : list ascii)
  : list ascii * option (list ascii) :=
  match s with
  | [] => ([], None)
  | c :: rest =>
      if decide (c = delimiter) then ([], Some rest)
      else let (token, remaining) := strsep delimiter rest in
           (c :: token, remaining)
  end.

Section StringTokenize.
Context {S : Type}.

(** The loop of [string_tokenize]; [input] is [None] once [strsep] has
    returned the last token. Every round consumes a token, so a number
    of rounds above the length of the string is enough. *)
Fixpoint string_tokenize_loop (rounds : nat) (input : option (list ascii))
    (delimiter : ascii) (callback : tokenize_iter_callback_t S)
    (user_data : S) : S * Z :=
  match rounds, input with
  | _, None => (user_data, 0%Z)
  | 0, Some _ => (user_data, 0%Z)
  | Datatypes.S rounds, Some s =>
      let (token, remaining) := strsep delimiter s in
      let (user_data', cb_result) := callback user_data token in
      if decide (cb_result ≠ 0%Z) then (user_data', cb_result)
      else string_tokenize_loop rounds remaining delimiter callback
             user_data'
  end.

Definition string_tokenize (input : list ascii) (delimiter : ascii)
    (callback : tokenize_iter_callback_t S) (user_data : S) : S * Z :=
  string_tokenize_loop (Datatypes.S (length (c_str input)))
    (Some (c_str input)) delimiter callback user_data.

Definition STRING_CONST_TOKENIZE_FAILED_MALLOC : Z := (-1)%Z.

(** [string_const_tokenize]; [strdup_ok] tells whether the copy of the
    input could be allocated. *)
Definition string_const_tokenize (strdup_ok : bool) (input : list ascii)
    (delimiter : ascii) (callback : tokenize_iter_callback_t S)
    (user_data : S) : S * Z :=
  if strdup_ok then string_tokenize input delimiter callback user_data
  else (user_data, STRING_CONST_TOKENIZE_FAILED_MALLOC).

(** Calling a callback on a sequence of tokens until it returns
    non-zero. *)
Fixpoint iter_tokens (callback : tokenize_iter_callback_t S) (user_data : S)
    (tokens : list (list ascii)) : S * Z :=
  match tokens with
  | [] => (user_data, 0%Z)
  | token :: rest =>
      let (user_data', cb_result) := callback user_data token in
      if decide (cb_result ≠ 0%Z) then (user_data', cb_result)
      else iter_tokens callback user_data' rest
  end.
End StringTokenize.

(** The pieces of a string between its delimiters. *)
Fixpoint split (delimiter : ascii) (s : list ascii) : list (list ascii) :=
  match s with
  | [] => [[]]
  | c :: rest =>
      if decide (c = delimiter) then [] :: split delimiter rest
      else match split delimiter rest with
           | token :: tokens => (c :: token) :: tokens
           | [] => [[c]]
           end
  end.

(** The pieces put together again, with the delimiter between them. *)
Fixpoint join (delimiter : ascii) (tokens : list (list ascii)) : list ascii :=
  match tokens with
  | [] => []
  | [token] => token
  | token :: rest => token ++ delimiter :: join delimiter rest
  end.

(** A callback instrumented to record the tokens it is called on. *)
Definition traced {S : Type} (callback : tokenize_iter_callback_t S)
  : tokenize_iter_callback_t (S * list (list ascii)) :=
  λ st token,
    let (s', cb_result) := callback st.1 token in
    ((s', st.2 ++ [token]), cb_result).

(** A callback instrumented to record every call made to it: the token
    and the value the callback returned. *)
Definition logged {S : Type} (callback : tokenize_iter_callback_t S)
  : tokenize_iter_callback_t (S * list (list ascii * Z)) :=
  λ st token,
    let (s', cb_result) := callback st.1 token in
    ((s', st.2 ++ [(token, cb_result)]), cb_result).

(** [getdelim] on what is left of a stream: [None] at the end of the
    stream (the return value [-1]); otherwise the bytes read, up to and
    with the first delimiter when there is one, and what is left. *)
Fixpoint getdelim_chunk (delimiter : ascii) (stream : list ascii)
  : list ascii * list ascii :=
  match stream with
  | [] => ([], [])
  | c :: rest =>
      if decide (c = delimiter) then ([c], rest)
      else let (chunk, remaining) := getdelim_chunk delimiter rest in
           (c :: chunk, remaining)
  end.

Definition getdelim (delimiter : ascii) (stream : list ascii)
  : option (list ascii * list ascii) :=
  match stream with
  | [] => None
  | _ => Some (getdelim_chunk delimiter stream)
  end.

Section StreamTokenize.
Context {S : Type}.

(** [STREAM_TOKENIZE_RET_ALLOCATION_FAILURE] is defined in
    [utils/stream_utils.h], which is not part of the sources: it is a
    parameter. *)
Variable STREAM_TOKENIZE_RET_ALLOCATION_FAILURE : Z.

(** The token handed to the callback after [getdelim] read [chunk]: the
    buffer is the chunk and a terminator, and when more than one byte was
    read its last byte is overwritten with a terminator. *)
Definition stream_token (chunk : list ascii) : list ascii :=
  if decide (1 < length chunk)
  then c_str (take (length chunk - 1) chunk ++ [NUL; NUL])
  else c_str (chunk ++ [NUL]).

(** The loop of [stream_tokenize] and what follows it. Every round
    reads at least one byte, so as many rounds as the stream has bytes,
    and one more to meet its end, are enough. [errno_is_ENOMEM] is
    whether [errno] is [ENOMEM] when [getdelim] returns [-1]. *)
Fixpoint stream_tokenize_loop (rounds : nat) (errno_is_ENOMEM : bool)
    (file : list ascii) (delimiter : ascii)
    (callback : tokenize_iter_callback_t S) (user_data : S) : S * Z :=
  match getdelim delimiter file with
  | None =>
      if errno_is_ENOMEM
      then (user_data, STREAM_TOKENIZE_RET_ALLOCATION_FAILURE)
      else (user_data, 0%Z)
  | Some (chunk, remaining) =>
      match rounds with
      | 0 => (user_data, 0%Z)
      | Datatypes.S rounds =>
          let (user_data', cb_result) :=
            callback user_data (stream_token chunk) in
          if decide (cb_result ≠ 0%Z) then (user_data', cb_result)
          else stream_tokenize_loop rounds errno_is_ENOMEM remaining
                 delimiter callback user_data'
      end
  end.

Definition stream_tokenize (errno_is_ENOMEM : bool) (file : list ascii)
    (delimiter : ascii) (callback : tokenize_iter_callback_t S)
    (user_data : S) : S * Z :=
  stream_tokenize_loop (length file) errno_is_ENOMEM file delimiter
    callback user_data.
End StreamTokenize.

(** A stream made of records, each followed by the delimiter. *)
Definition terminated (delimiter : ascii) (records : list (list ascii))
  : list ascii :=
  concat ((λ record, record ++ [delimiter]) <$> records).

(** What [stream_tokenize] hands over for a record followed by the
    delimiter, and for bytes that end the stream without a delimiter. *)
Definition record_token (delimiter : ascii) (record : list ascii)
  : list ascii :=
  match record with
  | [] => c_str [delimiter]
  | _ => record
  end.

Definition tail_tokens (tail : list ascii) : list (list ascii) :=
  match tail with
  | [] => []
  | [c] => [[c]]
  | _ => [take (length tail - 1) tail]
  end.

(** The same for any bytes: the callback is handed a C string, which
    ends at the first null byte of the record. *)
Definition record_c_token (delimiter : ascii) (record : list ascii)
  : list ascii :=
  match record with
  | [] => c_str [delimiter]
  | _ => c_str record
  end.

Definition tail_c_tokens (tail : list ascii) : list (list ascii) :=
  match tail with
  | [] => []
  | [c] => [c_str [c]]
  | _ => [c_str (take (length tail - 1) tail)]
  end.

End Tokenize.

(* ===================================================================== *)
(** ** Query 7: the statistics by airport and the execution
       ([queries/q07.c]) *)
(* ===================================================================== *)

Module Q07Execute.

Import Q07.

(** The departure delays of the flights that leave an airport, in the
    order the flights are iterated over. *)
Definition delays_of (airport : Z) (flights : list (Z * Z)) : list Z :=
  (filter (λ flight, flight.1 = airport) flights).*2.

(** The median of delays in ascending order: the middle one, or the
    mean of the two middle ones, a half rounded up. *)
Definition median_of_ascending (sorted : list Z) : Z :=
  let middle := Nat.div (length sorted) 2 in
  if decide (Nat.modulo (length sorted) 2 = 0)
  then ((sorted !!! middle + sorted !!! Nat.sub middle 1 + 1) `div` 2)%Z
  else sorted !!! middle.

(** The entry [__q07_generate_statistics_foreach_airport] appends for an
    airport and its delays. *)
Definition entry_of (entry : Z * list Z) : __q07_airport_median :=
  mk_airport_median entry.1
    (median_of
       (g_array_sort __q07_generate_statistics_int64_compare_func entry.2)).

(** [query_writer.c] is not part of the sources: a [query_writer_t] is
    seen through the calls [__q07_execute] makes to it. A field is
    written with the format ["%s"] or with ["%" PRIu64], which prints
    its argument as a [uint64_t]. *)
Inductive writer_call : Type :=
| query_writer_write_new_object
| query_writer_write_new_field_s (name : string) (value : list ascii)
| query_writer_write_new_field_PRIu64 (name : string) (value : Z).

Section Execute.
Variable airport_code_sprintf : Z → list ascii.

(** What one iteration of the loop writes. *)
Definition write_airport_median (airport_median : __q07_airport_median)
  : list writer_call :=
  [query_writer_write_new_object;
   query_writer_write_new_field_s "name"
     (airport_code_sprintf (airport_code airport_median));
   query_writer_write_new_field_PRIu64 "median"
     (to_uint64 (median airport_median))].

(** The [for] loop of [__q07_execute], from index [i]; [rounds] bounds
    the iterations left. [g_array_index] is only evaluated below
    [airport_medians->len]. *)
Fixpoint __q07_execute_loop (rounds : nat)
    (airport_medians : list __q07_airport_median) (i_max i : nat)
  : list writer_call :=
  match rounds with
  | 0 => []
  | S rounds =>
      if decide (i < i_max) then
        match airport_medians !! i with
        | Some airport_median =>
            write_airport_median airport_median
            ++ __q07_execute_loop rounds airport_medians i_max (S i)
        | None => []
        end
      else []
  end.

(** [__q07_execute], on the statistics and on the argument [n] of the
    instance: the calls made to the writer and the value returned. *)
Definition __q07_execute (statistics : list __q07_airport_median) (n : Z)
  : list writer_call * Z :=
  let airport_medians := statistics in
  let i_max := Z.to_nat (Z.min n (Z.of_nat (length airport_medians))) in
  (__q07_execute_loop i_max airport_medians i_max 0, 0%Z).
End Execute.

(** A printing of airport codes to run the query on: the three letters
    of the code, which holds them in its three low bytes. *)
Definition sample_airport_code_sprintf (code : Z) : list ascii :=
  [ascii_of_nat (Z.to_nat ((code `div` 65536) `mod` 256));
   ascii_of_nat (Z.to_nat ((code `div` 256) `mod` 256));
   ascii_of_nat (Z.to_nat (code `mod` 256))].

(** One flight leaves OPO a minute early and one leaves LIS two minutes
    early. *)
Definition sample_early_flights : list (Z * Z) :=
  [(Samples.OPO, (-60)%Z); (Samples.LIS, (-120)%Z)].

(** Two flights leave LIS ten and twenty minutes late, and one leaves
    OPO on time. *)
Definition sample_delayed_flights : list (Z * Z) :=
  [(Samples.LIS, 600%Z); (Samples.OPO, 0%Z); (Samples.LIS, 1200%Z)].

End Q07Execute.

(* ===================================================================== *)
(** ** Clients of the reservation manager
       ([database/reservation_manager.c]) *)
(* ===================================================================== *)

Module ReservationManagerClient.

Import Reservation ReservationManager.

(** A client that adds reservations to a manager one after the other,
    each with its own allocation outcomes, and keeps the pointers
    [reservation_manager_add_reservation] returns. *)
Fixpoint add_all (requests : list (add_mallocs * reservation))
    (manager : reservation_manager)
  : reservation_manager * list (option Pool.handle) :=
  match requests with
  | [] => (manager, [])
  | (mallocs, reservation) :: rest =>
      let '(manager', _, ret) :=
        reservation_manager_add_reservation mallocs manager reservation in
      let (final, rets) := add_all rest manager' in
      (final, ret :: rets)
  end.

(** The [k]-th insertion was of a reservation with identifier [res_id]
    and returned the entity [h]. *)
Definition inserted_at (requests : list (add_mallocs * reservation))
    (rets : list (option Pool.handle)) (res_id : Z) (k : nat)
    (h : Pool.handle) : Prop :=
  ∃ mallocs reservation,
    requests !! k = Some (mallocs, reservation)
    ∧ rets !! k = Some (Some h)
    ∧ reservation_get_id reservation = res_id.

(** What [reservation_manager_add_reservation] leaves in the entity pool
    for a reservation it returns: the copy, with its strings in the
    pool. *)
Definition is_stored_copy (e reservation : reservation) : Prop :=
  ∃ pool_user_id pool_hotel_name,
    e = reservation_set_hotel_name (PoolStr pool_hotel_name)
          (reservation_set_user_id (PoolStr pool_user_id) reservation).

(** Reservation 42 is added, then the insertion of reservation 7 fails
    on its hotel name, then reservation 42 is added again. *)
Definition sample_requests : list (add_mallocs * reservation) :=
  [(Samples.all_granted, Samples.sample_reservation 42 "U1" "Ritz");
   (Samples.hotel_name_refused,
    Samples.sample_reservation 7 "U2" "Grand Hotel");
   (Samples.all_granted, Samples.sample_reservation 42 "U3" "Plaza")].

(** After reservation 42 has been added: reservation 7 is added, then
    the insertion of another reservation 42 fails on its hotel name. *)
Definition sample_later_requests : list (add_mallocs * reservation) :=
  [(Samples.all_granted, Samples.sample_reservation 7 "U2" "Plaza");
   (Samples.hotel_name_refused,
    Samples.sample_reservation 42 "U3" "Grand Hotel")].

End ReservationManagerClient.

(* ===================================================================== *)
(** ** Clients of the deduplicating string pool
       ([utils/string_pool_no_duplicates.c]) *)
(* ===================================================================== *)

Module StringPoolNoDuplicatesClient.

Import StringPool StringPoolNoDuplicates.

(** A client that puts strings in a pool one after the other, each with
    its own allocation outcome, and keeps the pointers
    [string_pool_no_duplicates_put] returns. *)
Fixpoint put_all (requests : list (bool * list ascii))
    (pool : string_pool_no_duplicates)
  : string_pool_no_duplicates * list (option handle) :=
  match requests with
  | [] => (pool, [])
  | (malloc_ok, str) :: rest =>
      let (pool', ret) := string_pool_no_duplicates_put malloc_ok pool str in
      let (final, rets) := put_all rest pool' in
      (final, ret :: rets)
  end.

(** Three airline names are put in the pool, the first one twice, the
    second time from a larger buffer. *)
Definition sample_airlines : list (bool * list ascii) :=
  [(true, list_ascii_of_string "TAP");
   (true, list_ascii_of_string "Iberia");
   (false, list_ascii_of_string "TAP" ++ NUL :: list_ascii_of_string "x")].

End StringPoolNoDuplicatesClient.

(* ===================================================================== *)
(** ** Loader of the users file ([dataset/users_loader.c]) *)
(* ===================================================================== *)

Module UsersLoader.

Import Date.

Section AccountCreationDate.
(** [types/date_and_time.c] and [types/user.c] are not part of the
    sources: the type of a date with time, the type of a user and the
    four functions below are parameters. [date_and_time_from_string]
    returns what it leaves in [*output] and its return value ([0] on
    success). *)
Context {date_and_time_t user_t : Type}.
Variable date_and_time_from_string : list ascii → date_and_time_t * Z.
Variable date_and_time_get_date : date_and_time_t → date_t.
Variable user_get_birth_date : user_t → date_t.
Variable user_set_account_creation_date :
  user_t → date_and_time_t → user_t.

(** [__user_loader_parse_account_creation_date], on the user being
    filled in: the user afterwards and the value returned. *)
Definition __user_loader_parse_account_creation_date
    (current_user : user_t) (token : list ascii) : user_t * Z :=
  let (date, date_and_time_parse_ret) := date_and_time_from_string token in
  if decide (date_and_time_parse_ret ≠ 0%Z)
  then (current_user, date_and_time_parse_ret)
  else if decide (date_diff (date_and_time_get_date date)
                    (user_get_birth_date current_user) < 0)%Z
  then (current_user, 1%Z)
  else (user_set_account_creation_date current_user date, 0%Z).
End AccountCreationDate.

(** A user known by a birth date and an account creation date, with
    times of day left out, and a parser that accepts one token. *)
Definition sample_user : date_t * option date_t := (mk_date 1990 5 17, None).

Definition sample_date_and_time_from_string (token : list ascii)
  : date_t * Z :=
  if decide (token = list_ascii_of_string "1990/05/16 23:59:59")
  then (mk_date 1990 5 16, 0%Z)
  else (mk_date 0 0 0, 1%Z).

End UsersLoader.

(* ===================================================================== *)
(** ** The paging activity ([interactive_mode/activity_paging.c]) *)
(* ===================================================================== *)

Module ActivityPaging.

(** An action performed in the paginator. *)
Inductive activity_paging_action_t : Type :=
| ACTIVITY_PAGING_ACTION_NEXT_PAGE
| ACTIVITY_PAGING_ACTION_PREVIOUS_PAGE
| ACTIVITY_PAGING_ACTION_KEEP.

(** [activity_paging_data_t]. The lines are kept as the strings given
    (their conversion to UTF-32 is not modelled), and [lines_length] is
    the length of the array [lines]. *)
Record activity_paging_data_t : Type := mk_paging_data {
  lines : list (list ascii);
  block_length : nat;
  page_reference_index : nat;
  change_page : activity_paging_action_t;
  title : list ascii
}.

Definition lines_length (paging : activity_paging_data_t) : nat :=
  length (lines paging).

(** The key codes of [ncurses.h]. *)
Definition KEY_LEFT : Z := 260.
Definition KEY_RIGHT : Z := 261.
Definition KEY_NPAGE : Z := 338.
Definition KEY_PPAGE : Z := 339.

Definition set_change_page (paging : activity_paging_data_t)
    (action : activity_paging_action_t) : activity_paging_data_t :=
  mk_paging_data (lines paging) (block_length paging)
    (page_reference_index paging) action (title paging).

(** [__activity_paging_keypress]: the data afterwards and the value
    returned. *)
Definition __activity_paging_keypress (paging : activity_paging_data_t)
    (key : Z) (is_key_code : bool) : activity_paging_data_t * Z :=
  if decide (is_key_code = false ∧ key = 27%Z) then
    (* Exit paging activity *)
    (paging, 1%Z)
  else if decide (is_key_code = true ∧ (key = KEY_PPAGE ∨ key = KEY_LEFT))
  then (set_change_page paging ACTIVITY_PAGING_ACTION_PREVIOUS_PAGE, 0%Z)
  else if decide (is_key_code = true ∧ (key = KEY_NPAGE ∨ key = KEY_RIGHT))
  then (set_change_page paging ACTIVITY_PAGING_ACTION_NEXT_PAGE, 0%Z)
  else (set_change_page paging ACTIVITY_PAGING_ACTION_KEEP, 0%Z).

(** What a rendering shows of the text: the page indicator, when there
    is more than one page (the number of the current page and the
    number of pages), and the lines put on the screen, each with its row
    and its index in [lines]. The frame, the title and the navigation
    hint are not modelled. *)
Record rendering : Type := mk_rendering {
  ratio : option (nat * nat);
  text : list (nat * nat)
}.

(** The inner [for] loop, over the lines of the block that starts at
    line [i]: the lines put on the screen, and whether the end of the
    text was reached, which ends the rendering. *)
Fixpoint render_block (remaining : nat) (lines_length i j text_y : nat)
  : list (nat * nat) * bool :=
  match remaining with
  | 0 => ([], false)
  | S remaining =>
      if decide (lines_length ≤ i + j) then ([], true)
      else
        let (rest, reached_end) :=
          render_block remaining lines_length i (S j) (S text_y) in
        ((text_y, i + j) :: rest, reached_end)
  end.

(** The outer [for] loop, over the blocks that fit in the current page;
    [rounds] bounds the iterations left. With blocks of one line or
    more, a page has no more blocks than the text has lines. *)
Fixpoint render_blocks (rounds : nat)
    (lines_length block_length lines_until_end_of_current_page : nat)
    (i text_y : nat) : list (nat * nat) :=
  match rounds with
  | 0 => []
  | S rounds =>
      if decide (i + block_length ≤ lines_until_end_of_current_page) then
        let (block, reached_end) :=
          render_block block_length lines_length i 0 text_y in
        if reached_end then block
        else
          block
          ++ render_blocks rounds lines_length block_length
               lines_until_end_of_current_page (i + block_length)
               (text_y + block_length)
      else []
  end.

(** [ceil((double) a / (double) b)], for numbers below [2^53], which a
    [double] holds exactly. *)
Definition ceil_div (a b : nat) : nat := (a + b - 1) / b.

(** [__activity_paging_render], in a window of the size [getmaxyx]
    gives: the data afterwards and what is shown. The value returned is
    always [0]. *)
Definition __activity_paging_render (paging : activity_paging_data_t)
    (window_height window_width : nat) : activity_paging_data_t * rendering :=
  if decide (window_height < block_length paging + 5 ∨ window_width < 56)
  then (paging, mk_rendering None [])
       (* Don't attempt rendering on small windows *)
  else
    let menu_height := window_height - 4 in
    let menu_y := 2 in
    let max_on_screen_lines :=
      Nat.min ((menu_height - 1) / block_length paging * block_length paging)
              (lines_length paging) in
    let max_page_number :=
      ceil_div (lines_length paging) max_on_screen_lines - 1 in
    let page_number := page_reference_index paging / max_on_screen_lines in
    let page_number :=
      match change_page paging with
      | ACTIVITY_PAGING_ACTION_NEXT_PAGE =>
          if decide (page_number < max_page_number) then S page_number
          else page_number
      | ACTIVITY_PAGING_ACTION_PREVIOUS_PAGE =>
          if decide (0 < page_number) then page_number - 1 else page_number
      | ACTIVITY_PAGING_ACTION_KEEP => page_number
      end in
    let page_reference_index := page_number * max_on_screen_lines in
    let lines_until_end_of_current_page :=
      Nat.min ((page_number + 1) * max_on_screen_lines)
              (lines_length paging) in
    (mk_paging_data (lines paging) (block_length paging)
       page_reference_index (change_page paging) (title paging),
     mk_rendering
       (if decide (max_page_number ≠ 0)
        then Some (page_number + 1, max_page_number + 1) else None)
       (render_blocks (lines_length paging) (lines_length paging)
          (block_length paging) lines_until_end_of_current_page
          page_reference_index menu_y)).

(** The block length [activity_paging_run] determines: with blocking,
    the position after the first empty line, or the number of lines when
    there is none; without, [1]. *)
Fixpoint first_empty_line (lines : list (list ascii)) (i : nat)
  : option nat :=
  match lines with
  | [] => None
  | line :: rest =>
      if decide (StringPool.c_str line = []) then Some i
      else first_empty_line rest (S i)
  end.

(** [activity_paging_run] up to the creation of the activity: the data
    [__activity_paging_create] fills in, when its allocations succeed. *)
Definition activity_paging_run_data (lines : list (list ascii))
    (blocking : bool) (title : list ascii) : activity_paging_data_t :=
  let lines := match lines with [] => [[]] | _ => lines end in
  let n := length lines in
  let block_length :=
    if blocking then
      match first_empty_line lines 0 with
      | Some i => i + 1
      | None => n (* All text is a single block *)
      end
    else 1 in
  mk_paging_data lines block_length 0 ACTIVITY_PAGING_ACTION_KEEP title.

(** [activity.c] is not part of the sources: [activity_run] is seen as
    a sequence of events, key presses and renderings in windows of any
    size, handed to the two callbacks; the activity ends when the key
    press callback returns non-zero. The result is the data at the end
    and what the renderings showed. *)
Inductive event : Type :=
| Keypress (key : Z) (is_key_code : bool)
| Render (window_height window_width : nat).

Fixpoint activity_run (events : list event) (paging : activity_paging_data_t)
  : activity_paging_data_t * list rendering :=
  match events with
  | [] => (paging, [])
  | Keypress key is_key_code :: rest =>
      let (paging', retval) :=
        __activity_paging_keypress paging key is_key_code in
      if decide (retval = 0%Z) then activity_run rest paging'
      else (paging', [])
  | Render window_height window_width :: rest =>
      let (paging', shown) :=
        __activity_paging_render paging window_height window_width in
      let (final, renderings) := activity_run rest paging' in
      (final, shown :: renderings)
  end.

(** The page reference is a line of the text, and blocks are not
    empty. *)
Definition paging_ok (paging : activity_paging_data_t) : Prop :=
  0 < block_length paging
  ∧ page_reference_index paging < lines_length paging.

(** The text a rendering shows is made of lines of the text, and its
    page indicator is of a page among the pages. *)
Definition rendering_ok (paging : activity_paging_data_t)
    (shown : rendering) : Prop :=
  (∀ row k, (row, k) ∈ text shown → is_Some (lines paging !! k))
  ∧ match ratio shown with
    | Some (page, pages) => 1 ≤ page ≤ pages
    | None => True
    end.

(** Four results of two lines each, the second line of a result
    empty. *)
Definition sample_lines : list (list ascii) :=
  list_ascii_of_string
    <$> ["LIS;120"; ""; "OPO;90"; ""; "FAO;45"; ""; "FNC;30"; ""]%string.

End ActivityPaging.

(* ===================================================================== *)
(** ** The message box activity
       ([interactive_mode/activity_messagebox.c]) *)
(* ===================================================================== *)

Module ActivityMessagebox.

(** [__activity_messagebox_keypress]: the value returned. *)
Definition __activity_messagebox_keypress (key : Z) (is_key_code : bool) : Z :=
  if decide (is_key_code = false ∧ (key = 10 ∨ key = 27))%Z
  then 1%Z (* Exit on return or escape *)
  else 0%Z.

(** What [__activity_messagebox_render] draws: the rectangle handed to
    [ncurses_render_rectangle], the position the message is written at
    and the number of columns the message may take. [ncurses_utils.c] is
    not part of the sources; the drawing itself is not modelled. *)
Record messagebox_rendering : Type := mk_messagebox_rendering {
  messagebox_x : Z;
  messagebox_y : Z;
  messagebox_width : Z;
  messagebox_height : Z;
  message_y : Z;
  message_x : Z;
  message_maximum_length : Z
}.

(** [__activity_messagebox_render], for a message of width [text_width]
    (a [size_t]) in a window of the size [getmaxyx] gives (two [int]):
    [None] when nothing is drawn. The minimum is taken between two
    [size_t] and stored in an [int]. *)
Definition __activity_messagebox_render (text_width : Z)
    (window_height window_width : Z) : option messagebox_rendering :=
  if decide (window_width < 5 ∨ window_height < 7)%Z
  then None (* Don't attempt rendering on small windows *)
  else
    let messagebox_width :=
      Q07.to_gint
        (Z.min (Q07.to_uint64 (window_width - 4))
               (Q07.to_uint64 (text_width + 2))) in
    let messagebox_height := 3%Z in
    let messagebox_x := ((window_width - messagebox_width) ÷ 2)%Z in
    let messagebox_y := ((window_height - messagebox_height) ÷ 2)%Z in
    Some (mk_messagebox_rendering messagebox_x messagebox_y
            messagebox_width messagebox_height
            (messagebox_y + 1) (messagebox_x + 1)
            (Z.max (messagebox_width - 3) 0)).

End ActivityMessagebox.

(* ===================================================================== *)
(** ** Loader of the passengers file ([dataset/passengers_loader.c]) *)
(* ===================================================================== *)

Module PassengersLoader.

Definition PASSENGERS_LOADER_ID_POOL_BLOCK_CAPACITY : nat := Z.to_nat 8192.

(** [passenger_relation_t]. *)
Record passenger_relation_t : Type := mk_relation {
  user_id : list ascii;
  flight_id : Z
}.

(** [passengers_loader_t]. [flight_manager.c] and [dataset_loader.c]'s
    error files are not part of the sources: of the flight manager the
    loader keeps the number of passengers of each flight it holds, and
    of the dataset loader the lines reported to the errors file. The
    identifier pool is [None] once its allocation failed. *)
Record passengers_loader_t : Type := mk_loader {
  flights : gmap Z Z;
  reported : list (list ascii);
  commit_buffer : list (option StringPool.handle);
  commit_buffer_flight : Z;
  commit_buffer_id_pool : option StringPool.string_pool;
  current_relation : passenger_relation_t;
  error_line : list ascii
}.

(** A line of the file as the line parser leaves it: the text of the
    line, the value the token callbacks gave for it ([0] when the
    flight and the user were found) and the relation they stored;
    with it, whether the allocations made while the line is handled
    succeed. *)
Record parsed_line : Type := mk_parsed_line {
  line_text : list ascii;
  line_retval : Z;
  line_relation : passenger_relation_t;
  malloc_id_pool : bool;
  malloc_id : bool
}.

(** The value a [uint16_t] parameter gets. *)
Definition to_uint16 (x : Z) : Z := (x mod 2 ^ 16)%Z.

(** [__passengers_loader_commit_flight_list]. The flight is in the
    flight manager, as [__passengers_loader_parse_flight_id] accepted
    its identifier. *)
Definition __passengers_loader_commit_flight_list
    (loader : passengers_loader_t) : passengers_loader_t :=
  mk_loader
    (alter (λ _, to_uint16 (Z.of_nat (length (commit_buffer loader))))
       (commit_buffer_flight loader) (flights loader))
    (reported loader) (commit_buffer loader) (commit_buffer_flight loader)
    (commit_buffer_id_pool loader) (current_relation loader)
    (error_line loader).

(** [__passengers_loader_after_parse_line]: the loader afterwards and
    the value returned. *)
Definition __passengers_loader_after_parse_line
    (malloc_id_pool malloc_id : bool) (loader : passengers_loader_t)
    (retval : Z) : passengers_loader_t * Z :=
  if decide (retval ≠ 0%Z) then
    (mk_loader (flights loader) (reported loader ++ [error_line loader])
       (commit_buffer loader) (commit_buffer_flight loader)
       (commit_buffer_id_pool loader) (current_relation loader)
       (error_line loader), 0%Z)
  else
    let new_flight :=
      bool_decide (length (commit_buffer loader) ≠ 0
                   ∧ flight_id (current_relation loader)
                     ≠ commit_buffer_flight loader) in
    let loader1 :=
      if new_flight then
        (* New flight *)
        let committed := __passengers_loader_commit_flight_list loader in
        mk_loader (flights committed) (reported committed)
          (match StringPool.string_pool_create
                   PASSENGERS_LOADER_ID_POOL_BLOCK_CAPACITY malloc_id_pool
           with
           | Some _ => []
           | None => commit_buffer committed
           end)
          (commit_buffer_flight committed)
          (StringPool.string_pool_create
             PASSENGERS_LOADER_ID_POOL_BLOCK_CAPACITY malloc_id_pool)
          (current_relation committed) (error_line committed)
      else loader in
    match commit_buffer_id_pool loader1 with
    | None => (loader1, 1%Z) (* Allocation failure *)
    | Some id_pool =>
        (* Still the same flight *)
        let (id_pool', pool_alloc_id) :=
          StringPool.string_pool_put malloc_id id_pool
            (user_id (current_relation loader1)) in
        (mk_loader (flights loader1) (reported loader1)
           (commit_buffer loader1 ++ [pool_alloc_id])
           (flight_id (current_relation loader1))
           (Some id_pool') (current_relation loader1) (error_line loader1),
         0%Z)
    end.

(** [utils/dataset_parser.c] is not part of the sources. For every line
    of the file, [dataset_parser_parse] hands the line to
    [__passengers_loader_before_parse_line], lets the token callbacks
    fill in the relation, and hands the value they gave to
    [__passengers_loader_after_parse_line]; it stops when that returns
    non-zero. *)
Fixpoint dataset_parser_parse (lines : list parsed_line)
    (loader : passengers_loader_t) : passengers_loader_t :=
  match lines with
  | [] => loader
  | line :: rest =>
      let loader :=
        mk_loader (flights loader) (reported loader) (commit_buffer loader)
          (commit_buffer_flight loader) (commit_buffer_id_pool loader)
          (line_relation line) (line_text line) in
      let (loader', retval) :=
        __passengers_loader_after_parse_line (malloc_id_pool line)
          (malloc_id line) loader (line_retval line) in
      if decide (retval = 0%Z) then dataset_parser_parse rest loader'
      else loader'
  end.

Definition PASSENGERS_LOADER_HEADER : list ascii :=
  list_ascii_of_string "flight_id;user_id".

(** What [passengers_loader_load] does after the stream is parsed. *)
Definition commit_last_flight (loader : passengers_loader_t)
  : passengers_loader_t :=
  if decide (0 < length (commit_buffer loader)) (* Don't fail on empty files *)
  then __passengers_loader_commit_flight_list loader
  else loader.

(** [passengers_loader_load], with the grammars allocated: the numbers
    of passengers in the flight manager and the lines in the errors file
    afterwards. *)
Definition passengers_loader_load (malloc_id_pool : bool)
    (flights : gmap Z Z) (lines : list parsed_line)
  : gmap Z Z * list (list ascii) :=
  match StringPool.string_pool_create
          PASSENGERS_LOADER_ID_POOL_BLOCK_CAPACITY malloc_id_pool with
  | None => (flights, [PASSENGERS_LOADER_HEADER]) (* Allocation failure *)
  | Some id_pool =>
      let data :=
        mk_loader flights [PASSENGERS_LOADER_HEADER] [] 0%Z (Some id_pool)
          (mk_relation [] 0%Z) [] in
      let data := commit_last_flight (dataset_parser_parse lines data) in
      (PassengersLoader.flights data, reported data)
  end.

(** The flights of the lines that were accepted, in the order of the
    file. *)
Definition accepted_flights (lines : list parsed_line) : list Z :=
  (λ line, flight_id (line_relation line))
    <$> filter (λ line, line_retval line = 0%Z) lines.

(** The runs of a sequence of flights: each maximal stretch of
    consecutive occurrences of one flight, with its length. *)
Fixpoint runs_from (current : Z) (count : nat) (ids : list Z)
  : list (Z * nat) :=
  match ids with
  | [] => [(current, count)]
  | f :: rest =>
      if decide (f = current) then runs_from current (S count) rest
      else (current, count) :: runs_from f 1 rest
  end.

Definition runs (ids : list Z) : list (Z * nat) :=
  match ids with
  | [] => []
  | f :: rest => runs_from f 1 rest
  end.

(** What committing a run does to the numbers of passengers. *)
Definition commit_run (flights : gmap Z Z) (run : Z * nat) : gmap Z Z :=
  alter (λ _, to_uint16 (Z.of_nat run.2)) run.1 flights.

(** The passengers of a flight are listed together when the flight has
    one run only. *)
Definition grouped_by_flight (ids : list Z) : Prop := NoDup (runs ids).*1.

(** Flights 10 and 11 of the flight manager; two passengers of flight 10
    and one of flight 11, and a line with a user that does not exist. *)
Definition sample_flights : gmap Z Z := <[10%Z := 0%Z]> (<[11%Z := 0%Z]> ∅).

Definition sample_passenger_line (text : string) (retval flight : Z)
    (user : string) : parsed_line :=
  mk_parsed_line (list_ascii_of_string text) retval
    (mk_relation (list_ascii_of_string user) flight) true true.

Definition sample_passenger_lines : list parsed_line :=
  [sample_passenger_line "10;U1" 0 10 "U1";
   sample_passenger_line "10;U9" 1 10 "U9";
   sample_passenger_line "10;U2" 0 10 "U2";
   sample_passenger_line "11;U1" 0 11 "U1"].

End PassengersLoader.

(* ===================================================================== *)
(** * Properties *)
(* ===================================================================== *)

(** ** Block pool: handle stability *)

Module PoolFacts.

Import Pool Samples.

Section Facts.
Context {A : Type}.
Implicit Types (p : pool A) (h : handle) (o : @op A).

Local Ltac live_tac :=
  unfold live; simpl; repeat case_bool_decide; simpl; try done; try lia.

Lemma wf_create cap ok p :
  0 < cap → __pool_create cap ok = Some p → wf p.
Proof.
  unfold __pool_create. intros Hcap Hc. destruct ok; [|done].
  injection Hc as <-. repeat split; simpl; try lia.
  constructor; [apply length_replicate | constructor].
Qed.

Lemma wf_alloc ok p p' r :
  wf p → __pool_alloc_item ok p = (p', r) → wf p'.
Proof.
  intros (Hcap & Hlen & Htop & Huse). unfold __pool_alloc_item.
  repeat case_decide; [| |destruct ok]; intros [= <- <-];
    repeat split; simpl; try lia; try done.
  - apply Forall_app. split; [done|].
    constructor; [apply length_replicate | constructor].
  - rewrite length_app. simpl. lia.
Qed.

Lemma wf_set p h v : wf p → wf (pool_set p h v).
Proof.
  intros (Hcap & Hlen & Htop & Huse). repeat split; simpl; try done.
  - apply Forall_alter; [done|]. intros b _ Hb. by rewrite length_insert.
  - by rewrite length_alter.
Qed.

Lemma wf_modify p h f : wf p → wf (pool_modify p h f).
Proof.
  intros (Hcap & Hlen & Htop & Huse). repeat split; simpl; try done.
  - apply Forall_alter; [done|]. intros b _ Hb. by rewrite length_alter.
  - by rewrite length_alter.
Qed.

Lemma wf_put ok p item p' r :
  wf p → __pool_put_item ok p item = (p', r) → wf p'.
Proof.
  intros Hwf. unfold __pool_put_item.
  destruct (__pool_alloc_item ok p) as [q [h'|]] eqn:Ha; intros [= <- <-].
  - apply wf_set. eapply wf_alloc; eauto.
  - eapply wf_alloc; eauto.
Qed.

Lemma wf_step o p : wf p → wf (step o p).1.
Proof.
  intros Hwf. destruct o as [ok|ok item|]; simpl.
  - destruct (__pool_alloc_item ok p) eqn:E. eapply wf_alloc; eauto.
  - destruct (__pool_put_item ok p item) eqn:E. eapply wf_put; eauto.
  - destruct Hwf as (? & ? & ? & ?). repeat split; simpl; try done; lia.
Qed.

(** The slot handed out by an allocation was not live before, is live
    afterwards and lies inside its block. *)
Lemma alloc_fresh ok p p' h :
  wf p → __pool_alloc_item ok p = (p', Some h) →
  live p h = false ∧ live p' h = true
  ∧ ∃ b, blocks p' !! h.1 = Some b ∧ h.2 < length b.
Proof.
  intros (Hcap & Hlen & Htop & Huse). unfold __pool_alloc_item.
  rewrite Forall_forall in Hlen.
  repeat case_decide; [| |destruct ok]; intros [= <- <-];
    (split_and!; [live_tac | live_tac |]); simpl.
  - destruct (lookup_lt_is_Some_2 (blocks p) (top p) Htop) as [b Hb].
    exists b. split; [done|].
    rewrite (Hlen b); [lia|]. by eapply list_elem_of_lookup_2.
  - assert (Hs : S (top p) < length (blocks p)) by done.
    destruct (lookup_lt_is_Some_2 (blocks p) _ Hs) as [b Hb].
    exists b. split; [done|].
    rewrite (Hlen b); [lia|]. by eapply list_elem_of_lookup_2.
  - exists (replicate (block_capacity p) None). split.
    + rewrite lookup_app_r; [|lia]. by rewrite Nat.sub_diag.
    + rewrite length_replicate. lia.
Qed.

Lemma live_spec p h :
  live p h = true ↔ h.1 < top p ∨ (h.1 = top p ∧ h.2 < top_usage p).
Proof.
  unfold live. rewrite orb_true_iff, andb_true_iff.
  rewrite !bool_decide_eq_true. done.
Qed.

Lemma pool_get_Some p h c :
  pool_get p h = Some c ↔
  live p h = true
  ∧ ∃ blk, blocks p !! h.1 = Some blk ∧ blk !! h.2 = Some c.
Proof.
  unfold pool_get. destruct (live p h); split.
  - intros Hg. split; [done|].
    destruct (blocks p !! h.1) as [blk|]; [|done]. eauto.
  - intros (_ & blk & -> & Hc). done.
  - done.
  - by intros [? _].
Qed.

(** An allocation changes neither the liveness nor the contents of the
    slots already handed out. *)
Lemma alloc_get ok p p' r h c :
  wf p → __pool_alloc_item ok p = (p', r) →
  pool_get p h = Some c → pool_get p' h = Some c.
Proof.
  intros (Hcap & Hlen & Htop & Huse) Ha.
  rewrite !pool_get_Some, !live_spec. intros (Hl & blk & Hb & Hc).
  assert (Hi : h.1 < length (blocks p)) by by eapply lookup_lt_Some.
  revert Ha. unfold __pool_alloc_item.
  repeat case_decide; [| |destruct ok]; intros [= <- <-]; simpl.
  - split; [lia|eauto].
  - split; [lia|eauto].
  - split; [lia|]. exists blk. by rewrite lookup_app_l.
  - split; [lia|eauto].
Qed.

Lemma live_set p h v h' : live (pool_set p h v) h' = live p h'.
Proof. done. Qed.

Lemma set_get_ne p h v h' :
  h ≠ h' → pool_get (pool_set p h v) h' = pool_get p h'.
Proof.
  intros Hne. unfold pool_get. rewrite live_set. destruct (live p h'); [|done].
  simpl. destruct h as [b i], h' as [b' i']. simpl.
  destruct (decide (b = b')) as [->|Hb].
  - rewrite list_lookup_alter_eq. destruct (blocks p !! b'); [|done]. simpl.
    rewrite list_lookup_insert_ne; [done|congruence].
  - by rewrite list_lookup_alter_ne.
Qed.

Lemma set_get_eq p h v b :
  live p h = true → blocks p !! h.1 = Some b → h.2 < length b →
  pool_get (pool_set p h v) h = Some (Some v).
Proof.
  intros Hl Hb Hi. unfold pool_get. rewrite live_set, Hl. simpl.
  rewrite list_lookup_alter_eq, Hb. simpl.
  by apply list_lookup_insert_eq.
Qed.

Lemma put_get ok p item p' r h c :
  wf p → __pool_put_item ok p item = (p', r) →
  pool_get p h = Some c → pool_get p' h = Some c.
Proof.
  intros Hwf. unfold __pool_put_item.
  destruct (__pool_alloc_item ok p) as [q [h'|]] eqn:Ha; intros [= <- <-] Hg.
  - destruct (alloc_fresh _ _ _ _ Hwf Ha) as (Hfresh & _ & _).
    rewrite set_get_ne; [by eapply alloc_get|].
    intros ->. unfold pool_get in Hg. by rewrite Hfresh in Hg.
  - by eapply alloc_get.
Qed.

Lemma step_get o p h c :
  wf p → is_empty_op o = false →
  pool_get p h = Some c → pool_get (step o p).1 h = Some c.
Proof.
  intros Hwf Ho Hg. destruct o as [ok|ok item|]; simpl in *; [| |done].
  - destruct (__pool_alloc_item ok p) eqn:E. by eapply alloc_get.
  - destruct (__pool_put_item ok p item) eqn:E. by eapply put_get.
Qed.

Lemma run_get ops p h c :
  wf p → forallb (λ o, negb (is_empty_op o)) ops = true →
  pool_get p h = Some c → pool_get (run ops p) h = Some c.
Proof.
  revert p. induction ops as [|o ops IH]; intros p Hwf Hops Hg; [done|].
  simpl in *. apply andb_true_iff in Hops as [Ho Hops].
  apply negb_true_iff in Ho.
  apply IH; [by apply wf_step | done | by apply step_get].
Qed.

(** The handle returned by an operation can be dereferenced at once. *)
Lemma step_returns o p p' h :
  wf p → step o p = (p', Some h) → is_Some (pool_get p' h).
Proof.
  intros Hwf. destruct o as [ok|ok item|]; simpl; [| |done].
  - intros Ha. destruct (alloc_fresh _ _ _ _ Hwf Ha) as (_ & Hl & b & Hb & Hi).
    unfold pool_get. rewrite Hl, Hb. simpl. by apply lookup_lt_is_Some_2.
  - unfold __pool_put_item.
    destruct (__pool_alloc_item ok p) as [q [h'|]] eqn:Ha; intros [= <- <-].
    destruct (alloc_fresh _ _ _ _ Hwf Ha) as (_ & Hl & b & Hb & Hi).
    erewrite set_get_eq; eauto.
Qed.

(** No operation but [pool_empty] moves or resizes a block: the
    sequence of blocks only grows at its end. *)
Lemma step_blocks o p b blk :
  blocks p !! b = Some blk →
  ∃ blk', blocks (step o p).1 !! b = Some blk' ∧ length blk' = length blk.
Proof.
  intros Hb.
  assert (Halloc : ∀ ok q r, __pool_alloc_item ok p = (q, r) →
            blocks q !! b = Some blk).
  { intros ok q r. unfold __pool_alloc_item.
    repeat case_decide; [| |destruct ok]; intros [= <- <-]; simpl; try done.
    rewrite lookup_app_l; [done|]. by eapply lookup_lt_Some. }
  destruct o as [ok|ok item|]; simpl.
  - destruct (__pool_alloc_item ok p) eqn:E. simpl. eauto.
  - unfold __pool_put_item.
    destruct (__pool_alloc_item ok p) as [q [h'|]] eqn:Ha; simpl; [|eauto].
    apply Halloc in Ha. destruct (decide (h'.1 = b)) as [<-|Hne].
    + rewrite list_lookup_alter_eq, Ha. simpl. eexists. split; [done|].
      by rewrite length_insert.
    + rewrite list_lookup_alter_ne; eauto.
  - eauto.
Qed.

Lemma run_blocks ops p b blk :
  blocks p !! b = Some blk →
  ∃ blk', blocks (run ops p) !! b = Some blk' ∧ length blk' = length blk.
Proof.
  revert p blk. induction ops as [|o ops IH]; intros p blk Hb; [eauto|].
  simpl. destruct (step_blocks o p b blk Hb) as (blk1 & Hb1 & Hl1).
  destruct (IH _ _ Hb1) as (blk' & Hb' & Hl'). exists blk'. split; [done|lia].
Qed.

(** [put_item] returns a slot that was not live before and that holds
    the item afterwards. *)
Lemma put_returns ok p item p' h :
  wf p → __pool_put_item ok p item = (p', Some h) →
  live p h = false ∧ pool_get p' h = Some (Some item).
Proof.
  intros Hwf. unfold __pool_put_item.
  destruct (__pool_alloc_item ok p) as [q [h'|]] eqn:Ha; intros [= <- <-].
  destruct (alloc_fresh _ _ _ _ Hwf Ha) as (Hf & Hl & b & Hb & Hi).
  split; [done|]. by eapply set_get_eq.
Qed.

(** With memory available, [put_item] succeeds. *)
Lemma put_succeeds p item : is_Some (__pool_put_item true p item).2.
Proof.
  unfold __pool_put_item, __pool_alloc_item. repeat case_decide; simpl; eauto.
Qed.

Lemma modify_get_eq p h f :
  pool_get (pool_modify p h f) h
  = fmap (M := option) (fmap (M := option) f) (pool_get p h).
Proof.
  unfold pool_get. change (live (pool_modify p h f) h) with (live p h).
  destruct (live p h); [|done]. simpl.
  rewrite list_lookup_alter_eq. destruct (blocks p !! h.1) as [b|]; [|done].
  simpl. by rewrite list_lookup_alter_eq.
Qed.

Lemma modify_get_ne p h f h' :
  h ≠ h' → pool_get (pool_modify p h f) h' = pool_get p h'.
Proof.
  intros Hne. unfold pool_get.
  change (live (pool_modify p h f) h') with (live p h').
  destruct (live p h'); [|done]. simpl.
  destruct h as [b i], h' as [b' i']. simpl.
  destruct (decide (b = b')) as [->|Hb].
  - rewrite list_lookup_alter_eq. destruct (blocks p !! b'); [|done]. simpl.
    rewrite list_lookup_alter_ne; [done|congruence].
  - by rewrite list_lookup_alter_ne.
Qed.

(** C9. On a well-formed block pool (blocks of one positive capacity),
    take any operation other than [pool_empty] that returns a handle, followed by any sequence of [alloc_item] and
    [put_item] operations in which [pool_empty] does not occur (each
    with or without allocation failure). The handle can be dereferenced
    as soon as it is returned, it can still be dereferenced after the
    whole sequence, and the contents of its slot are the same (the item
    copied, for [put_item]). Every block present when the handle was
    returned is still at the same position with the same number of
    slots: growth only appends blocks. *)
Theorem handle_stability p p1 o ops h :
  wf p →
  is_empty_op o = false →
  step o p = (p1, Some h) →
  forallb (λ o, negb (is_empty_op o)) ops = true →
  ∃ c, pool_get p1 h = Some c
     ∧ pool_get (run ops p1) h = Some c
     ∧ (∀ ok item, o = OpPut ok item → c = Some item)
     ∧ (∀ b blk, blocks p1 !! b = Some blk →
          ∃ blk', blocks (run ops p1) !! b = Some blk'
                  ∧ length blk' = length blk).
Proof.
  intros Hwf Ho Hstep Hops.
  destruct (step_returns o p p1 h Hwf Hstep) as [c Hc].
  assert (Hwf1 : wf p1).
  { replace p1 with (step o p).1 by by rewrite Hstep. by apply wf_step. }
  exists c. split_and!; [done | by apply run_get | | by apply run_blocks].
  intros ok item ->. simpl in Hstep. unfold __pool_put_item in Hstep.
  destruct (__pool_alloc_item ok p) as [q [h'|]] eqn:Ha; [|done].
  injection Hstep as <- <-.
  destruct (alloc_fresh _ _ _ _ Hwf Ha) as (_ & Hl & b & Hb & Hi).
  erewrite set_get_eq in Hc; eauto. congruence.
Qed.

End Facts.

Lemma handle_stability_witness :
  ∃ c, pool_get (step (OpPut true 7) sample_pool).1 (0, 0) = Some c
     ∧ pool_get (run sample_later_ops (step (OpPut true 7) sample_pool).1)
         (0, 0) = Some c
     ∧ (∀ ok item, OpPut true 7 = OpPut ok item → c = Some item)
     ∧ (∀ b blk,
          blocks (step (OpPut true 7) sample_pool).1 !! b = Some blk →
          ∃ blk',
            blocks (run sample_later_ops (step (OpPut true 7) sample_pool).1)
              !! b = Some blk'
            ∧ length blk' = length blk).
Proof.
  apply (handle_stability sample_pool _ (OpPut true 7) sample_later_ops (0, 0)).
  - unfold wf, sample_pool; simpl. repeat split; try lia. repeat constructor.
  - reflexivity.
  - reflexivity.
  - reflexivity.
Defined.

End PoolFacts.

(** ** String pools: stored strings and deduplication *)

Module StringPoolFacts.

Import StringPool.

Lemma c_str_no_NUL mem : NUL ∉ c_str mem.
Proof.
  induction mem as [|c mem IH]; simpl; [by apply not_elem_of_nil|].
  case_decide; [by apply not_elem_of_nil|].
  apply not_elem_of_cons. split; [congruence|done].
Qed.

Lemma c_str_terminated s post : NUL ∉ s → c_str (s ++ NUL :: post) = s.
Proof.
  induction s as [|c s IH]; simpl; intros Hs.
  - done.
  - apply not_elem_of_cons in Hs as [Hc Hs].
    case_decide; [congruence|]. by rewrite IH.
Qed.

Lemma stored_bytes_at p h s :
  stored p h s → ∃ post, bytes_at p h = s ++ NUL :: post.
Proof.
  intros (pre & post & Hb & Hlen & _). exists post.
  unfold bytes_at. rewrite Hb. simpl. rewrite <- Hlen.
  by rewrite drop_app_length.
Qed.

Lemma stored_string_at p h s : stored p h s → string_at p h = s.
Proof.
  intros Hs. destruct (stored_bytes_at p h s Hs) as [post Hb].
  destruct Hs as (_ & _ & _ & _ & Hn).
  unfold string_at. rewrite Hb. by apply c_str_terminated.
Qed.

(** Two strings stored at the same handle are the same string. *)
Lemma stored_inj p h s1 s2 : stored p h s1 → stored p h s2 → s1 = s2.
Proof.
  intros H1 H2. apply stored_string_at in H1, H2. congruence.
Qed.

Lemma put_fails ok p str p' :
  string_pool_put ok p str = (p', None) → p' = p.
Proof.
  unfold string_pool_put. destruct (last (blocks p)) as [blk|].
  - case_decide; [done|]. destruct ok; [done|]. by intros [= <-].
  - destruct ok; [done|]. by intros [= <-].
Qed.

(** A successful [string_pool_put] leaves a null-terminated copy of the
    string at the handle it returns. *)
Lemma put_stored ok p str p' h :
  string_pool_put ok p str = (p', Some h) → stored p' h (c_str str).
Proof.
  unfold string_pool_put, stored.
  destruct (last (blocks p)) as [blk|] eqn:Hlast.
  - apply last_Some in Hlast as [l' Hl'].
    case_decide; [|destruct ok; [|done]]; intros [= <- <-]; simpl.
    + exists blk, []. rewrite Hl', length_app. simpl.
      replace (pred (length l' + 1)) with (length l' + 0) by lia.
      rewrite insert_app_r. simpl. rewrite Nat.add_0_r.
      rewrite list_lookup_middle; [|done].
      split_and!; [done | done | apply c_str_no_NUL].
    + exists [], []. rewrite lookup_app_r; [|lia]. rewrite Nat.sub_diag.
      split_and!; [done | done | apply c_str_no_NUL].
  - destruct ok; [|done]. intros [= <- <-]. simpl.
    exists [], []. rewrite lookup_app_r; [|lia]. rewrite Nat.sub_diag.
    split_and!; [done | done | apply c_str_no_NUL].
Qed.

(** [string_pool_put] never moves or overwrites a string stored before. *)
Lemma put_preserves ok p str p' r h s :
  string_pool_put ok p str = (p', r) → stored p h s → stored p' h s.
Proof.
  unfold string_pool_put, stored. intros Hput (pre & post & Hb & Hlen & Hn).
  assert (Happ : ∀ blk,
    (blocks p ++ [blk]) !! h.1 = Some (pre ++ s ++ NUL :: post)).
  { intros blk. rewrite lookup_app_l; [done|]. by eapply lookup_lt_Some. }
  destruct (last (blocks p)) as [blk|] eqn:Hlast.
  - apply last_Some in Hlast as [l' Hl'].
    revert Hput. case_decide; [|destruct ok]; intros [= <- <-]; simpl; eauto.
    rewrite Hl', length_app in *. simpl in *.
    replace (pred (length l' + 1)) with (length l' + 0) by lia.
    rewrite insert_app_r. simpl.
    destruct (decide (h.1 = length l')) as [Hh|Hh].
    + rewrite Hh in *. rewrite list_lookup_middle in Hb; [|done].
      injection Hb as ->. exists pre, (post ++ c_str str ++ [NUL]).
      rewrite list_lookup_middle; [|done].
      split_and!; [|done|done]. f_equal.
      by rewrite <- !app_assoc.
    + exists pre, post. split_and!; [|done|done].
      assert (h.1 < length l').
      { apply lookup_lt_Some in Hb. rewrite length_app in Hb.
        simpl in Hb. lia. }
      rewrite lookup_app_l in Hb by done. by rewrite lookup_app_l.
  - revert Hput. destruct ok; intros [= <- <-]; simpl; eauto.
Qed.

End StringPoolFacts.

Module StringPoolNoDuplicatesFacts.

Import StringPool StringPoolNoDuplicates StringPoolFacts Samples.

Lemma index_ok_create cap ok1 ok2 pool :
  string_pool_no_duplicates_create cap ok1 ok2 = Some pool → index_ok pool.
Proof.
  unfold string_pool_no_duplicates_create, string_pool_create.
  destruct ok1, ok2; try done. intros [= <-] k h Hk. done.
Qed.

(** An insertion keeps the index consistent with the arena, and keeps
    every string stored before where it was. *)
Lemma put_index_ok ok pool str pool' r :
  index_ok pool →
  string_pool_no_duplicates_put ok pool str = (pool', r) →
  index_ok pool'
  ∧ ∀ h s, stored (strings pool) h s → stored (strings pool') h s.
Proof.
  intros Hok. unfold string_pool_no_duplicates_put.
  destruct (already_stored pool !! c_str str) as [data|] eqn:Hl.
  { intros [= <- <-]. done. }
  destruct (string_pool_put ok (strings pool) str) as [strings' [h'|]] eqn:Hp;
    intros [= <- <-]; simpl.
  - assert (Hkeep : ∀ h s, stored (strings pool) h s → stored strings' h s)
      by (intros h s; by eapply put_preserves).
    split; [|done]. intros k h. simpl.
    pose proof (put_stored _ _ _ _ _ Hp) as Hst.
    rewrite (stored_string_at _ _ _ Hst).
    destruct (decide (c_str str = k)) as [<-|Hne].
    + rewrite lookup_insert_eq. by intros [= <-].
    + rewrite lookup_insert_ne by done. intros Hk. by apply Hkeep, Hok.
  - apply put_fails in Hp as ->. split; [|done].
    intros k h Hk. by apply Hok.
Qed.

(** After a successful insertion, the string is stored at the handle
    returned and the index maps the string to that handle. *)
Lemma put_registers ok pool str pool' h :
  index_ok pool →
  string_pool_no_duplicates_put ok pool str = (pool', Some h) →
  stored (strings pool') h (c_str str)
  ∧ already_stored pool' !! c_str str = Some h.
Proof.
  intros Hok. unfold string_pool_no_duplicates_put.
  destruct (already_stored pool !! c_str str) as [data|] eqn:Hl.
  { intros [= <- <-]. split; [by apply Hok|done]. }
  destruct (string_pool_put ok (strings pool) str) as [strings' [h'|]] eqn:Hp;
    intros [= <- <-]; simpl.
  pose proof (put_stored _ _ _ _ _ Hp) as Hst. split; [done|].
  rewrite (stored_string_at _ _ _ Hst). apply lookup_insert_eq.
Qed.



End StringPoolNoDuplicatesFacts.

(** ** Reservation manager *)

Module ReservationManagerFacts.

Import Reservation ReservationManager ReservationManagerClient Samples.

Lemma str_read_mem strings p :
  StringPool.c_str (str_mem strings p) = str_read strings p.
Proof. by destruct p. Qed.

Lemma str_read_put ok strings str strings' r p :
  StringPool.string_pool_put ok strings str = (strings', r) →
  str_valid strings p →
  str_valid strings' p ∧ str_read strings' p = str_read strings p.
Proof.
  intros Hput. destruct p as [mem|h]; simpl; [done|]. intros [s Hs].
  pose proof (StringPoolFacts.put_preserves _ _ _ _ _ _ _ Hput Hs) as Hs'.
  split; [by exists s|].
  by rewrite (StringPoolFacts.stored_string_at _ _ _ Hs),
             (StringPoolFacts.stored_string_at _ _ _ Hs').
Qed.

(** The shape of a successful insertion. *)
Lemma add_Some mallocs m r m' log h :
  reservation_manager_add_reservation mallocs m r = (m', log, Some h) →
  ∃ res' s1 u s2 hn,
    Pool.__pool_put_item (malloc_reservation mallocs) (reservations m) r
      = (res', Some h)
    ∧ StringPool.string_pool_put (malloc_user_id mallocs) (strings m)
        (str_mem (strings m) (user_id r)) = (s1, Some u)
    ∧ StringPool.string_pool_put (malloc_hotel_name mallocs) s1
        (str_mem s1 (hotel_name r)) = (s2, Some hn)
    ∧ m' = mk_manager
             (Pool.pool_modify
                (Pool.pool_modify res' h (reservation_set_user_id (PoolStr u)))
                h (reservation_set_hotel_name (PoolStr hn)))
             s2 (<[id r := h]> (id_reservations_rel m))
    ∧ log = match id_reservations_rel m !! id r with
            | Some _ => [REPEATED_RESERVATION_ID (id r)]
            | None => []
            end.
Proof.
  unfold reservation_manager_add_reservation,
    reservation_get_const_user_id, reservation_get_const_hotel_name,
    reservation_get_id.
  destruct (Pool.__pool_put_item _ _ _) as [res' [pr|]] eqn:Hp; [|done].
  destruct (StringPool.string_pool_put (malloc_user_id mallocs) _ _)
    as [s1 [u|]] eqn:Hu;
  destruct (StringPool.string_pool_put (malloc_hotel_name mallocs) _ _)
    as [s2 [hn|]] eqn:Hn; try done.
  intros [= <- <- <-]. by exists res', s1, u, s2, hn.
Qed.

(** With memory available, an insertion succeeds. *)
Lemma add_succeeds m r :
  is_Some
    (reservation_manager_add_reservation (mk_mallocs true true true) m r).2.
Proof.
  unfold reservation_manager_add_reservation. simpl.
  destruct (PoolFacts.put_succeeds (A := reservation) (reservations m) r)
    as [pr Hpr].
  destruct (Pool.__pool_put_item true (reservations m) r) as [res' o].
  simpl in Hpr. subst o.
  unfold StringPool.string_pool_put.
  repeat (destruct (last _); simpl; repeat case_decide; simpl); eauto.
Qed.

(** Whether an insertion succeeds does not depend on the index. *)
Lemma add_ret_index mallocs m r idx :
  (reservation_manager_add_reservation mallocs m r).2
  = (reservation_manager_add_reservation mallocs
       (mk_manager (reservations m) (strings m) idx) r).2.
Proof.
  unfold reservation_manager_add_reservation. simpl.
  destruct (Pool.__pool_put_item _ _ _) as [res' [pr|]]; [|done].
  destruct (StringPool.string_pool_put (malloc_user_id mallocs) _ _)
    as [s1 [u|]];
  destruct (StringPool.string_pool_put (malloc_hotel_name mallocs) _ _)
    as [s2 [hn|]]; done.
Qed.

(** C3. Let a reservation be added whose identifier already maps to an
    entity [h0] in the identifier index. The insertion returns what it
    would return were the identifier absent from the index, so the
    duplicate is never a cause of failure, and it does return an entity
    when memory can be allocated. Whenever it returns an entity [h]: one
    warning is logged, the index maps the identifier to [h]
    (last-write-wins), the other entries of the index are untouched, and
    [h] is a newly stored entity: its slot was not in use before and now
    holds a copy with that identifier. *)
Theorem duplicate_id_last_write_wins mallocs m r h0 m' log ret :
  Pool.wf (reservations m) →
  reservation_manager_get_by_id m (reservation_get_id r) = Some h0 →
  reservation_manager_add_reservation mallocs m r = (m', log, ret) →
  ret = (reservation_manager_add_reservation mallocs
           (mk_manager (reservations m) (strings m)
              (delete (reservation_get_id r) (id_reservations_rel m))) r).2
  ∧ (mallocs = mk_mallocs true true true → is_Some ret)
  ∧ ∀ h, ret = Some h →
      log = [REPEATED_RESERVATION_ID (reservation_get_id r)]
      ∧ reservation_manager_get_by_id m' (reservation_get_id r) = Some h
      ∧ (∀ other, other ≠ reservation_get_id r →
           reservation_manager_get_by_id m' other
           = reservation_manager_get_by_id m other)
      ∧ Pool.live (reservations m) h = false
      ∧ ∃ e, Pool.pool_get (reservations m') h = Some (Some e)
             ∧ reservation_get_id e = reservation_get_id r.
Proof.
  unfold reservation_manager_get_by_id, reservation_get_id.
  intros Hwf Hdup Hadd. split_and!.
  - rewrite <- add_ret_index. by rewrite Hadd.
  - intros ->. pose proof (add_succeeds m r) as Hs. by rewrite Hadd in Hs.
  - intros h ->.
    destruct (add_Some _ _ _ _ _ _ Hadd)
      as (res' & s1 & u & s2 & hn & Hp & Hu & Hn & -> & ->).
    destruct (PoolFacts.put_returns _ _ _ _ _ Hwf Hp) as [Hfresh Hget].
    rewrite Hdup. simpl. split_and!; [done| | |done|].
    + apply lookup_insert_eq.
    + intros other Hne. by rewrite lookup_insert_ne.
    + eexists. by rewrite !PoolFacts.modify_get_eq, Hget.
Qed.

(** C6. Let the entity copy of a reservation be placed in the entity pool
    at [h], and let the copy of its user identifier or of its hotel name
    into the string pool fail. Then the insertion returns null, logs
    nothing and leaves the identifier index as it was; the slot [h], which
    was not in use before, stays in use (the pool's allocation cursor is
    not moved back) and holds the copy marked invalid. *)
Theorem string_copy_failure_invalidates
    mallocs m r res' h s1 pool_user_id s2 pool_hotel_name m' log ret :
  Pool.wf (reservations m) →
  Pool.__pool_put_item (malloc_reservation mallocs) (reservations m) r
    = (res', Some h) →
  StringPool.string_pool_put (malloc_user_id mallocs) (strings m)
    (str_mem (strings m) (reservation_get_const_user_id r))
    = (s1, pool_user_id) →
  StringPool.string_pool_put (malloc_hotel_name mallocs) s1
    (str_mem s1 (reservation_get_const_hotel_name r))
    = (s2, pool_hotel_name) →
  pool_user_id = None ∨ pool_hotel_name = None →
  reservation_manager_add_reservation mallocs m r = (m', log, ret) →
  ret = None
  ∧ log = []
  ∧ id_reservations_rel m' = id_reservations_rel m
  ∧ Pool.pool_get (reservations m') h = Some (Some (reservation_invalidate r))
  ∧ reservation_is_valid (reservation_invalidate r) = 1%Z
  ∧ Pool.live (reservations m) h = false
  ∧ Pool.live (reservations m') h = true
  ∧ Pool.top (reservations m') = Pool.top res'
  ∧ Pool.top_usage (reservations m') = Pool.top_usage res'.
Proof.
  intros Hwf Hp Hu Hn Hfail.
  destruct (PoolFacts.put_returns _ _ _ _ _ Hwf Hp) as [Hfresh Hget].
  assert (Hlive : Pool.live res' h = true).
  { apply PoolFacts.pool_get_Some in Hget. tauto. }
  unfold reservation_manager_add_reservation. rewrite Hp, Hu, Hn.
  assert (Hshape :
    ∀ x : reservation_manager * list log_line * option Pool.handle,
    x = (mk_manager (Pool.pool_modify res' h reservation_invalidate) s2
           (id_reservations_rel m), [], None) →
    x = (m', log, ret) →
    ret = None ∧ log = [] ∧ id_reservations_rel m' = id_reservations_rel m
    ∧ Pool.pool_get (reservations m') h
      = Some (Some (reservation_invalidate r))
    ∧ reservation_is_valid (reservation_invalidate r) = 1%Z
    ∧ Pool.live (reservations m) h = false
    ∧ Pool.live (reservations m') h = true
    ∧ Pool.top (reservations m') = Pool.top res'
    ∧ Pool.top_usage (reservations m') = Pool.top_usage res').
  { intros x -> [= <- <- <-]. simpl.
    rewrite PoolFacts.modify_get_eq, Hget. done. }
  destruct Hfail as [-> | ->]; [|destruct pool_user_id]; by apply Hshape.
Qed.

(** The identifier index after an insertion. *)
Lemma add_index mallocs m r m' log ret :
  reservation_manager_add_reservation mallocs m r = (m', log, ret) →
  id_reservations_rel m'
  = match ret with
    | Some h => <[reservation_get_id r := h]> (id_reservations_rel m)
    | None => id_reservations_rel m
    end.
Proof.
  unfold reservation_manager_add_reservation.
  destruct (Pool.__pool_put_item _ _ _) as [res' [pr|]];
    [|by intros [= <- <- <-]].
  destruct (StringPool.string_pool_put (malloc_user_id mallocs) _ _)
    as [s1 [u|]];
  destruct (StringPool.string_pool_put (malloc_hotel_name mallocs) _ _)
    as [s2 [hn|]]; by intros [= <- <- <-].
Qed.

Lemma add_all_cons mallocs r rest m :
  add_all ((mallocs, r) :: rest) m
  = ((add_all rest
        (reservation_manager_add_reservation mallocs m r).1.1).1,
     (reservation_manager_add_reservation mallocs m r).2
     :: (add_all rest
           (reservation_manager_add_reservation mallocs m r).1.1).2).
Proof.
  simpl. destruct (reservation_manager_add_reservation mallocs m r)
    as [[m' log] ret]. simpl. by destruct (add_all rest m').
Qed.

Lemma inserted_at_S request requests ret rets res_id k h :
  inserted_at (request :: requests) (ret :: rets) res_id (S k) h
  ↔ inserted_at requests rets res_id k h.
Proof. done. Qed.

(** Insertions of other identifiers, and insertions that fail, leave the
    entity found under an identifier as it was. *)
Lemma lookup_without_insertion requests m res_id :
  (∀ k h, ¬ inserted_at requests (add_all requests m).2 res_id k h) →
  reservation_manager_get_by_id (add_all requests m).1 res_id
  = reservation_manager_get_by_id m res_id.
Proof.
  revert m. induction requests as [|[mallocs r] rest IH]; intros m Hnone;
    [done|].
  rewrite add_all_cons in *. cbn [fst snd] in *.
  destruct (reservation_manager_add_reservation mallocs m r)
    as [[m' log] ret] eqn:Hadd. cbn [fst snd] in *.
  rewrite IH.
  - unfold reservation_manager_get_by_id. rewrite (add_index _ _ _ _ _ _ Hadd).
    destruct ret as [h|]; [|done].
    apply lookup_insert_ne. intros Hid. apply (Hnone 0 h).
    by exists mallocs, r.
  - intros k h Hk. apply (Hnone (S k) h). by apply inserted_at_S.
Qed.

(** An insertion, whatever it returns, leaves the records of the
    entity pool and the strings of the string pool as they were. *)
Lemma add_preserves mallocs m r m' log ret :
  Pool.wf (reservations m) →
  reservation_manager_add_reservation mallocs m r = (m', log, ret) →
  Pool.wf (reservations m')
  ∧ (∀ h c, Pool.pool_get (reservations m) h = Some c →
       Pool.pool_get (reservations m') h = Some c)
  ∧ (∀ p, str_valid (strings m) p →
       str_valid (strings m') p
       ∧ str_read (strings m') p = str_read (strings m) p).
Proof.
  intros Hwf. unfold reservation_manager_add_reservation.
  destruct (Pool.__pool_put_item _ _ _) as [res' [pr|]] eqn:Hp.
  2:{ intros [= <- <- <-]. simpl. split_and!.
      - by eapply PoolFacts.wf_put.
      - intros h c. by eapply PoolFacts.put_get.
      - done. }
  destruct (StringPool.string_pool_put (malloc_user_id mallocs) _ _)
    as [s1 pu] eqn:Hu.
  destruct (StringPool.string_pool_put (malloc_hotel_name mallocs) _ _)
    as [s2 phn] eqn:Hn.
  pose proof (PoolFacts.wf_put _ _ _ _ _ Hwf Hp) as Hwf'.
  destruct (PoolFacts.put_returns _ _ _ _ _ Hwf Hp) as [Hfresh _].
  assert (Hne : ∀ h c, Pool.pool_get (reservations m) h = Some c → pr ≠ h).
  { intros h c Hget ->. apply PoolFacts.pool_get_Some in Hget as [Hlive _].
    congruence. }
  assert (Hstr : ∀ p, str_valid (strings m) p →
            str_valid s2 p ∧ str_read s2 p = str_read (strings m) p).
  { intros p Hp1.
    destruct (str_read_put _ _ _ _ _ p Hu Hp1) as [Hp2 Hr1].
    destruct (str_read_put _ _ _ _ _ p Hn Hp2) as [Hp3 Hr2].
    split; [done|congruence]. }
  destruct pu as [u|], phn as [hn|]; intros [= <- <- <-]; simpl;
    (split_and!;
     [by repeat apply PoolFacts.wf_modify
     |intros h c Hget;
      rewrite ?PoolFacts.modify_get_ne by exact (Hne _ _ Hget);
      exact (PoolFacts.put_get _ _ _ _ _ _ _ Hwf Hp Hget)
     |done]).
Qed.

Lemma add_all_preserves requests m :
  Pool.wf (reservations m) →
  (∀ h c, Pool.pool_get (reservations m) h = Some c →
     Pool.pool_get (reservations (add_all requests m).1) h = Some c)
  ∧ (∀ p, str_valid (strings m) p →
       str_read (strings (add_all requests m).1) p = str_read (strings m) p).
Proof.
  revert m. induction requests as [|[mallocs r] rest IH]; intros m Hwf;
    [done|].
  rewrite add_all_cons. cbn [fst snd].
  destruct (reservation_manager_add_reservation mallocs m r)
    as [[m' log] ret] eqn:Hadd. cbn [fst snd].
  destruct (add_preserves _ _ _ _ _ _ Hwf Hadd) as (Hwf' & Hget & Hstr).
  destruct (IH m' Hwf') as [IHget IHstr]. split.
  - intros h c Hc. by apply IHget, Hget.
  - intros p Hp. destruct (Hstr p Hp) as [Hp' Hr]. by rewrite IHstr.
Qed.

(** C8. Let the insertion of a reservation [r] whose hotel name is a
    well-formed string return the entity [h]. Then looking up the
    identifier of [r] returns [h], the other identifiers are looked up
    as before the insertion, and the record stored at [h] has the
    identifier, the scalar fields and the validity mark of [r], while its
    two string fields point to pool-owned strings that are byte-equal to
    the strings of [r]. All this stays so after any further insertions
    into the manager, failed ones included: the record at [h] and its
    strings read the same, and, as long as none of the further insertions
    returns an entity for the identifier of [r], looking it up still
    returns [h]. *)
Theorem catalog_round_trip mallocs m r m' log h :
  Pool.wf (reservations m) →
  str_valid (strings m) (reservation_get_const_hotel_name r) →
  reservation_manager_add_reservation mallocs m r = (m', log, Some h) →
  reservation_manager_get_by_id m' (reservation_get_id r) = Some h
  ∧ (∀ other, other ≠ reservation_get_id r →
       reservation_manager_get_by_id m' other
       = reservation_manager_get_by_id m other)
  ∧ ∃ e u hn,
      Pool.pool_get (reservations m') h = Some (Some e)
      ∧ id e = id r
      ∧ scalars e = scalars r
      ∧ invalidated e = invalidated r
      ∧ user_id e = PoolStr u
      ∧ hotel_name e = PoolStr hn
      ∧ str_read (strings m') (user_id e) = str_read (strings m) (user_id r)
      ∧ str_read (strings m') (hotel_name e)
        = str_read (strings m) (hotel_name r)
      ∧ ∀ requests,
          Pool.pool_get (reservations (add_all requests m').1) h
          = Some (Some e)
          ∧ str_read (strings (add_all requests m').1) (user_id e)
            = str_read (strings m) (user_id r)
          ∧ str_read (strings (add_all requests m').1) (hotel_name e)
            = str_read (strings m) (hotel_name r)
          ∧ ((∀ k h',
                ¬ inserted_at requests (add_all requests m').2
                    (reservation_get_id r) k h') →
             reservation_manager_get_by_id (add_all requests m').1
               (reservation_get_id r) = Some h).
Proof.
  intros Hwf Hvalid Hadd.
  destruct (add_preserves _ _ _ _ _ _ Hwf Hadd) as (Hwf' & _ & _).
  assert (Hlookup :
    reservation_manager_get_by_id m' (reservation_get_id r) = Some h).
  { unfold reservation_manager_get_by_id.
    rewrite (add_index _ _ _ _ _ _ Hadd). apply lookup_insert_eq. }
  split; [exact Hlookup|]. split.
  { intros other Hne. unfold reservation_manager_get_by_id.
    rewrite (add_index _ _ _ _ _ _ Hadd). by apply lookup_insert_ne. }
  unfold reservation_get_id, reservation_get_const_hotel_name in *.
  destruct (add_Some _ _ _ _ _ _ Hadd)
    as (res' & s1 & u & s2 & hn & Hp & Hu & Hn & Hm' & _).
  destruct (PoolFacts.put_returns _ _ _ _ _ Hwf Hp) as [_ Hget].
  pose proof (StringPoolFacts.put_stored _ _ _ _ _ Hu) as Hstu.
  eapply StringPoolFacts.put_preserves in Hstu; [|exact Hn].
  pose proof (StringPoolFacts.put_stored _ _ _ _ _ Hn) as Hsthn.
  set (e := reservation_set_hotel_name (PoolStr hn)
              (reservation_set_user_id (PoolStr u) r)).
  assert (He : Pool.pool_get (reservations m') h = Some (Some e)).
  { rewrite Hm'. simpl. by rewrite !PoolFacts.modify_get_eq, Hget. }
  assert (Hru : str_read (strings m') (user_id e)
                = str_read (strings m) (user_id r)).
  { rewrite Hm'. simpl.
    rewrite (StringPoolFacts.stored_string_at _ _ _ Hstu).
    apply str_read_mem. }
  assert (Hrhn : str_read (strings m') (hotel_name e)
                 = str_read (strings m) (hotel_name r)).
  { rewrite Hm'. simpl.
    rewrite (StringPoolFacts.stored_string_at _ _ _ Hsthn), str_read_mem.
    by destruct (str_read_put _ _ _ _ _ (hotel_name r) Hu Hvalid). }
  exists e, u, hn. split_and!; try done.
  intros requests.
  destruct (add_all_preserves requests m' Hwf') as [Hgets Hstrs].
  split_and!.
  - by apply Hgets.
  - rewrite Hstrs; [done|]. rewrite Hm'. simpl. by eexists.
  - rewrite Hstrs; [done|]. rewrite Hm'. simpl. by eexists.
  - intros Hnone. by rewrite lookup_without_insertion.
Qed.

Lemma iter_items_valid {S : Type} (callback : @iter_callback S)
    user_data items :
  Pool.iter_items (__reservation_manager_iter_callback callback)
    user_data items
  = iter_valid callback user_data
      (filter (λ r, reservation_is_valid r = 0%Z)
              (omap (λ item, item) items)).
Proof.
  revert user_data. induction items as [|[r|] items IH]; intros s; simpl.
  - done.
  - rewrite filter_cons. case_decide as Hv; simpl.
    + destruct (callback s r) as [s' ret]. case_decide; [apply IH|done].
    + apply IH.
  - apply IH.
Qed.

Lemma iter_valid_traced {S : Type} (callback : @iter_callback S)
    user_data seen items :
  Forall (λ r, reservation_is_valid r = 0%Z) seen →
  Forall (λ r, reservation_is_valid r = 0%Z) items →
  Forall (λ r, reservation_is_valid r = 0%Z)
    (iter_valid (traced callback) (user_data, seen) items).1.2.
Proof.
  revert user_data seen.
  induction items as [|r items IH]; intros s seen Hseen Hitems; simpl; [done|].
  apply Forall_cons in Hitems as [Hr Hitems].
  unfold traced at 1. simpl. destruct (callback s r) as [s' ret].
  assert (Forall (λ r, reservation_is_valid r = 0%Z) (seen ++ [r])).
  { apply Forall_app. split; [done|]. by constructor. }
  case_decide; [by apply IH|done].
Qed.

(** C7. An iteration over a reservation manager, with any callback and
    any user data, is the iteration of that callback over the valid
    reservations of the pool only, in pool order; and every reservation
    the callback is invoked on during the iteration is valid. *)
Theorem iteration_skips_invalid {S : Type} (manager : reservation_manager)
    (callback : @iter_callback S) (user_data : S) :
  reservation_manager_iter manager callback user_data
  = iter_valid callback user_data (valid_reservations manager)
  ∧ Forall (λ r, reservation_is_valid r = 0%Z)
      (reservation_manager_iter manager (traced callback) (user_data, [])).1.2.
Proof.
  unfold reservation_manager_iter, Pool.pool_iter, valid_reservations.
  rewrite !iter_items_valid. split; [done|].
  apply iter_valid_traced; [constructor|].
  apply list.Forall_forall. intros r Hr.
  apply list_elem_of_filter in Hr. tauto.
Qed.

Lemma sample_manager_1_wf : Pool.wf (reservations sample_manager_1).
Proof.
  vm_compute. repeat split; try lia. repeat constructor.
Qed.

Lemma duplicate_id_last_write_wins_witness :
  reservation_manager_add_reservation all_granted sample_manager_1
    (sample_reservation 42 "U2" "Plaza")
  = ((reservation_manager_add_reservation all_granted sample_manager_1
        (sample_reservation 42 "U2" "Plaza")).1.1,
     [REPEATED_RESERVATION_ID 42], Some (0, 1))
  ∧ reservation_manager_get_by_id
      (reservation_manager_add_reservation all_granted sample_manager_1
         (sample_reservation 42 "U2" "Plaza")).1.1 42 = Some (0, 1).
Proof.
  assert (Hadd : reservation_manager_add_reservation all_granted
            sample_manager_1 (sample_reservation 42 "U2" "Plaza")
          = ((reservation_manager_add_reservation all_granted sample_manager_1
                (sample_reservation 42 "U2" "Plaza")).1.1,
             [REPEATED_RESERVATION_ID 42], Some (0, 1))).
  { vm_compute. reflexivity. }
  split; [exact Hadd|].
  assert (Hdup : reservation_manager_get_by_id sample_manager_1
            (reservation_get_id (sample_reservation 42 "U2" "Plaza"))
          = Some (0, 0)).
  { vm_compute. reflexivity. }
  pose proof (duplicate_id_last_write_wins all_granted sample_manager_1
                (sample_reservation 42 "U2" "Plaza") (0, 0) _ _ _
                sample_manager_1_wf Hdup Hadd) as (_ & _ & Hsome).
  destruct (Hsome (0, 1) eq_refl) as (_ & Hget & _).
  exact Hget.
Defined.

Lemma string_copy_failure_invalidates_witness :
  (reservation_manager_add_reservation hotel_name_refused sample_manager
     (sample_reservation 7 "U1" "Grand Hotel")).2 = None
  ∧ Pool.pool_get
      (reservations
         (reservation_manager_add_reservation hotel_name_refused sample_manager
            (sample_reservation 7 "U1" "Grand Hotel")).1.1) (0, 0)
    = Some (Some (reservation_invalidate
                    (sample_reservation 7 "U1" "Grand Hotel"))).
Proof.
  pose proof (string_copy_failure_invalidates hotel_name_refused sample_manager
    (sample_reservation 7 "U1" "Grand Hotel")
    (Pool.__pool_put_item true (reservations sample_manager)
       (sample_reservation 7 "U1" "Grand Hotel")).1
    (0, 0)
    (StringPool.string_pool_put true (strings sample_manager)
       (list_ascii_of_string "U1")).1
    (Some (0, 0))
    (StringPool.string_pool_put true (strings sample_manager)
       (list_ascii_of_string "U1")).1
    None
    (reservation_manager_add_reservation hotel_name_refused sample_manager
       (sample_reservation 7 "U1" "Grand Hotel")).1.1
    (reservation_manager_add_reservation hotel_name_refused sample_manager
       (sample_reservation 7 "U1" "Grand Hotel")).1.2
    (reservation_manager_add_reservation hotel_name_refused sample_manager
       (sample_reservation 7 "U1" "Grand Hotel")).2) as H.
  destruct H as (Hret & _ & _ & Hget & _).
  - unfold Pool.wf, sample_manager. simpl. repeat split; try lia.
    repeat constructor.
  - vm_compute. reflexivity.
  - vm_compute. reflexivity.
  - vm_compute. reflexivity.
  - right. reflexivity.
  - vm_compute. reflexivity.
  - split; [exact Hret | exact Hget].
Defined.

Lemma catalog_round_trip_witness :
  (add_all sample_later_requests sample_manager_1).2 = [Some (0, 1); None]
  ∧ reservation_manager_get_by_id
      (add_all sample_later_requests sample_manager_1).1 7 = Some (0, 1)
  ∧ reservation_manager_get_by_id
      (add_all sample_later_requests sample_manager_1).1
      (reservation_get_id (sample_reservation 42 "U1" "Ritz")) = Some (0, 0)
  ∧ ∃ e,
      Pool.pool_get
        (reservations (add_all sample_later_requests sample_manager_1).1)
        (0, 0) = Some (Some e)
      ∧ id e = 42%Z
      ∧ scalars e = scalars (sample_reservation 42 "U1" "Ritz")
      ∧ invalidated e = false
      ∧ str_read (strings (add_all sample_later_requests sample_manager_1).1)
          (user_id e) = list_ascii_of_string "U1"
      ∧ str_read (strings (add_all sample_later_requests sample_manager_1).1)
          (hotel_name e) = list_ascii_of_string "Ritz".
Proof.
  split; [by vm_compute|]. split; [by vm_compute|].
  destruct (catalog_round_trip all_granted sample_manager
              (sample_reservation 42 "U1" "Ritz") sample_manager_1 [] (0, 0))
    as (_ & _ & e & u & hn & _ & Hid & Hscalars & Hinvalidated & _ & _ & _
        & _ & Hlater).
  - unfold Pool.wf, sample_manager. simpl. repeat split; try lia.
    repeat constructor.
  - exact I.
  - vm_compute. reflexivity.
  - destruct (Hlater sample_later_requests) as (Hget & Hu & Hhn & Hlookup).
    split.
    + apply Hlookup. intros k h' (mallocs & r & Hreq & Hret & Hr).
      destruct k as [|[|k]]; simpl in Hreq, Hret; [| |done].
      * injection Hreq as <- <-. by vm_compute in Hr.
      * by vm_compute in Hret.
    + exists e. by split_and!.
Defined.

End ReservationManagerFacts.

(** ** Query dispatcher *)

Module QueryDispatcherFacts.

Import QueryDispatcher Samples.

Section Facts.
Context {database argument_data statistics FILE : Type}.

Abbreviation query_instance := (query_instance argument_data).
Abbreviation query_type := (query_type database argument_data statistics).
Abbreviation call := (call argument_data statistics FILE).
Abbreviation dispatcher_data :=
  (query_dispatcher_data_t database argument_data statistics FILE).

Implicit Types (db : database) (tl : gmap nat query_type)
  (outputs : list FILE) (l set acc : list query_instance)
  (sets : list (list query_instance)) (x y q : query_instance).

Lemma execute_all_imap db t (type : query_type) stats outputs i j set :
  execute_all db t type stats outputs i j set
  = imap (λ k, execute_call db t type stats outputs i (j + k)) set.
Proof.
  revert j. induction set as [|q set IH]; intros j; simpl; [done|].
  unfold query_type_get_execute_callback.
  destruct (execute type db stats q) as [written status] eqn:He.
  unfold execute_call at 1. rewrite He, Nat.add_0_r. simpl. f_equal.
  rewrite IH. apply imap_ext. intros k x _. simpl. f_equal. lia.
Qed.

(** The callback always returns [0]: no query halts the iteration. *)
Lemma callback_returns_0 (data : dispatcher_data) set :
  (__query_dispatcher_query_set_callback data set).2 = 0%Z.
Proof.
  unfold __query_dispatcher_query_set_callback.
  destruct set as [|first rest]; [done|].
  destruct (query_type_list_get_by_index _ _) as [type|]; [|done].
  unfold query_type_get_generate_statistics_callback.
  by destruct (generate_statistics type).
Qed.

(** The callback on a partition whose type is registered. *)
Lemma callback_registered (data : dispatcher_data) first more type :
  data_query_type_list data !! query_instance_get_type first = Some type →
  __query_dispatcher_query_set_callback data (first :: more)
  = (mk_dispatcher_data (data_database data) (data_query_type_list data)
       (data_outputs data) (data_i data + length (first :: more))
       (data_calls data
        ++ partition_calls (data_database data)
             (query_instance_get_type first) type (data_outputs data)
             (data_i data) (first :: more)),
     0%Z).
Proof.
  intros Hty. unfold __query_dispatcher_query_set_callback,
    query_type_list_get_by_index. rewrite Hty.
  unfold partition_calls, statistics_of,
    query_type_get_generate_statistics_callback,
    query_type_get_free_statistics_callback.
  by destruct (generate_statistics type); rewrite execute_all_imap.
Qed.

Lemma callback_unregistered (data : dispatcher_data) first more :
  data_query_type_list data !! query_instance_get_type first = None →
  __query_dispatcher_query_set_callback data (first :: more) = (data, 0%Z).
Proof.
  intros Hty. unfold __query_dispatcher_query_set_callback,
    query_type_list_get_by_index. by rewrite Hty.
Qed.

Lemma iter_sets_calls db tl outputs i calls sets :
  data_calls
    (iter_sets __query_dispatcher_query_set_callback
       (mk_dispatcher_data db tl outputs i calls) sets).1
  = calls ++ sets_calls db tl outputs i sets.
Proof.
  revert i calls. induction sets as [|set rest IH]; intros i calls;
    cbn [iter_sets sets_calls].
  { by rewrite app_nil_r. }
  destruct set as [|first more]; [apply IH|].
  destruct (tl !! query_instance_get_type first) as [type|] eqn:Hty.
  - rewrite (callback_registered _ _ _ type) by done.
    cbn [data_database data_query_type_list data_outputs data_i data_calls].
    rewrite decide_True by done. by rewrite IH, app_assoc.
  - rewrite callback_unregistered by done.
    rewrite decide_True by done. apply IH.
Qed.

Lemma dispatch_list_sets_calls db tl outputs l :
  query_dispatcher_dispatch_list db l tl outputs
  = sets_calls db tl outputs 0 (partitions l).
Proof.
  unfold query_dispatcher_dispatch_list, query_instance_list_iter_types.
  by rewrite iter_sets_calls.
Qed.

(** *** The partition of an instance list *)

Lemma insert_by_type_perm x l : insert_by_type x l ≡ₚ x :: l.
Proof.
  induction l as [|y l IH]; simpl; [done|].
  case_decide; [done|]. rewrite IH. apply Permutation_swap.
Qed.

Lemma foldl_insert_perm acc l :
  foldl (λ sorted x, insert_by_type x sorted) acc l ≡ₚ acc ++ l.
Proof.
  revert acc. induction l as [|x l IH]; intros acc; simpl.
  - by rewrite app_nil_r.
  - rewrite IH, insert_by_type_perm. simpl. apply Permutation_middle.
Qed.

Lemma sort_by_type_perm l : sort_by_type l ≡ₚ l.
Proof. unfold sort_by_type. by rewrite foldl_insert_perm. Qed.

Lemma insert_by_type_sorted x l :
  StronglySorted type_le l → StronglySorted type_le (insert_by_type x l).
Proof.
  induction 1 as [|y l Hl IH Hy]; simpl.
  - repeat constructor.
  - case_decide as Hlt.
    + constructor; [by constructor|].
      constructor; [unfold type_le; lia|].
      eapply Forall_impl; [exact Hy|]. unfold type_le. intros z ?. lia.
    + constructor; [done|]. rewrite insert_by_type_perm.
      constructor; [unfold type_le; lia|done].
Qed.

Lemma sort_by_type_sorted l : StronglySorted type_le (sort_by_type l).
Proof.
  unfold sort_by_type.
  assert (H : ∀ acc, StronglySorted type_le acc →
    StronglySorted type_le
      (foldl (λ sorted x, insert_by_type x sorted) acc l)).
  { induction l as [|x l IH]; intros acc Hacc; simpl; [done|].
    apply IH. by apply insert_by_type_sorted. }
  apply H. constructor.
Qed.

(** Instances of one type are left in their order. *)
Lemma sort_by_type_same t l :
  Forall (λ q, query_instance_get_type q = t) l → sort_by_type l = l.
Proof.
  unfold sort_by_type. intros Hl.
  assert (Hins : ∀ x acc, query_instance_get_type x = t →
    Forall (λ q, query_instance_get_type q = t) acc →
    insert_by_type x acc = acc ++ [x]).
  { intros x acc Hx. induction 1 as [|y acc Hy _ IH]; simpl; [done|].
    case_decide; [lia|]. by rewrite IH. }
  assert (H : ∀ acc, Forall (λ q, query_instance_get_type q = t) acc →
    foldl (λ sorted x, insert_by_type x sorted) acc l = acc ++ l).
  { induction Hl as [|x l Hx Hl IH]; intros acc Hacc; simpl.
    - by rewrite app_nil_r.
    - rewrite Hins by done. rewrite IH.
      + by rewrite <- app_assoc.
      + apply Forall_app. split; [done|by constructor]. }
  apply (H []). constructor.
Qed.

Lemma group_by_type_same t x l :
  Forall (λ q, query_instance_get_type q = t) (x :: l) →
  group_by_type (x :: l) = [x :: l].
Proof.
  revert x. induction l as [|y l IH]; intros x Hl; [done|].
  apply Forall_cons in Hl as [Hx Hl].
  change (group_by_type (x :: y :: l)) with
    (match group_by_type (y :: l) with
     | (y' :: set) :: sets =>
         if decide (query_instance_get_type x = query_instance_get_type y')
         then (x :: y' :: set) :: sets else [x] :: (y' :: set) :: sets
     | sets => [x] :: sets
     end).
  rewrite (IH y Hl). apply Forall_cons in Hl as [Hy _].
  rewrite decide_True by congruence. done.
Qed.

(** The partitions, put end to end, are the sorted list; each is
    uniform; and their types increase strictly when the list is
    sorted, so that no two partitions have one type. *)
Lemma group_by_type_spec l :
  concat (group_by_type l) = l
  ∧ Forall uniform (group_by_type l)
  ∧ (StronglySorted type_le l →
     StronglySorted lt (set_type <$> group_by_type l)).
Proof.
  induction l as [|x l (Hc & Hu & Hs)]; [by repeat constructor|].
  cbn [group_by_type].
  destruct (group_by_type l) as [|[|y set] sets] eqn:Hg.
  - simpl in Hc. subst l. split_and!; [done| |by repeat constructor].
    repeat constructor. done.
  - apply Forall_cons in Hu as [[Hne _] _]. done.
  - case_decide as Hxy.
    + split_and!.
      * simpl in *. by rewrite Hc.
      * apply Forall_cons in Hu as [[_ Hy] Hu]. constructor; [|done].
        split; [done|]. simpl in *. constructor; [done|].
        eapply Forall_impl; [exact Hy|]. intros z ?. congruence.
      * intros Hsorted. apply StronglySorted_inv in Hsorted as [Hl _].
        specialize (Hs Hl). simpl in *. by rewrite Hxy.
    + split_and!.
      * simpl in *. by rewrite Hc.
      * constructor; [|done]. split; [done|]. by repeat constructor.
      * intros Hsorted. apply StronglySorted_inv in Hsorted as [Hl Hx].
        specialize (Hs Hl). simpl in *. constructor; [done|].
        rewrite <- Hc in Hx. simpl in Hx.
        apply Forall_cons in Hx as [Hxy' _]. unfold type_le in Hxy'.
        apply StronglySorted_inv in Hs as [_ Hrest].
        constructor; [lia|].
        eapply Forall_impl; [exact Hrest|]. intros z ?. simpl in *. lia.
Qed.

Lemma partitions_same t x l :
  Forall (λ q, query_instance_get_type q = t) (x :: l) →
  partitions (x :: l) = [x :: l].
Proof.
  intros Hl. unfold partitions. rewrite (sort_by_type_same t) by done.
  by apply (group_by_type_same t).
Qed.

(** *** The instances executed *)

Lemma executed_outputs_app (calls1 calls2 : list call) :
  executed_outputs (calls1 ++ calls2)
  = executed_outputs calls1 ++ executed_outputs calls2.
Proof. apply omap_app. Qed.

Lemma executed_outputs_imap db t (type : query_type) stats outputs i j set :
  executed_outputs
    (imap (λ k, execute_call db t type stats outputs i (j + k)) set)
  = imap (λ k q, (q, outputs !! (i + (j + k)))) set.
Proof.
  revert j. induction set as [|q set IH]; intros j; [done|].
  rewrite !imap_cons. cbn [executed_outputs omap list_omap execute_call].
  f_equal. fold (executed_outputs (argument_data := argument_data)
                   (statistics := statistics) (FILE := FILE)).
  transitivity (imap (λ k q, (q, outputs !! (i + (S j + k)))) set).
  - rewrite <- IH. apply (f_equal executed_outputs).
    apply imap_ext. intros k x _. simpl. by rewrite Nat.add_succ_r.
  - apply imap_ext. intros k x _. simpl. do 2 f_equal. lia.
Qed.

Lemma executed_outputs_partition db t (type : query_type) outputs i set :
  executed_outputs (partition_calls db t type outputs i set)
  = imap (λ k q, (q, outputs !! (i + k))) set.
Proof.
  unfold partition_calls. rewrite !executed_outputs_app.
  rewrite (executed_outputs_imap db t type _ outputs i 0 set).
  destruct (generate_statistics type), (free_statistics type); simpl;
    by rewrite ?app_nil_r.
Qed.

Lemma executed_outputs_sets db tl outputs i sets :
  Forall (λ set, is_Some (tl !! set_type set)) sets →
  executed_outputs (sets_calls db tl outputs i sets)
  = imap (λ k q, (q, outputs !! (i + k))) (concat sets).
Proof.
  intros Hsets. revert i.
  induction Hsets as [|set sets [type Hty] _ IH]; intros i; [done|].
  cbn [sets_calls concat]. destruct set as [|first more]; [apply IH|].
  simpl in Hty. rewrite Hty, executed_outputs_app, imap_app.
  rewrite executed_outputs_partition, IH. f_equal.
  apply imap_ext. intros k x _. simpl. do 2 f_equal. lia.
Qed.

Lemma partitions_registered tl l :
  (∀ q, q ∈ l → is_Some (tl !! query_instance_get_type q)) →
  Forall (λ set, is_Some (tl !! set_type set)) (partitions l).
Proof.
  intros Hreg. unfold partitions.
  destruct (group_by_type_spec (sort_by_type l)) as (Hc & Hu & _).
  apply list.Forall_forall. intros set Hset.
  rewrite list.Forall_forall in Hu. destruct (Hu set Hset) as [Hne _].
  destruct set as [|first more]; [done|]. simpl. apply Hreg.
  rewrite <- (sort_by_type_perm l), <- Hc.
  apply list_elem_of_In, in_concat. exists (first :: more).
  split; [by apply list_elem_of_In | by left].
Qed.

(** C1, amended. Dispatching a list makes, for each partition of the
    list in turn, the calls of [partition_calls] (a partition whose type
    is not registered is skipped). The partitions are the instances of
    the list grouped by type: put end to end they are a permutation of
    the list, each is non-empty with instances of one type, and no two
    of them have the same type. For a partition of a type whose
    [generate_statistics] is not null, the calls are exactly: one call
    of [generate_statistics] on the whole partition, then one call of
    [execute] per instance of the partition, in order, each on the
    statistics just generated, and then, when [free_statistics] is not
    null, one call of [free_statistics] on these statistics. *)
Theorem dispatch_list_calls db tl outputs l :
  query_dispatcher_dispatch_list db l tl outputs
  = sets_calls db tl outputs 0 (partitions l)
  ∧ concat (partitions l) ≡ₚ l
  ∧ Forall uniform (partitions l)
  ∧ StronglySorted lt (set_type <$> partitions l)
  ∧ ∀ t (type : query_type) generate_stats i set,
      generate_statistics type = Some generate_stats →
      partition_calls db t type outputs i set
      = CallGenerateStatistics t set
        :: imap (execute_call db t type (generate_stats db set) outputs i) set
        ++ match free_statistics type with
           | Some _ => [CallFreeStatistics t (generate_stats db set)]
           | None => []
           end.
Proof.
  destruct (group_by_type_spec (sort_by_type l)) as (Hc & Hu & Hs).
  split_and!.
  - apply dispatch_list_sets_calls.
  - unfold partitions. rewrite Hc. apply sort_by_type_perm.
  - done.
  - apply Hs, sort_by_type_sorted.
  - intros t type g i set Hg. unfold partition_calls, statistics_of.
    by rewrite Hg.
Qed.

Lemma fst_imap_pair {B : Type} (f : nat → B) l :
  (imap (λ k q, (q, f k)) l).*1 = l.
Proof.
  revert f. induction l as [|q l IH]; intros f; [done|].
  rewrite imap_cons. cbn [fmap list_fmap fst]. f_equal. apply (IH (f ∘ S)).
Qed.

Lemma executed_instances_sets db tl outputs i sets :
  (executed_outputs (sets_calls db tl outputs i sets)).*1
  = concat (filter (λ set, is_Some (tl !! set_type set)) sets).
Proof.
  revert i. induction sets as [|set sets IH]; intros i; [done|].
  cbn [sets_calls]. rewrite filter_cons. destruct set as [|first more].
  { rewrite IH. by case_decide. }
  cbn [set_type].
  destruct (tl !! query_instance_get_type first) as [type|] eqn:Hty.
  - rewrite decide_True by done.
    rewrite executed_outputs_app, fmap_app, executed_outputs_partition.
    by rewrite fst_imap_pair, IH.
  - rewrite decide_False by (by intros [? ?]). apply IH.
Qed.

Lemma executed_calls_app (calls1 calls2 : list call) :
  executed_calls (calls1 ++ calls2)
  = executed_calls calls1 ++ executed_calls calls2.
Proof. apply filter_app. Qed.

Lemma executed_calls_imap db t (type : query_type) stats outputs i j set :
  executed_calls
    (imap (λ k, execute_call db t type stats outputs i (j + k)) set)
  = imap (λ k, execute_call db t type stats outputs i (j + k)) set.
Proof.
  revert j. induction set as [|q set IH]; intros j; [done|].
  rewrite !imap_cons. unfold executed_calls. rewrite filter_cons.
  unfold execute_call at 1. cbn [is_execute]. rewrite decide_True by done.
  f_equal. specialize (IH (S j)). unfold executed_calls in IH.
  etrans; [|etrans; [exact IH|]].
  - f_equal. apply imap_ext. intros k x _. simpl. by rewrite Nat.add_succ_r.
  - apply imap_ext. intros k x _. simpl. by rewrite Nat.add_succ_r.
Qed.

Lemma executed_calls_partition db t (type : query_type) outputs i set :
  executed_calls (partition_calls db t type outputs i set)
  = imap (execute_call db t type (statistics_of db type set) outputs i) set.
Proof.
  unfold partition_calls. rewrite !executed_calls_app.
  rewrite (executed_calls_imap db t type _ outputs i 0 set).
  destruct (generate_statistics type), (free_statistics type);
    unfold executed_calls; rewrite ?filter_cons, ?filter_nil; simpl;
    by rewrite ?app_nil_r.
Qed.

Lemma executed_calls_sets db tl outputs i sets :
  executed_calls (sets_calls db tl outputs i sets)
  = sets_executes db tl outputs i sets.
Proof.
  revert i. induction sets as [|set sets IH]; intros i; [done|].
  cbn [sets_calls sets_executes]. destruct set as [|first more]; [apply IH|].
  destruct (tl !! query_instance_get_type first) as [type|]; [|apply IH].
  by rewrite executed_calls_app, executed_calls_partition, IH.
Qed.

(** The [k]-th call of [execute] is made on the [k]-th instance of the
    partitions whose type is registered, with the statistics of its
    partition and its own output stream, and records what [execute]
    writes and returns on this instance. *)
Lemma sets_executes_lookup db tl outputs i sets k c :
  sets_executes db tl outputs i sets !! k = Some c →
  ∃ set (type : query_type) instance,
    set ∈ sets ∧ instance ∈ set
    ∧ tl !! set_type set = Some type
    ∧ concat (filter (λ set, is_Some (tl !! set_type set)) sets) !! k
      = Some instance
    ∧ c = CallExecute (set_type set) (statistics_of db type set) instance
            (outputs !! (i + k))
            (execute type db (statistics_of db type set) instance).1
            (execute type db (statistics_of db type set) instance).2.
Proof.
  revert i k. induction sets as [|set sets IH]; intros i k; [done|].
  cbn [sets_executes]. rewrite filter_cons.
  assert (Hrest : ∀ i' k',
    sets_executes db tl outputs i' sets !! k' = Some c →
    i' + k' = i + k →
    concat (filter (λ set, is_Some (tl !! set_type set)) sets) !! k'
    = concat (filter (λ set, is_Some (tl !! set_type set)) (set :: sets))
        !! k →
    ∃ set0 (type : query_type) instance,
      set0 ∈ set :: sets ∧ instance ∈ set0
      ∧ tl !! set_type set0 = Some type
      ∧ concat (filter (λ set, is_Some (tl !! set_type set)) (set :: sets))
          !! k = Some instance
      ∧ c = CallExecute (set_type set0) (statistics_of db type set0) instance
              (outputs !! (i + k))
              (execute type db (statistics_of db type set0) instance).1
              (execute type db (statistics_of db type set0) instance).2).
  { intros i' k' Hc Hik Hlookup.
    destruct (IH i' k' Hc) as (set0 & type & q & Hset & Hq & Hty & Hk & ->).
    exists set0, type, q. rewrite <- Hlookup, <- Hik.
    split_and!; try done. by right. }
  rewrite filter_cons in Hrest.
  destruct set as [|first more].
  { intros Hc. apply (Hrest i k Hc); [done|]. by case_decide. }
  cbn [set_type] in *.
  destruct (tl !! query_instance_get_type first) as [type|] eqn:Hty.
  2:{ intros Hc. apply (Hrest i k Hc); [done|].
      by rewrite decide_False by (by intros [? ?]). }
  rewrite decide_True in * by done. cbn [concat] in *.
  destruct (decide (k < length (first :: more))) as [Hlt|Hge].
  - rewrite lookup_app_l by (by rewrite length_imap).
    rewrite list_lookup_imap.
    destruct ((first :: more) !! k) as [q|] eqn:Hq; [|done].
    intros [= <-]. exists (first :: more), type, q.
    split_and!; [by left|by eapply list_elem_of_lookup_2|done| |done].
    by rewrite lookup_app_l.
  - rewrite lookup_app_r by (rewrite length_imap; lia).
    rewrite length_imap. intros Hc.
    apply (Hrest _ _ Hc); [lia|].
    by rewrite lookup_app_r by lia.
Qed.

(** C5. Whatever [execute] returns, the callback of the dispatcher
    returns [0], so the iteration over the partitions is never stopped;
    and [execute] is called once on every instance of every partition
    whose type is registered, in order, also after a call that returned
    non-zero. The [k]-th call of [execute] is made on the [k]-th of
    these instances with the statistics of its partition and the output
    stream at position [k], and what is written to that stream and
    returned is what [execute] writes and returns on that instance: a
    failing instance changes neither which instances are executed after
    it, nor the stream any other instance writes to, nor what any other
    instance writes. When the type of every instance of the list is
    registered, the instances are those of the list. *)
Theorem execute_failure_does_not_stop db tl outputs l :
  (∀ (data : dispatcher_data) set,
     (__query_dispatcher_query_set_callback data set).2 = 0%Z)
  ∧ executed_calls (query_dispatcher_dispatch_list db l tl outputs)
    = sets_executes db tl outputs 0 (partitions l)
  ∧ length (executed_calls (query_dispatcher_dispatch_list db l tl outputs))
    = length (concat (filter (λ set, is_Some (tl !! set_type set))
                        (partitions l)))
  ∧ (∀ k c,
       executed_calls (query_dispatcher_dispatch_list db l tl outputs) !! k
       = Some c →
       ∃ set (type : query_type) instance,
         set ∈ partitions l ∧ instance ∈ set
         ∧ tl !! set_type set = Some type
         ∧ concat (filter (λ set, is_Some (tl !! set_type set))
                     (partitions l)) !! k = Some instance
         ∧ c = CallExecute (set_type set) (statistics_of db type set)
                 instance (outputs !! k)
                 (execute type db (statistics_of db type set) instance).1
                 (execute type db (statistics_of db type set) instance).2)
  ∧ (executed_outputs (query_dispatcher_dispatch_list db l tl outputs)).*1
    = concat (filter (λ set, is_Some (tl !! set_type set)) (partitions l))
  ∧ ((∀ q, q ∈ l → is_Some (tl !! query_instance_get_type q)) →
     executed_outputs (query_dispatcher_dispatch_list db l tl outputs)
     = imap (λ k q, (q, outputs !! k)) (concat (partitions l)))
  ∧ concat (partitions l) ≡ₚ l.
Proof.
  assert (Hinstances :
    (executed_outputs (query_dispatcher_dispatch_list db l tl outputs)).*1
    = concat (filter (λ set, is_Some (tl !! set_type set)) (partitions l))).
  { rewrite dispatch_list_sets_calls. apply executed_instances_sets. }
  assert (Hlength : ∀ calls : list call,
    length (executed_calls calls) = length (executed_outputs calls)).
  { intros calls. induction calls as [|c calls IH]; [done|].
    unfold executed_calls, executed_outputs in *. rewrite filter_cons.
    destruct c; simpl; try done. by rewrite IH. }
  split_and!.
  - apply callback_returns_0.
  - rewrite dispatch_list_sets_calls. apply executed_calls_sets.
  - by rewrite Hlength, <- Hinstances, length_fmap.
  - intros k c. rewrite dispatch_list_sets_calls, executed_calls_sets.
    apply sets_executes_lookup.
  - done.
  - intros Hreg. rewrite dispatch_list_sets_calls.
    by rewrite executed_outputs_sets by by apply partitions_registered.
  - unfold partitions.
    destruct (group_by_type_spec (sort_by_type l)) as (-> & _).
    apply sort_by_type_perm.
Qed.

(** C10. Dispatching a single instance makes the calls of dispatching
    the list of that one instance with the array of that one output
    stream, with the same database and type list: none when the type of
    the instance is not registered, and otherwise the calls of one
    partition, made of this instance only. *)
Theorem dispatch_single_is_dispatch_list db (query_instance : query_instance)
    tl (output : FILE) :
  query_dispatcher_dispatch_single db query_instance tl output
  = query_dispatcher_dispatch_list db [query_instance] tl [output]
  ∧ query_dispatcher_dispatch_list db [query_instance] tl [output]
    = match tl !! query_instance_get_type query_instance with
      | Some type =>
          partition_calls db (query_instance_get_type query_instance) type
            [output] 0 [query_instance]
      | None => []
      end.
Proof.
  split; [done|]. rewrite dispatch_list_sets_calls.
  change (partitions [query_instance]) with [[query_instance]].
  cbn [sets_calls].
  destruct (tl !! query_instance_get_type query_instance); [|done].
  by rewrite app_nil_r.
Qed.

End Facts.

(** C1, as stated, fails: a query type may be registered with a
    [generate_statistics] callback and no [free_statistics] callback, and
    then the statistics generated for a partition are never freed. Here
    the two instances of type 7 make one partition, and the calls are one
    [generate_statistics] and two [execute], with no [free_statistics]. *)
Lemma free_statistics_not_called :
  generate_statistics (counting_type false) ≠ None
  ∧ query_dispatcher_dispatch_list tt
      [sample_instance 7 1; sample_instance 7 2] (sample_types false)
      sample_outputs
    = [CallGenerateStatistics 7 [sample_instance 7 1; sample_instance 7 2];
       CallExecute 7 (Some 2) (sample_instance 7 1)
         (Some "command1_output.txt"%string) [] 0%Z;
       CallExecute 7 (Some 2) (sample_instance 7 2)
         (Some "command2_output.txt"%string) [] 0%Z]
  ∧ filter (λ c, is_free_statistics 7 c = true)
      (query_dispatcher_dispatch_list tt
         [sample_instance 7 1; sample_instance 7 2] (sample_types false)
         sample_outputs) = [].
Proof.
  split_and!; [done | by vm_compute | by vm_compute].
Qed.

Lemma dispatch_list_calls_witness :
  query_dispatcher_dispatch_list tt sample_list (sample_types true)
    sample_outputs
  = sets_calls tt (sample_types true) sample_outputs 0 (partitions sample_list)
  ∧ partition_calls tt 7 (counting_type true) sample_outputs 1
      [sample_instance 7 0; sample_instance 7 3]
    = [CallGenerateStatistics 7 [sample_instance 7 0; sample_instance 7 3];
       CallExecute 7 (Some 2) (sample_instance 7 0)
         (Some "command2_output.txt"%string) [] 1%Z;
       CallExecute 7 (Some 2) (sample_instance 7 3)
         (Some "command3_output.txt"%string) [] 0%Z;
       CallFreeStatistics 7 (Some 2)].
Proof.
  destruct (dispatch_list_calls tt (sample_types true) sample_outputs
              sample_list) as (Hcalls & _ & _ & _ & Hpartition).
  split; [exact Hcalls|].
  exact (Hpartition 7 (counting_type true) _ 1
           [sample_instance 7 0; sample_instance 7 3] eq_refl).
Defined.

Lemma execute_failure_does_not_stop_witness :
  executed_calls
    (query_dispatcher_dispatch_list tt sample_list writing_types
       sample_outputs)
  = [CallExecute 1 (Some 1) (sample_instance 1 5)
       (Some "command1_output.txt"%string) ["5"%string] 0%Z;
     CallExecute 7 (Some 2) (sample_instance 7 0)
       (Some "command2_output.txt"%string) [] 1%Z;
     CallExecute 7 (Some 2) (sample_instance 7 3)
       (Some "command3_output.txt"%string) ["3"%string] 0%Z]
  ∧ executed_outputs
      (query_dispatcher_dispatch_list tt sample_list (sample_types true)
         sample_outputs)
    = [(sample_instance 1 5, Some "command1_output.txt"%string);
       (sample_instance 7 0, Some "command2_output.txt"%string);
       (sample_instance 7 3, Some "command3_output.txt"%string)].
Proof.
  split.
  - destruct (execute_failure_does_not_stop tt writing_types
                sample_outputs sample_list) as (_ & Hcalls & _).
    rewrite Hcalls. by vm_compute.
  - destruct (execute_failure_does_not_stop tt (sample_types true)
                sample_outputs sample_list)
      as (_ & _ & _ & _ & _ & Hexecuted & _).
    rewrite Hexecuted; [reflexivity|].
    intros q Hq. unfold sample_list in Hq.
    rewrite !elem_of_cons, elem_of_nil in Hq.
    destruct Hq as [-> | [-> | [-> | []]]]; vm_compute; eauto.
Defined.

End QueryDispatcherFacts.

(** ** Query 7 *)

Module Q07Facts.

Import Q07 Samples.

Lemma to_gint_uint64 d :
  (- 2 ^ 31 < d < 2 ^ 31)%Z → to_gint (to_uint64 d) = d.
Proof.
  intros Hd. unfold to_gint, to_uint64.
  assert (Hm : (d mod 2 ^ 64 = d ∨ d mod 2 ^ 64 = d + 2 ^ 64)%Z).
  { destruct (decide (0 ≤ d)%Z).
    - left. apply Z.mod_small. lia.
    - right. symmetry. apply (Z.mod_unique _ _ (-1)); lia. }
  destruct Hm as [-> | ->].
  - rewrite Z.mod_small; lia.
  - replace ((d + 2 ^ 64 + 2 ^ 31) mod 2 ^ 32)%Z with (d + 2 ^ 31)%Z; [lia|].
    apply (Z.mod_unique _ _ (2 ^ 32)); lia.
Qed.

Lemma to_uint64_0 d :
  (- 2 ^ 31 < d < 2 ^ 31)%Z → to_uint64 d = 0%Z → d = 0%Z.
Proof.
  intros Hd H0. rewrite <- (to_gint_uint64 d Hd), H0. done.
Qed.

Lemma strcmp_antisym a b : strcmp b a = (- strcmp a b)%Z.
Proof.
  revert b. induction a as [|x a IH]; intros [|y b]; simpl; try lia.
  destruct (decide (y = x)) as [->|Hne].
  - rewrite decide_True by done. apply IH.
  - rewrite decide_False by congruence. lia.
Qed.

Section Ranking.
Variable airport_code_sprintf : Z → list ascii.

Let compare_func :=
  __q07_generate_statistics_airport_median_compare_func airport_code_sprintf.

(** For two medians that are close, the comparison function decides the
    order the specification asks for. *)
Lemma compare_close a b :
  (- 2 ^ 31 < median b - median a < 2 ^ 31)%Z →
  ((compare_func a b < 0)%Z → ranked_before airport_code_sprintf a b)
  ∧ (¬ (compare_func a b < 0)%Z → ranked_before airport_code_sprintf b a).
Proof.
  intros Hd. unfold compare_func,
    __q07_generate_statistics_airport_median_compare_func, ranked_before.
  case_decide as Hc.
  - rewrite to_gint_uint64 by done. split; intros ?; left; [lia|].
    assert (median b - median a ≠ 0)%Z by (intros Hz; by rewrite Hz in Hc).
    lia.
  - assert (median b - median a = 0)%Z.
    { by apply to_uint64_0. }
    rewrite (strcmp_antisym (airport_code_sprintf (airport_code a))).
    split; intros ?; right; split; lia.
Qed.

Lemma insert_sorted_perm x l : insert_sorted compare_func x l ≡ₚ x :: l.
Proof.
  induction l as [|y l IH]; simpl; [done|].
  case_decide; [done|]. rewrite IH. apply Permutation_swap.
Qed.

Lemma insert_sorted_ranked x l :
  close (x :: l) →
  ranked airport_code_sprintf l →
  ranked airport_code_sprintf (insert_sorted compare_func x l).
Proof.
  intros Hclose. induction l as [|y l IH]; intros Hr; [done|].
  assert (Hxy : (- 2 ^ 31 < median y - median x < 2 ^ 31)%Z).
  { apply Hclose; [left | right; left]. }
  destruct (compare_close x y Hxy) as [Hlt Hge].
  cbn [insert_sorted]. case_decide as Hc.
  - split; [by apply Hlt|done].
  - assert (Hl : ranked airport_code_sprintf l).
    { destruct l; [done|]. by destruct Hr. }
    assert (Hins : ranked airport_code_sprintf
              (insert_sorted compare_func x l)).
    { apply IH; [|done]. intros a b Ha Hb. apply Hclose.
      - apply elem_of_cons in Ha as [->|Ha]; [left | do 2 right; done].
      - apply elem_of_cons in Hb as [->|Hb]; [left | do 2 right; done]. }
    destruct l as [|z l]; [by split; [apply Hge|]|].
    revert Hins. cbn [insert_sorted]. case_decide; intros Hins.
    + split; [by apply Hge|done].
    + split; [by destruct Hr|done].
Qed.

(** When the medians are close, [g_array_sort] with the comparison
    function of query 7 leaves the array in the order the specification
    asks for. *)
Lemma g_array_sort_ranked l :
  close l → ranked airport_code_sprintf (g_array_sort compare_func l).
Proof.
  unfold g_array_sort.
  assert (H : ∀ acc, close (acc ++ l) → ranked airport_code_sprintf acc →
    ranked airport_code_sprintf
      (foldl (λ sorted x, insert_sorted compare_func x sorted) acc l)).
  { induction l as [|x l IH]; intros acc Hclose Hacc; [done|].
    simpl. apply IH.
    - intros a b Ha Hb. apply Hclose.
      + rewrite elem_of_app, insert_sorted_perm in Ha.
        rewrite elem_of_app, !elem_of_cons in *. tauto.
      + rewrite elem_of_app, insert_sorted_perm in Hb.
        rewrite elem_of_app, !elem_of_cons in *. tauto.
    - apply insert_sorted_ranked; [|done]. intros a b Ha Hb. apply Hclose.
      + rewrite elem_of_app, !elem_of_cons in *. tauto.
      + rewrite elem_of_app, !elem_of_cons in *. tauto. }
  intros Hclose. apply (H []); [done|done].
Qed.

(** C4 does not hold of the code: the comparison function narrows the
    [uint64_t] difference of two medians to a [gint], so a difference of
    [2^31] seconds or more changes sign. With one flight that leaves LIS
    on time and one that leaves OPO seventy years late, the statistics
    array puts the airport with median [0] before the airport with median
    [2249856000], which is not the descending order. *)
Theorem ranking_fails_on_large_delay :
  __q07_generate_statistics airport_code_sprintf late_flights
  = [mk_airport_median LIS 0; mk_airport_median OPO 2249856000]
  ∧ compare_func (mk_airport_median LIS 0) (mk_airport_median OPO 2249856000)
    = (-2045111296)%Z
  ∧ ¬ ranked airport_code_sprintf
        (__q07_generate_statistics airport_code_sprintf late_flights).
Proof.
  assert (Hstats :
    __q07_generate_statistics airport_code_sprintf late_flights
    = [mk_airport_median LIS 0; mk_airport_median OPO 2249856000])
    by by vm_compute.
  split_and!; [done | by vm_compute |].
  rewrite Hstats. intros [[Hlt | [Heq _]] _]; simpl in *; lia.
Qed.

End Ranking.

End Q07Facts.

(** ** Dates *)

Module DateFacts.

Import Date.

(** [date_from_values] fails exactly when a value is outside its range;
    when it succeeds, the getters give back the three values and the
    date is valid. *)
Lemma date_from_values_round_trip y m d :
  (date_from_values y m d = None ↔
     ¬ (1 ≤ y ≤ 9999 ∧ 1 ≤ m ≤ 12 ∧ 1 ≤ d ≤ 31)%Z)
  ∧ ∀ date, date_from_values y m d = Some date →
      date_get_year date = y ∧ date_get_month date = m
      ∧ date_get_day date = d ∧ valid date.
Proof.
  unfold date_from_values, valid, DATE_YEAR_MIN, DATE_YEAR_MAX,
    DATE_MONTH_MIN, DATE_MONTH_MAX, DATE_DAY_MIN, DATE_DAY_MAX.
  case_decide as H; split.
  - split; [lia|done].
  - done.
  - split; [done|lia].
  - intros date [= <-]. simpl. lia.
Qed.

(** A setter given a value outside the range of its field returns [1]
    and leaves the date as it was; given a value inside it returns [0]
    and changes that field only. A valid date stays valid either way. *)
Lemma setters_keep_dates_valid date v :
  let in_range lo hi := (lo ≤ v ≤ hi)%Z in
  (date_set_year date v
   = if decide (in_range 1%Z 9999%Z)
     then (mk_date v (month date) (day date), 0%Z) else (date, 1%Z))
  ∧ (date_set_month date v
     = if decide (in_range 1%Z 12%Z)
       then (mk_date (year date) v (day date), 0%Z) else (date, 1%Z))
  ∧ (date_set_day date v
     = if decide (in_range 1%Z 31%Z)
       then (mk_date (year date) (month date) v, 0%Z) else (date, 1%Z))
  ∧ (valid date →
     valid (date_set_year date v).1 ∧ valid (date_set_month date v).1
     ∧ valid (date_set_day date v).1).
Proof.
  unfold date_set_year, date_set_month, date_set_day, valid, DATE_YEAR_MIN,
    DATE_YEAR_MAX, DATE_MONTH_MIN, DATE_MONTH_MAX, DATE_DAY_MIN, DATE_DAY_MAX.
  simpl. repeat case_decide; try lia; split_and!; try done;
    intros; simpl; lia.
Qed.

(** X1. On valid dates [date_diff] decides the chronological order: it
    is negative exactly when the first date is before the second, zero
    exactly when the dates are equal, and swapping the dates negates
    it. *)
Theorem date_diff_order a b :
  valid a → valid b →
  ((date_diff a b < 0)%Z ↔ before a b)
  ∧ (date_diff a b = 0%Z ↔ a = b)
  ∧ date_diff a b = (- date_diff b a)%Z.
Proof.
  unfold valid, before, date_diff, DATE_YEAR_MIN, DATE_YEAR_MAX,
    DATE_MONTH_MIN, DATE_MONTH_MAX, DATE_DAY_MIN, DATE_DAY_MAX.
  destruct a as [ya ma da], b as [yb mb db]. simpl. intros Ha Hb.
  split_and!; [lia | | lia].
  split; [|intros [= -> -> ->]; lia].
  intros H. assert (ya = yb ∧ ma = mb ∧ da = db) as (-> & -> & ->) by lia.
  done.
Qed.

Lemma date_diff_order_witness :
  ((date_diff (mk_date 2023 12 31) (mk_date 2024 1 1) < 0)%Z
   ↔ before (mk_date 2023 12 31) (mk_date 2024 1 1))
  ∧ (date_diff (mk_date 2023 12 31) (mk_date 2024 1 1) = 0%Z
     ↔ mk_date 2023 12 31 = mk_date 2024 1 1)
  ∧ date_diff (mk_date 2023 12 31) (mk_date 2024 1 1)
    = (- date_diff (mk_date 2024 1 1) (mk_date 2023 12 31))%Z.
Proof.
  apply (date_diff_order (mk_date 2023 12 31) (mk_date 2024 1 1));
    unfold valid, DATE_YEAR_MIN, DATE_YEAR_MAX, DATE_MONTH_MIN,
      DATE_MONTH_MAX, DATE_DAY_MIN, DATE_DAY_MAX; simpl; lia.
Defined.

Section ParseFieldFacts.
Variable int_utils_parse_positive : list ascii → Z * Z.

Let parse_field :=
  __date_from_string_parse_field int_utils_parse_positive.

(** What one field parser accepts: a token of the length of its field
    that parses to a number in the range of its field. *)
Lemma parse_field_accepts date token ntoken date' :
  ntoken < 3 →
  parse_field date token ntoken = (date', 0%Z) →
  length (StringPool.c_str token) = [4; 2; 2] !!! ntoken
  ∧ (int_utils_parse_positive token).1 = 0%Z
  ∧ ([1; 1; 1] !!! ntoken ≤ (int_utils_parse_positive token).2
     ≤ [9999; 12; 31] !!! ntoken)%Z
  ∧ date' = match ntoken with
            | 0 => mk_date (int_utils_parse_positive token).2
                     (month date) (day date)
            | 1 => mk_date (year date)
                     (int_utils_parse_positive token).2 (day date)
            | _ => mk_date (year date) (month date)
                     (int_utils_parse_positive token).2
            end.
Proof.
  intros Hn. unfold parse_field, __date_from_string_parse_field,
    DATE_YEAR_MIN, DATE_YEAR_MAX, DATE_MONTH_MIN, DATE_MONTH_MAX,
    DATE_DAY_MIN, DATE_DAY_MAX.
  destruct (int_utils_parse_positive token) as [ret parsed]. simpl.
  case_decide as Hlen; [done|]. case_decide as Hret; [done|].
  case_decide as Hb; [done|].
  destruct ntoken as [|[|[|?]]]; [| | |lia]; intros [= <-];
    simpl in *; split_and!; try done; lia.
Qed.

(** X2. A field parser that fails returns [1] and leaves the date being
    filled in as it was. When the three field parsers succeed in turn on
    a year, a month and a day token, the tokens have 4, 2 and 2
    characters and the date built is the valid date
    [date_from_values] makes of the three numbers parsed. *)
Theorem parse_fields_build_valid_date d0 d1 d2 d3 year_token month_token
    day_token :
  (∀ date token ntoken date' retval,
     parse_field date token ntoken = (date', retval) → retval ≠ 0%Z →
     retval = 1%Z ∧ date' = date)
  ∧ (parse_field d0 year_token 0 = (d1, 0%Z) →
     parse_field d1 month_token 1 = (d2, 0%Z) →
     parse_field d2 day_token 2 = (d3, 0%Z) →
     length (StringPool.c_str year_token) = 4
     ∧ length (StringPool.c_str month_token) = 2
     ∧ length (StringPool.c_str day_token) = 2
     ∧ valid d3
     ∧ date_from_values (int_utils_parse_positive year_token).2
         (int_utils_parse_positive month_token).2
         (int_utils_parse_positive day_token).2 = Some d3).
Proof.
  split.
  - intros date token ntoken date' retval.
    unfold parse_field, __date_from_string_parse_field.
    destruct (int_utils_parse_positive token) as [ret parsed].
    repeat case_decide; try (by intros [= <- <-]).
    destruct ntoken as [|[|[|?]]]; by intros [= <- <-].
  - intros H0 H1 H2.
    apply parse_field_accepts in H0 as (L0 & _ & B0 & ->); [|lia].
    apply parse_field_accepts in H1 as (L1 & _ & B1 & ->); [|lia].
    apply parse_field_accepts in H2 as (L2 & _ & B2 & ->); [|lia].
    simpl in *. split_and!; try done.
    unfold date_from_values, DATE_YEAR_MIN, DATE_YEAR_MAX, DATE_MONTH_MIN,
      DATE_MONTH_MAX, DATE_DAY_MIN, DATE_DAY_MAX.
    case_decide; [lia|done].
Qed.

End ParseFieldFacts.

Lemma parse_fields_build_valid_date_witness :
  valid (mk_date 2023 10 1)
  ∧ date_from_values
      (sample_parse_positive (list_ascii_of_string "2023")).2
      (sample_parse_positive (list_ascii_of_string "10")).2
      (sample_parse_positive (list_ascii_of_string "01")).2
    = Some (mk_date 2023 10 1).
Proof.
  destruct (parse_fields_build_valid_date sample_parse_positive
              (mk_date 0 0 0) (mk_date 2023 0 0) (mk_date 2023 10 0)
              (mk_date 2023 10 1) (list_ascii_of_string "2023")
              (list_ascii_of_string "10") (list_ascii_of_string "01"))
    as [_ Hbuilt].
  destruct Hbuilt as (_ & _ & _ & Hvalid & Hdate);
    [by vm_compute | by vm_compute | by vm_compute |].
  split; [exact Hvalid | exact Hdate].
Defined.

End DateFacts.

(** ** Sex of a user *)

Module SexFacts.

Import StringPool Sex.

Lemma nat_of_ascii_0 c : nat_of_ascii c = 0 → c = NUL.
Proof.
  intros H. rewrite <- (ascii_nat_embedding c), H. done.
Qed.

(** [strcmp] on two C strings is zero exactly when they are equal. *)
Lemma strcmp_0 a b : NUL ∉ a → NUL ∉ b → Q07.strcmp a b = 0%Z ↔ a = b.
Proof.
  revert b. induction a as [|x a IH]; intros [|y b] Ha Hb; simpl.
  - done.
  - apply not_elem_of_cons in Hb as [Hy _]. split; [|done].
    intros H. destruct Hy. symmetry. apply nat_of_ascii_0. lia.
  - apply not_elem_of_cons in Ha as [Hx _]. split; [|done].
    intros H. destruct Hx. symmetry. apply nat_of_ascii_0. lia.
  - apply not_elem_of_cons in Ha as [_ Ha].
    apply not_elem_of_cons in Hb as [_ Hb].
    case_decide as Hxy.
    + subst y. rewrite IH by done. split; congruence.
    + split; [|congruence]. intros H. destruct Hxy.
      rewrite <- (ascii_nat_embedding x), <- (ascii_nat_embedding y).
      f_equal. lia.
Qed.

Lemma c_strcmp_0 a b : c_strcmp a b = 0%Z ↔ c_str a = c_str b.
Proof.
  unfold c_strcmp. apply strcmp_0; apply StringPoolFacts.c_str_no_NUL.
Qed.

(** X3. [sex_from_string] accepts a string exactly when it is what
    [sex_sprintf] prints for some sex, and then returns that sex: parsing
    what was printed gives the sex back, and printing what was parsed
    gives the string back. Every other string, the empty one and
    lower-case letters included, is refused. *)
Theorem sex_round_trip input sex :
  sex_from_string (sex_sprintf sex) = Some sex
  ∧ (sex_from_string input = Some sex
     ↔ c_str input = c_str (sex_sprintf sex))
  ∧ (sex_from_string input = None
     ↔ c_str input ≠ ["M"%char] ∧ c_str input ≠ ["F"%char]).
Proof.
  assert (Hspec : ∀ i,
    sex_from_string i
    = if decide (c_str i = ["M"%char]) then Some SEX_M
      else if decide (c_str i = ["F"%char]) then Some SEX_F else None).
  { intros i. unfold sex_from_string.
    destruct (decide (c_strcmp i M_literal = 0%Z)) as [HM|HM];
      rewrite c_strcmp_0 in HM; change (c_str M_literal) with ["M"%char] in HM.
    { by rewrite decide_True. }
    rewrite (decide_False (P := c_str i = ["M"%char])) by done.
    destruct (decide (c_strcmp i F_literal = 0%Z)) as [HF|HF];
      rewrite c_strcmp_0 in HF; change (c_str F_literal) with ["F"%char] in HF.
    { by rewrite decide_True. }
    by rewrite decide_False. }
  split_and!.
  - by destruct sex.
  - rewrite Hspec. destruct sex; simpl; repeat case_decide;
      split; try done; try congruence.
  - rewrite Hspec. repeat case_decide; split; try done; tauto.
Qed.

End SexFacts.

(** ** Tokenizing strings and streams *)

Module TokenizeFacts.

Import StringPool Tokenize.

Lemma strsep_split delimiter s :
  split delimiter s
  = (strsep delimiter s).1
    :: match (strsep delimiter s).2 with
       | Some rest => split delimiter rest
       | None => []
       end.
Proof.
  induction s as [|c s IH]; simpl; [done|].
  case_decide; [done|]. rewrite IH.
  by destruct (strsep delimiter s) as [token [rest|]].
Qed.

Lemma strsep_shorter delimiter s rest :
  (strsep delimiter s).2 = Some rest → length rest < length s.
Proof.
  revert rest. induction s as [|c s IH]; intros rest; simpl; [done|].
  case_decide.
  - intros [= <-]. lia.
  - destruct (strsep delimiter s) as [token remaining] eqn:Hs. simpl in *.
    intros Hr. apply IH in Hr. lia.
Qed.

Lemma split_not_nil delimiter s : split delimiter s ≠ [].
Proof. rewrite strsep_split. done. Qed.

(** Putting the pieces together again gives the string back. *)
Lemma join_split delimiter s : join delimiter (split delimiter s) = s.
Proof.
  induction s as [|c s IH]; simpl; [done|].
  case_decide as Hc.
  - subst c. pose proof (split_not_nil delimiter s).
    destruct (split delimiter s) as [|t ts] eqn:Hsp; [done|].
    simpl. by rewrite <- IH.
  - destruct (split delimiter s) as [|t ts] eqn:Hsp.
    + by destruct (split_not_nil delimiter s).
    + destruct ts; simpl in *; by rewrite <- IH.
Qed.

(** There is one piece more than there are delimiters. *)
Lemma length_split delimiter s :
  length (split delimiter s)
  = Datatypes.S (length (filter (λ c, c = delimiter) s)).
Proof.
  induction s as [|c s IH]; simpl; [done|].
  rewrite filter_cons. case_decide.
  - simpl. by rewrite IH.
  - destruct (split delimiter s) as [|t ts] eqn:Hsp; simpl in *; lia.
Qed.

(** No piece holds a delimiter. *)
Lemma split_no_delimiter delimiter s token :
  token ∈ split delimiter s → delimiter ∉ token.
Proof.
  revert token. induction s as [|c s IH]; intros token; simpl.
  - intros ->%list_elem_of_singleton. apply not_elem_of_nil.
  - case_decide as Hc.
    + intros [->|H]%elem_of_cons; [apply not_elem_of_nil | by apply IH].
    + destruct (split delimiter s) as [|t ts] eqn:Hsp.
      * intros ->%list_elem_of_singleton.
        apply not_elem_of_cons. split; [done|apply not_elem_of_nil].
      * intros [->|H]%elem_of_cons.
        -- apply not_elem_of_cons. split; [done|]. apply IH. by left.
        -- apply IH. by right.
Qed.

Section StringTokenizeFacts.
Context {S : Type}.
Implicit Types (callback : tokenize_iter_callback_t S) (user_data : S).

Lemma string_tokenize_loop_split rounds s delimiter callback user_data :
  length s < rounds →
  string_tokenize_loop rounds (Some s) delimiter callback user_data
  = iter_tokens callback user_data (split delimiter s).
Proof.
  revert s user_data.
  induction rounds as [|rounds IH]; intros s user_data Hr; [lia|].
  rewrite strsep_split. cbn [string_tokenize_loop iter_tokens].
  pose proof (strsep_shorter delimiter s) as Hshort.
  destruct (strsep delimiter s) as [token [rest|]]; simpl in *;
    destruct (callback user_data token) as [user_data' cb_result];
    case_decide; try done.
  - apply IH. specialize (Hshort rest eq_refl). lia.
  - by destruct rounds.
Qed.

(** [string_tokenize] is the callback run over the pieces of the C
    string between its delimiters, until it returns non-zero. *)
Lemma string_tokenize_split input delimiter callback user_data :
  string_tokenize input delimiter callback user_data
  = iter_tokens callback user_data (split delimiter (c_str input)).
Proof.
  unfold string_tokenize. apply string_tokenize_loop_split. lia.
Qed.
End StringTokenizeFacts.

(** What an instrumented callback has recorded after a run over some
    tokens: the tokens up to the first on which the callback returned
    non-zero, that one included. *)
Lemma iter_tokens_traced {S : Type} (callback : tokenize_iter_callback_t S)
    user_data seen tokens :
  ∃ called rest,
    tokens = called ++ rest
    ∧ (iter_tokens (traced callback) (user_data, seen) tokens).1.2
      = seen ++ called
    ∧ (iter_tokens (traced callback) (user_data, seen) tokens).1.1
      = (iter_tokens callback user_data tokens).1
    ∧ (iter_tokens (traced callback) (user_data, seen) tokens).2
      = (iter_tokens callback user_data tokens).2
    ∧ ((iter_tokens callback user_data tokens).2 = 0%Z → rest = [])
    ∧ ((iter_tokens callback user_data tokens).2 ≠ 0%Z → called ≠ []).
Proof.
  revert user_data seen.
  induction tokens as [|token tokens IH]; intros user_data seen.
  { exists [], []. simpl. by rewrite app_nil_r. }
  cbn [iter_tokens]. unfold traced at 1 3 5. simpl.
  destruct (callback user_data token) as [user_data' cb_result] eqn:Hcb.
  case_decide as Hres.
  - exists [token], tokens. simpl. split_and!; done.
  - destruct (IH user_data' (seen ++ [token]))
      as (called & rest & -> & Hseen & Hst & Hret & H0 & Hn0).
    exists (token :: called), rest. rewrite Hseen, Hst, Hret.
    rewrite <- app_assoc. split_and!; done.
Qed.

(** X4. When the callback never returns non-zero, [string_tokenize]
    returns [0] after calling it on every piece of the string between
    delimiters, empty pieces included, in order: the tokens seen, put
    together with the delimiter between them, are the string; there is
    one token more than the string has delimiters, so the empty string
    gives one empty token; and no token holds the delimiter. *)
Theorem string_tokenize_round_trip {S : Type}
    (callback : tokenize_iter_callback_t S) user_data input delimiter :
  (∀ u token, (callback u token).2 = 0%Z) →
  let result :=
    string_tokenize input delimiter (traced callback) (user_data, []) in
  result.2 = 0%Z
  ∧ join delimiter result.1.2 = c_str input
  ∧ length result.1.2
    = Datatypes.S (length (filter (λ c, c = delimiter) (c_str input)))
  ∧ Forall (λ token, delimiter ∉ token) result.1.2.
Proof.
  intros Hcb result. unfold result. rewrite string_tokenize_split.
  assert (Hzero : ∀ u tokens, (iter_tokens callback u tokens).2 = 0%Z).
  { intros u tokens. revert u. induction tokens as [|t ts IH]; intros u;
      [done|]. simpl. specialize (Hcb u t).
    destruct (callback u t) as [u' r]. simpl in Hcb. subst r.
    case_decide; [done|apply IH]. }
  destruct (iter_tokens_traced callback user_data []
              (split delimiter (c_str input)))
    as (called & rest & Hsplit & Hseen & _ & Hret & H0 & _).
  rewrite Hseen, Hret, Hzero. rewrite (H0 (Hzero _ _)), app_nil_r in Hsplit.
  simpl. rewrite <- Hsplit. split_and!.
  - done.
  - apply join_split.
  - apply length_split.
  - apply list.Forall_forall. intros token. apply split_no_delimiter.
Qed.

(** What a run over some tokens leaves in the log of an instrumented
    callback: calls on the tokens in order, each with the value the
    callback returns on the user data the calls before it left; every
    call but the last returned [0]; the run returns the value of the
    last call when that is not [0], and otherwise [0] after a call on
    every token. *)
Lemma iter_tokens_logged {S : Type} (callback : tokenize_iter_callback_t S)
    user_data log tokens :
  ∃ calls rest,
    (iter_tokens (logged callback) (user_data, log) tokens).1.2
      = log ++ calls
    ∧ tokens = calls.*1 ++ rest
    ∧ ((iter_tokens (logged callback) (user_data, log) tokens).1.1,
       (iter_tokens (logged callback) (user_data, log) tokens).2)
      = iter_tokens callback user_data tokens
    ∧ (∀ before token cb_result after,
         calls = before ++ (token, cb_result) :: after →
         cb_result
         = (callback (iter_tokens callback user_data before.*1).1 token).2)
    ∧ ((iter_tokens callback user_data tokens).2 = 0%Z →
       rest = [] ∧ Forall (λ call, call.2 = 0%Z) calls)
    ∧ ((iter_tokens callback user_data tokens).2 ≠ 0%Z →
       ∃ before token,
         calls = before ++ [(token, (iter_tokens callback user_data tokens).2)]
         ∧ Forall (λ call, call.2 = 0%Z) before).
Proof.
  revert user_data log.
  induction tokens as [|token tokens IH]; intros user_data log.
  { exists [], []. simpl. rewrite app_nil_r. split_and!; try done.
    intros before t r after Hnil. by destruct before. }
  cbn [iter_tokens]. unfold logged at 1 3 5. simpl.
  destruct (callback user_data token) as [user_data' cb_result] eqn:Hcb.
  case_decide as Hres.
  - exists [(token, cb_result)], tokens. simpl. split_and!; try done.
    + intros [|b before] t r after; simpl.
      * intros [= <- <- _]. by rewrite Hcb.
      * intros [= _ Hnil]. by destruct before.
    + intros _. by exists [], token.
  - destruct (IH user_data' (log ++ [(token, cb_result)]))
      as (calls & rest & Hlog & -> & Hrun & Hvalues & H0 & Hn0).
    exists ((token, cb_result) :: calls), rest.
    rewrite Hlog, <- app_assoc. split_and!; try done.
    + intros [|b before] t r after; simpl.
      * intros [= <- <- _]. by rewrite Hcb.
      * intros [= <- ->]. simpl. rewrite Hcb.
        case_decide; [done|]. by eapply Hvalues.
    + intros Hz. destruct (H0 Hz) as [-> Hall]. split; [done|].
      constructor; [|done]. simpl.
      destruct (decide (cb_result = 0%Z)); [done|]. by destruct Hres.
    + intros Hnz. destruct (Hn0 Hnz) as (before & t & Hcalls & Hall).
      exists ((token, cb_result) :: before), t.
      split; [simpl; f_equal; exact Hcalls|].
      constructor; [|done]. simpl.
      destruct (decide (cb_result = 0%Z)); [done|]. by destruct Hres.
Qed.

(** X5. Whatever the callback does, [string_tokenize] is the callback
    run over the pieces of the string, in order, up to the first call
    that returns non-zero. The calls made are on a prefix of the
    pieces, each on the user data the calls before it left; every call
    but the last returned [0]; when [0] is returned every piece was
    handed over and every call returned [0]; when another value is
    returned it is the value the last call returned, and no piece after
    that one was handed over. [string_const_tokenize] does the same when
    its copy of the string can be allocated, and otherwise returns
    [STRING_CONST_TOKENIZE_FAILED_MALLOC] without calling the callback or
    touching the user data. *)
Theorem string_tokenize_stops_at_failure {S : Type}
    (callback : tokenize_iter_callback_t S) user_data input delimiter :
  let pieces := split delimiter (c_str input) in
  let returned := string_tokenize input delimiter callback user_data in
  let result :=
    string_tokenize input delimiter (logged callback) (user_data, []) in
  returned = iter_tokens callback user_data pieces
  ∧ (result.1.1, result.2) = returned
  ∧ (∃ rest,
       pieces = result.1.2.*1 ++ rest
       ∧ (∀ before token cb_result after,
            result.1.2 = before ++ (token, cb_result) :: after →
            cb_result
            = (callback (iter_tokens callback user_data before.*1).1
                 token).2)
       ∧ (returned.2 = 0%Z →
          rest = [] ∧ Forall (λ call, call.2 = 0%Z) result.1.2)
       ∧ (returned.2 ≠ 0%Z →
          ∃ before token,
            result.1.2 = before ++ [(token, returned.2)]
            ∧ Forall (λ call, call.2 = 0%Z) before))
  ∧ string_const_tokenize true input delimiter callback user_data = returned
  ∧ string_const_tokenize false input delimiter (logged callback)
      (user_data, [])
    = ((user_data, []), (-1)%Z).
Proof.
  intros pieces returned result. unfold returned, result.
  rewrite !string_tokenize_split. fold pieces.
  destruct (iter_tokens_logged callback user_data [] pieces)
    as (calls & rest & Hlog & Hpieces & Hrun & Hvalues & H0 & Hn0).
  simpl in Hlog. rewrite Hlog. split_and!; try done.
  - exists rest. done.
  - apply string_tokenize_split.
Qed.

Lemma string_tokenize_round_trip_witness :
  (string_tokenize (list_ascii_of_string "Split by  spaces") " "%char
     (traced (λ (count : nat) _, (Datatypes.S count, 0%Z))) (0, [])).2
  = 0%Z
  ∧ join " "%char
      (string_tokenize (list_ascii_of_string "Split by  spaces") " "%char
         (traced (λ (count : nat) _, (Datatypes.S count, 0%Z))) (0, [])).1.2
    = list_ascii_of_string "Split by  spaces"
  ∧ length
      (string_tokenize (list_ascii_of_string "Split by  spaces") " "%char
         (traced (λ (count : nat) _, (Datatypes.S count, 0%Z))) (0, [])).1.2
    = 4.
Proof.
  destruct (string_tokenize_round_trip
    (λ (count : nat) _, (Datatypes.S count, 0%Z)) 0
    (list_ascii_of_string "Split by  spaces") " "%char
    (λ _ _, eq_refl)) as (Hret & Hjoin & Hlength & _).
  split_and!; [exact Hret | exact Hjoin | exact Hlength].
Defined.

Lemma string_tokenize_stops_at_failure_witness :
  string_tokenize (list_ascii_of_string "a,b,,c") ","%char
    (logged (λ (count : nat) token,
               (Datatypes.S count, if decide (token = []) then 7%Z else 0%Z)))
    (0, [])
  = ((3, [(list_ascii_of_string "a", 0%Z); (list_ascii_of_string "b", 0%Z);
          ([], 7%Z)]),
     7%Z)
  ∧ string_tokenize (list_ascii_of_string "a,b,,c") ","%char
      (λ (count : nat) token,
         (Datatypes.S count, if decide (token = []) then 7%Z else 0%Z)) 0
    = iter_tokens
        (λ (count : nat) token,
           (Datatypes.S count, if decide (token = []) then 7%Z else 0%Z)) 0
        (list_ascii_of_string <$> ["a"; "b"; ""; "c"]%string).
Proof.
  split; [reflexivity|].
  destruct (string_tokenize_stops_at_failure
    (λ (count : nat) token,
       (Datatypes.S count, if decide (token = []) then 7%Z else 0%Z)) 0
    (list_ascii_of_string "a,b,,c") ","%char)
    as (Hrun & _).
  exact Hrun.
Defined.

Lemma c_str_id s : NUL ∉ s → c_str (s ++ [NUL]) = s.
Proof. intros Hs. by apply StringPoolFacts.c_str_terminated. Qed.

Lemma getdelim_chunk_record delimiter record rest :
  delimiter ∉ record →
  getdelim_chunk delimiter (record ++ delimiter :: rest)
  = (record ++ [delimiter], rest).
Proof.
  induction record as [|c record IH]; simpl; intros Hd.
  - by rewrite decide_True.
  - apply not_elem_of_cons in Hd as [Hc Hd].
    rewrite decide_False by done. by rewrite IH.
Qed.

Lemma getdelim_chunk_tail delimiter tail :
  delimiter ∉ tail → getdelim_chunk delimiter tail = (tail, []).
Proof.
  induction tail as [|c tail IH]; simpl; intros Hd; [done|].
  apply not_elem_of_cons in Hd as [Hc Hd].
  rewrite decide_False by done. by rewrite IH.
Qed.

Lemma stream_token_record delimiter record :
  NUL ∉ record →
  stream_token (record ++ [delimiter]) = record_token delimiter record.
Proof.
  intros Hn. unfold stream_token, record_token. rewrite length_app. simpl.
  destruct record as [|c record].
  - simpl. by case_decide.
  - rewrite decide_True by (simpl; lia).
    replace (length (c :: record) + 1 - 1) with (length (c :: record)) by lia.
    rewrite take_app_length.
    by apply (StringPoolFacts.c_str_terminated _ [NUL]).
Qed.

Lemma stream_token_tail tail :
  NUL ∉ tail → tail ≠ [] → tail_tokens tail = [stream_token tail].
Proof.
  intros Hn Hne. unfold stream_token, tail_tokens.
  destruct tail as [|c [|c' tail]]; [done| |].
  - simpl. apply not_elem_of_cons in Hn as [Hc _].
    by rewrite decide_False.
  - rewrite decide_True by (simpl; lia). f_equal. symmetry.
    apply (StringPoolFacts.c_str_terminated _ [NUL]).
    intros Hin. apply Hn. by apply (subseteq_take _ _ _ Hin).
Qed.

Lemma c_str_app_NUL s post : c_str (s ++ NUL :: post) = c_str s.
Proof.
  induction s as [|c s IH]; simpl; [done|].
  case_decide; [done|]. by rewrite IH.
Qed.

Lemma stream_token_record_any delimiter record :
  stream_token (record ++ [delimiter]) = record_c_token delimiter record.
Proof.
  unfold stream_token, record_c_token. rewrite length_app. simpl.
  destruct record as [|c record].
  - done.
  - rewrite decide_True by (simpl; lia).
    replace (length (c :: record) + 1 - 1) with (length (c :: record)) by lia.
    rewrite take_app_length. apply c_str_app_NUL.
Qed.

Lemma stream_token_tail_any tail :
  tail ≠ [] → tail_c_tokens tail = [stream_token tail].
Proof.
  intros Hne. unfold stream_token, tail_c_tokens.
  destruct tail as [|c [|c' tail]]; [done| |].
  - done.
  - rewrite decide_True by (simpl; lia). f_equal. symmetry.
    apply c_str_app_NUL.
Qed.

(** Every stream is a sequence of records, each followed by the
    delimiter, and then bytes without a delimiter. *)
Lemma stream_records delimiter (file : list ascii) :
  ∃ records tail,
    file = terminated delimiter records ++ tail
    ∧ Forall (λ record, delimiter ∉ record) records
    ∧ delimiter ∉ tail.
Proof.
  induction file as [|c file (records & tail & -> & Hrecords & Htail)].
  { exists [], []. split_and!; [done|constructor|apply not_elem_of_nil]. }
  destruct (decide (c = delimiter)) as [->|Hc].
  - exists ([] :: records), tail.
    split_and!; [done| |done]. constructor; [apply not_elem_of_nil|done].
  - destruct records as [|record records].
    + exists [], (c :: tail). split_and!; [done|done|].
      apply not_elem_of_cons. split; [congruence|done].
    + exists ((c :: record) :: records), tail.
      apply Forall_cons in Hrecords as [Hrecord Hrecords].
      split_and!; [done| |done]. constructor; [|done].
      apply not_elem_of_cons. split; [congruence|done].
Qed.

Section StreamTokenizeFacts.
Context {S : Type}.
Variable STREAM_TOKENIZE_RET_ALLOCATION_FAILURE : Z.
Implicit Types (callback : tokenize_iter_callback_t S) (user_data : S).

Lemma stream_tokenize_loop_records callback errno_is_ENOMEM delimiter
    records tail rounds user_data seen :
  (∀ u token, (callback u token).2 = 0%Z) →
  Forall (λ record, (delimiter ∉ record) ∧ (NUL ∉ record)) records →
  delimiter ∉ tail → NUL ∉ tail →
  length (terminated delimiter records ++ tail) ≤ rounds →
  ∃ user_data',
    stream_tokenize_loop STREAM_TOKENIZE_RET_ALLOCATION_FAILURE rounds
      errno_is_ENOMEM (terminated delimiter records ++ tail) delimiter
      (traced callback) (user_data, seen)
    = ((user_data',
        seen ++ (record_token delimiter <$> records) ++ tail_tokens tail),
       if errno_is_ENOMEM then STREAM_TOKENIZE_RET_ALLOCATION_FAILURE
       else 0%Z).
Proof.
  intros Hcb Hrecords Hdt Hnt. revert rounds user_data seen.
  induction Hrecords as [|record records [Hdr Hnr] _ IH];
    intros rounds user_data seen Hrounds.
  - change (terminated delimiter [] ++ tail) with tail in *.
    destruct tail as [|c tail].
    { exists user_data.
      destruct rounds, errno_is_ENOMEM; simpl; by rewrite app_nil_r. }
    destruct rounds as [|rounds]; [simpl in Hrounds; lia|].
    rewrite (stream_token_tail (c :: tail)) by done.
    cbn [stream_tokenize_loop getdelim].
    rewrite getdelim_chunk_tail by done.
    unfold traced at 1. simpl.
    specialize (Hcb user_data (stream_token (c :: tail))).
    destruct (callback user_data (stream_token (c :: tail))) as [u' r].
    simpl in Hcb. subst r. case_decide; [done|].
    exists u'. by destruct rounds, errno_is_ENOMEM.
  - unfold terminated in *. rewrite fmap_cons in *. cbn [concat] in *.
    rewrite <- !app_assoc in *. cbn [app] in *.
    destruct rounds as [|rounds].
    { rewrite !length_app in Hrounds. simpl in Hrounds. lia. }
    assert (Hsome : ∀ rest, getdelim delimiter (record ++ delimiter :: rest)
              = Some (record ++ [delimiter], rest)).
    { intros rest. unfold getdelim.
      rewrite getdelim_chunk_record by done. by destruct record. }
    cbn [stream_tokenize_loop]. rewrite Hsome.
    unfold traced at 1. simpl. rewrite stream_token_record by done.
    specialize (Hcb user_data (record_token delimiter record)) as Hr.
    destruct (callback user_data (record_token delimiter record)) as [u' r].
    simpl in Hr. subst r. case_decide; [done|].
    destruct (IH rounds u' (seen ++ [record_token delimiter record]))
      as [u'' Hloop].
    { rewrite length_app, length_cons in Hrounds. lia. }
    exists u''. rewrite Hloop. by rewrite <- app_assoc.
Qed.

Lemma stream_tokenize_loop_any callback errno_is_ENOMEM delimiter
    records tail rounds user_data seen :
  (∀ u token, (callback u token).2 = 0%Z) →
  Forall (λ record, delimiter ∉ record) records →
  delimiter ∉ tail →
  length (terminated delimiter records ++ tail) ≤ rounds →
  ∃ user_data',
    stream_tokenize_loop STREAM_TOKENIZE_RET_ALLOCATION_FAILURE rounds
      errno_is_ENOMEM (terminated delimiter records ++ tail) delimiter
      (traced callback) (user_data, seen)
    = ((user_data',
        seen ++ (record_c_token delimiter <$> records)
             ++ tail_c_tokens tail),
       if errno_is_ENOMEM then STREAM_TOKENIZE_RET_ALLOCATION_FAILURE
       else 0%Z).
Proof.
  intros Hcb Hrecords Hdt. revert rounds user_data seen.
  induction Hrecords as [|record records Hdr _ IH];
    intros rounds user_data seen Hrounds.
  - change (terminated delimiter [] ++ tail) with tail in *.
    destruct tail as [|c tail].
    { exists user_data.
      destruct rounds, errno_is_ENOMEM; simpl; by rewrite app_nil_r. }
    destruct rounds as [|rounds]; [simpl in Hrounds; lia|].
    rewrite (stream_token_tail_any (c :: tail)) by done.
    cbn [stream_tokenize_loop getdelim].
    rewrite getdelim_chunk_tail by done.
    unfold traced at 1. simpl.
    specialize (Hcb user_data (stream_token (c :: tail))).
    destruct (callback user_data (stream_token (c :: tail))) as [u' r].
    simpl in Hcb. subst r. case_decide; [done|].
    exists u'. by destruct rounds, errno_is_ENOMEM.
  - unfold terminated in *. rewrite fmap_cons in *. cbn [concat] in *.
    rewrite <- !app_assoc in *. cbn [app] in *.
    destruct rounds as [|rounds].
    { rewrite !length_app in Hrounds. simpl in Hrounds. lia. }
    assert (Hsome : ∀ rest, getdelim delimiter (record ++ delimiter :: rest)
              = Some (record ++ [delimiter], rest)).
    { intros rest. unfold getdelim.
      rewrite getdelim_chunk_record by done. by destruct record. }
    cbn [stream_tokenize_loop]. rewrite Hsome.
    unfold traced at 1. simpl. rewrite stream_token_record_any.
    specialize (Hcb user_data (record_c_token delimiter record)) as Hr.
    destruct (callback user_data (record_c_token delimiter record))
      as [u' r].
    simpl in Hr. subst r. case_decide; [done|].
    destruct (IH rounds u' (seen ++ [record_c_token delimiter record]))
      as [u'' Hloop].
    { rewrite length_app, length_cons in Hrounds. lia. }
    exists u''. rewrite Hloop. by rewrite <- app_assoc.
Qed.

(** X6. As the code behaves on any stream, with a callback that never
    returns non-zero. Every stream is a sequence of records, each
    followed by the delimiter, and then bytes without a delimiter. A
    record is handed over as a C string, which ends at the first null
    byte of the record when it has one: without the delimiter when the
    record is not empty, and as the delimiter itself when it is empty.
    The bytes that end the stream without a delimiter are handed over
    without their last byte when there are two or more of them, and
    whole when there is one. The value returned is [0], or the
    allocation failure code when [errno] is [ENOMEM] at the end of the
    stream. *)
Theorem stream_tokenize_tokens callback errno_is_ENOMEM delimiter user_data :
  (∀ u token, (callback u token).2 = 0%Z) →
  (∀ file, ∃ records tail,
     file = terminated delimiter records ++ tail
     ∧ Forall (λ record, delimiter ∉ record) records
     ∧ delimiter ∉ tail)
  ∧ ∀ records tail,
      Forall (λ record, delimiter ∉ record) records →
      delimiter ∉ tail →
      let result :=
        stream_tokenize STREAM_TOKENIZE_RET_ALLOCATION_FAILURE
          errno_is_ENOMEM (terminated delimiter records ++ tail) delimiter
          (traced callback) (user_data, []) in
      result.1.2
      = (record_c_token delimiter <$> records) ++ tail_c_tokens tail
      ∧ result.2 = if errno_is_ENOMEM
                   then STREAM_TOKENIZE_RET_ALLOCATION_FAILURE else 0%Z.
Proof.
  intros Hcb. split; [apply stream_records|].
  intros records tail Hrecords Hdt result. unfold result, stream_tokenize.
  destruct (stream_tokenize_loop_any callback errno_is_ENOMEM delimiter
              records tail (length (terminated delimiter records ++ tail))
              user_data [] Hcb Hrecords Hdt) as [u' ->]; [lia|].
  done.
Qed.

(** X7. On a stream in which every record is followed by the delimiter,
    is not empty and holds neither the delimiter nor a null byte,
    [stream_tokenize] with a callback that never returns non-zero calls
    it on exactly the records, in order, and returns [0]; on the empty
    stream it makes no call. *)
Theorem stream_tokenize_records callback delimiter records user_data :
  (∀ u token, (callback u token).2 = 0%Z) →
  Forall (λ record, record ≠ [] ∧ (delimiter ∉ record) ∧ (NUL ∉ record))
    records →
  let result :=
    stream_tokenize STREAM_TOKENIZE_RET_ALLOCATION_FAILURE false
      (terminated delimiter records) delimiter (traced callback)
      (user_data, []) in
  result.1.2 = records ∧ result.2 = 0%Z.
Proof.
  intros Hcb Hrecords result. unfold result.
  assert (Hid : record_token delimiter <$> records = records).
  { clear result. induction Hrecords as [|record records [Hne _] _ IH];
      [done|]. rewrite fmap_cons, IH. by destruct record. }
  unfold stream_tokenize.
  pose proof (stream_tokenize_loop_records callback false delimiter records
                [] (length (terminated delimiter records)) user_data [] Hcb)
    as Hloop.
  rewrite app_nil_r in Hloop. destruct Hloop as [u' ->].
  - eapply Forall_impl; [exact Hrecords|]. simpl. tauto.
  - apply not_elem_of_nil.
  - apply not_elem_of_nil.
  - done.
  - simpl. by rewrite Hid, app_nil_r.
Qed.

End StreamTokenizeFacts.

Lemma stream_tokenize_tokens_witness :
  (stream_tokenize (-2)%Z false
     (list_ascii_of_string "a;;bcd") ";"%char
     (traced (λ (count : nat) _, (Datatypes.S count, 0%Z))) (0, [])).1.2
  = list_ascii_of_string <$> ["a"; ";"; "bc"]%string
  ∧ (stream_tokenize (-2)%Z false
       ("a"%char :: NUL :: list_ascii_of_string "b;") ";"%char
       (traced (λ (count : nat) _, (Datatypes.S count, 0%Z))) (0, [])).1.2
    = [list_ascii_of_string "a"].
Proof.
  destruct (stream_tokenize_tokens (-2)%Z
    (λ (count : nat) _, (Datatypes.S count, 0%Z)) false ";"%char 0)
    as [_ Htokens]; [done|].
  split.
  - destruct (Htokens (list_ascii_of_string <$> ["a"; ""]%string)
                (list_ascii_of_string "bcd")) as [Hseen _].
    + by apply (bool_decide_unpack _); vm_compute.
    + by apply (bool_decide_unpack _); vm_compute.
    + exact Hseen.
  - destruct (Htokens ["a"%char :: NUL :: list_ascii_of_string "b"] [])
      as [Hseen _].
    + by apply (bool_decide_unpack _); vm_compute.
    + by apply (bool_decide_unpack _); vm_compute.
    + exact Hseen.
Defined.

Lemma stream_tokenize_records_witness :
  (stream_tokenize (-2)%Z false
     (list_ascii_of_string "U1;Ritz;") ";"%char
     (traced (λ (count : nat) _, (Datatypes.S count, 0%Z))) (0, [])).1.2
  = list_ascii_of_string <$> ["U1"; "Ritz"]%string.
Proof.
  destruct (stream_tokenize_records (-2)%Z
    (λ (count : nat) _, (Datatypes.S count, 0%Z)) ";"%char
    (list_ascii_of_string <$> ["U1"; "Ritz"]%string) 0) as [Hseen _].
  - done.
  - by apply (bool_decide_unpack _); vm_compute.
  - exact Hseen.
Defined.

End TokenizeFacts.

(** ** Query 7: statistics by airport and execution *)

Module Q07ExecuteFacts.

Import Q07 Q07Execute.

Section Sorting.
Context {A : Type} (compare_func : A → A → Z).

Lemma insert_sorted_Permutation x l :
  insert_sorted compare_func x l ≡ₚ x :: l.
Proof.
  induction l as [|y l IH]; simpl; [done|].
  case_decide; [done|]. rewrite IH. apply Permutation_swap.
Qed.

Lemma g_array_sort_Permutation l : g_array_sort compare_func l ≡ₚ l.
Proof.
  unfold g_array_sort.
  assert (H : ∀ acc,
    foldl (λ sorted x, insert_sorted compare_func x sorted) acc l
    ≡ₚ acc ++ l).
  { induction l as [|x l IH]; intros acc; simpl; [by rewrite app_nil_r|].
    rewrite IH, insert_sorted_Permutation.
    by rewrite <- Permutation_middle. }
  apply (H []).
Qed.
End Sorting.

Lemma int64_compare_close a b :
  (- 2 ^ 31 < a - b < 2 ^ 31)%Z →
  __q07_generate_statistics_int64_compare_func a b = (a - b)%Z.
Proof.
  intros Hd. unfold __q07_generate_statistics_int64_compare_func, to_gint.
  rewrite Z.mod_small; lia.
Qed.

Lemma insert_sorted_int64 x l :
  (∀ y, y ∈ l → (- 2 ^ 31 < x - y < 2 ^ 31)%Z) →
  StronglySorted Z.le l →
  StronglySorted Z.le
    (insert_sorted __q07_generate_statistics_int64_compare_func x l).
Proof.
  intros Hclose Hsorted.
  induction Hsorted as [|y l Hsorted IH Hy]; simpl.
  { repeat constructor. }
  rewrite int64_compare_close by (apply Hclose; left).
  case_decide as Hc.
  - constructor; [by constructor|].
    constructor; [lia|]. eapply Forall_impl; [exact Hy|].
    intros z Hz. simpl in *. lia.
  - constructor.
    + apply IH. intros z Hz. apply Hclose. by right.
    + rewrite insert_sorted_Permutation. constructor; [lia|done].
Qed.

(** Sorting with the comparison function of the delays gives an
    ascending array when the delays are close to each other. *)
Lemma g_array_sort_int64_sorted (delays : list Z) :
  (∀ a b, a ∈ delays → b ∈ delays → (- 2 ^ 31 < a - b < 2 ^ 31)%Z) →
  StronglySorted Z.le
    (g_array_sort __q07_generate_statistics_int64_compare_func delays).
Proof.
  intros Hclose. unfold g_array_sort.
  assert (H : ∀ acc,
    (∀ a b, a ∈ acc ++ delays → b ∈ acc ++ delays →
            (- 2 ^ 31 < a - b < 2 ^ 31)%Z) →
    StronglySorted Z.le acc →
    StronglySorted Z.le
      (foldl (λ sorted x,
                insert_sorted __q07_generate_statistics_int64_compare_func
                  x sorted) acc delays)).
  { clear Hclose. induction delays as [|x l IH]; intros acc Hclose Hacc;
      [done|].
    simpl. apply IH.
    - intros a b Ha Hb. apply Hclose.
      + rewrite elem_of_app, insert_sorted_Permutation in Ha.
        rewrite elem_of_app, !elem_of_cons in *. tauto.
      + rewrite elem_of_app, insert_sorted_Permutation in Hb.
        rewrite elem_of_app, !elem_of_cons in *. tauto.
    - apply insert_sorted_int64; [|done]. intros y Hy. apply Hclose.
      + rewrite elem_of_app, elem_of_cons. tauto.
      + rewrite elem_of_app. tauto. }
  apply (H []); [done|constructor].
Qed.

(** X8. The delays of an airport are sorted with a comparison function
    that returns the difference of two delays as a [gint]. When any two
    delays of the array differ by less than [2^31] seconds, the array
    [g_array_sort] leaves is in ascending order, and it holds the same
    delays as before. *)
Theorem delays_sorted (delays : list Z) :
  (∀ a b, a ∈ delays → b ∈ delays → (- 2 ^ 31 < a - b < 2 ^ 31)%Z) →
  StronglySorted Z.le
    (g_array_sort __q07_generate_statistics_int64_compare_func delays)
  ∧ g_array_sort __q07_generate_statistics_int64_compare_func delays
    ≡ₚ delays.
Proof.
  intros Hclose.
  split; [by apply g_array_sort_int64_sorted|apply g_array_sort_Permutation].
Qed.

Lemma delays_sorted_witness :
  StronglySorted Z.le
    (g_array_sort __q07_generate_statistics_int64_compare_func
       [300; -60; 0; 7200]%Z)
  ∧ g_array_sort __q07_generate_statistics_int64_compare_func
      [300; -60; 0; 7200]%Z
    ≡ₚ [300; -60; 0; 7200]%Z.
Proof.
  apply (delays_sorted [300; -60; 0; 7200]%Z).
  intros a b Ha Hb. rewrite !elem_of_cons, elem_of_nil in Ha, Hb.
  destruct Ha as [->|[->|[->|[->|[]]]]], Hb as [->|[->|[->|[->|[]]]]]; lia.
Defined.

Lemma delays_of_cons airport flight flights :
  delays_of airport (flight :: flights)
  = if decide (flight.1 = airport)
    then flight.2 :: delays_of airport flights
    else delays_of airport flights.
Proof.
  unfold delays_of. rewrite filter_cons. by case_decide.
Qed.

Lemma delays_of_nil_iff airport flights :
  delays_of airport flights = [] ↔ airport ∉ flights.*1.
Proof.
  induction flights as [|flight flights IH].
  - split; [intros _; apply not_elem_of_nil|done].
  - rewrite delays_of_cons, fmap_cons, not_elem_of_cons.
    case_decide as Heq.
    + split; [done|]. intros [Hne _]. by destruct Hne.
    + rewrite IH. split; [by split|tauto].
Qed.

(** The table of delays after the iteration over the flights. *)
Lemma foreach_flight_table airport_delays flights airport :
  foldl __q07_generate_statistics_foreach_flight airport_delays flights
    !! airport
  = match airport_delays !! airport with
    | Some delays => Some (delays ++ delays_of airport flights)
    | None =>
        match delays_of airport flights with
        | [] => None
        | delays => Some delays
        end
    end.
Proof.
  revert airport_delays.
  induction flights as [|[code delay] flights IH]; intros airport_delays.
  { simpl. destruct (airport_delays !! airport); by rewrite ?app_nil_r. }
  cbn [foldl]. rewrite IH, delays_of_cons. clear IH.
  unfold __q07_generate_statistics_foreach_flight. simpl.
  destruct (decide (code = airport)) as [->|Hne].
  - destruct (airport_delays !! airport) as [delays|] eqn:Hd;
      rewrite lookup_insert_eq; [by rewrite <- app_assoc|done].
  - destruct (airport_delays !! code);
      by rewrite lookup_insert_ne by done.
Qed.

Lemma foreach_airport_entries to_add entries :
  foldl __q07_generate_statistics_foreach_airport to_add entries
  = to_add ++ (entry_of <$> entries).
Proof.
  revert to_add. induction entries as [|[airport delays] entries IH];
    intros to_add; simpl; [by rewrite app_nil_r|].
  rewrite IH. by rewrite <- app_assoc.
Qed.

(** The table of delays of [__q07_generate_statistics]: an airport is
    in it when some flight leaves from it, with the delays of these
    flights in their order. *)
Lemma airport_delays_lookup flights airport delays :
  foldl __q07_generate_statistics_foreach_flight ∅ flights !! airport
    = Some delays
  ↔ airport ∈ flights.*1 ∧ delays = delays_of airport flights.
Proof.
  rewrite foreach_flight_table, lookup_empty.
  pose proof (delays_of_nil_iff airport flights) as Hnil.
  destruct (delays_of airport flights) as [|d ds].
  - split; [done|]. intros [Hin _]. by apply Hnil in Hin.
  - split.
    + intros [= <-]. split; [|done].
      destruct (decide (airport ∈ flights.*1)) as [|Hn]; [done|].
      by apply Hnil in Hn.
    + by intros [_ ->].
Qed.

(** For delays from [0] up to [2^31] the median stored is the median of
    the delays in ascending order, and it lies in the same range. *)
Lemma median_of_delays_in_range (delays : list Z) :
  (∀ d, d ∈ delays → (0 ≤ d < 2 ^ 31)%Z) →
  let sorted :=
    g_array_sort __q07_generate_statistics_int64_compare_func delays in
  sorted ≡ₚ delays
  ∧ StronglySorted Z.le sorted
  ∧ median_of sorted = median_of_ascending sorted
  ∧ (0 ≤ median_of sorted < 2 ^ 31)%Z.
Proof.
  intros Hrange sorted.
  assert (Hperm : sorted ≡ₚ delays) by apply g_array_sort_Permutation.
  assert (Hat : ∀ i, (0 ≤ sorted !!! i < 2 ^ 31)%Z).
  { intros i. rewrite list_lookup_total_alt.
    destruct (sorted !! i) as [d|] eqn:Hd; simpl.
    - apply Hrange. rewrite <- Hperm. by eapply list_elem_of_lookup_2.
    - by vm_compute. }
  assert (Hsame : median_of sorted = median_of_ascending sorted).
  { unfold median_of, median_of_ascending, to_uint64.
    case_decide.
    - pose proof (Hat (length sorted / 2)).
      pose proof (Hat (length sorted / 2 - 1)).
      rewrite !(Z.mod_small (sorted !!! _)) by lia.
      rewrite Z.mod_small by lia.
      unfold uint64_to_double. rewrite decide_True by lia.
      unfold double_to_int64. rewrite decide_True; [done|].
      Z.to_euclidean_division_equations; lia.
    - pose proof (Hat (length sorted / 2)).
      rewrite Z.mod_small by lia.
      unfold uint64_to_double. rewrite decide_True by lia.
      unfold double_to_int64. by rewrite decide_True by lia. }
  split; [done|]. split; [|split; [done|]].
  - apply g_array_sort_int64_sorted. intros a b Ha Hb.
    pose proof (Hrange a Ha). pose proof (Hrange b Hb). lia.
  - rewrite Hsame. unfold median_of_ascending. case_decide.
    + pose proof (Hat (length sorted / 2)).
      pose proof (Hat (length sorted / 2 - 1)).
      Z.to_euclidean_division_equations; lia.
    + apply Hat.
Qed.

Section Statistics.
Variable airport_code_sprintf : Z → list ascii.



Lemma execute_loop_take rounds airport_medians i_max i :
  i_max ≤ length airport_medians →
  i_max ≤ i + rounds →
  __q07_execute_loop airport_code_sprintf rounds airport_medians i_max i
  = concat (write_airport_median airport_code_sprintf
              <$> drop i (take i_max airport_medians)).
Proof.
  intros Hlen. revert i. induction rounds as [|rounds IH]; intros i Hr.
  - simpl. rewrite drop_ge; [done|]. rewrite length_take. lia.
  - simpl. case_decide as Hi.
    + destruct (lookup_lt_is_Some_2 airport_medians i) as [m Hm]; [lia|].
      rewrite Hm, IH by lia.
      assert (Hm' : take i_max airport_medians !! i = Some m).
      { by rewrite lookup_take_lt. }
      by rewrite (drop_S _ _ _ Hm').
    + rewrite drop_ge; [done|]. rewrite length_take. lia.
Qed.

(** X11. Executing query 7 with argument [n] writes one object per
    entry of the first [n] entries of the statistics (all of them when
    there are fewer than [n]), in the order of the statistics, each with
    the name of the airport and its median printed as a [uint64_t], and
    returns [0]. *)
Theorem execute_writes_first_n (statistics : list __q07_airport_median)
    (n : Z) :
  __q07_execute airport_code_sprintf statistics n
  = (concat (write_airport_median airport_code_sprintf
               <$> take (Z.to_nat n) statistics), 0%Z).
Proof.
  unfold __q07_execute. f_equal.
  rewrite execute_loop_take by lia. rewrite drop_0. do 2 f_equal.
  destruct (decide (n ≤ Z.of_nat (length statistics))%Z).
  - by rewrite Z.min_l by done.
  - rewrite Z.min_r, Nat2Z.id by lia.
    rewrite firstn_all. rewrite take_ge; [done|lia].
Qed.

End Statistics.



End Q07ExecuteFacts.

(** ** Query dispatcher: output streams and statistics per type *)

Module QueryDispatcherOutputFacts.

Import QueryDispatcher.

Section Facts.
Context {database argument_data statistics FILE : Type}.

Implicit Types (db : database)
  (tl : gmap nat (query_type database argument_data statistics))
  (outputs : list FILE) (l set : list (query_instance argument_data))
  (sets : list (list (query_instance argument_data))).

Lemma executed_outputs_registered_sets db tl outputs i sets :
  executed_outputs (sets_calls db tl outputs i sets)
  = imap (λ k q, (q, outputs !! (i + k)))
      (concat (filter (λ set, is_Some (tl !! set_type set)) sets)).
Proof.
  revert i. induction sets as [|set sets IH]; intros i; [done|].
  cbn [sets_calls]. rewrite filter_cons. destruct set as [|first more].
  { rewrite IH. by case_decide. }
  cbn [set_type].
  destruct (tl !! query_instance_get_type first) as [type|] eqn:Hty.
  - rewrite decide_True by done. cbn [concat].
    rewrite QueryDispatcherFacts.executed_outputs_app, imap_app.
    rewrite QueryDispatcherFacts.executed_outputs_partition, IH. f_equal.
    apply imap_ext. intros k x _. simpl. do 2 f_equal. lia.
  - rewrite decide_False by (by intros [? ?]). apply IH.
Qed.

(** X12. The output streams are handed out by position among the
    instances that are executed, not among the instances of the list: a
    partition whose type is not registered is skipped without moving
    the output index, so the [k]-th instance [execute] is called on,
    counting over the partitions in order, is given [outputs[k]]. *)
Theorem outputs_follow_executed_instances db tl outputs l :
  executed_outputs (query_dispatcher_dispatch_list db l tl outputs)
  = imap (λ k q, (q, outputs !! k))
      (concat (filter (λ set, is_Some (tl !! set_type set))
                 (partitions l))).
Proof.
  rewrite QueryDispatcherFacts.dispatch_list_sets_calls.
  apply executed_outputs_registered_sets.
Qed.

Lemma partition_calls_statistics db t t'
    (type : query_type database argument_data statistics) outputs i set :
  length (filter (λ c, is_generate_statistics t c = true)
            (partition_calls db t' type outputs i set))
    ≤ (if decide (t' = t) then 1 else 0)
  ∧ length (filter (λ c, is_free_statistics t c = true)
              (partition_calls db t' type outputs i set))
    ≤ (if decide (t' = t) then 1 else 0).
Proof.
  unfold partition_calls. rewrite !filter_app, !length_app.
  assert (Hexec : ∀ (f : nat → call argument_data statistics FILE → bool),
    (∀ ty st q o w s, f t (CallExecute ty st q o w s) = false) →
    ∀ stats j,
    filter (λ c, f t c = true)
      (imap (λ k, execute_call db t' type stats outputs i (j + k)) set)
    = []).
  { intros f Hf stats. induction set as [|q set IH]; intros j; [done|].
    rewrite imap_cons, filter_cons. unfold execute_call at 1.
    case_decide as Hc; [by rewrite Hf in Hc|].
    rewrite <- (IH (S j)). f_equal. apply imap_ext. intros k x _. simpl.
    by rewrite Nat.add_succ_r. }
  rewrite (Hexec is_generate_statistics) with (j := 0) by done.
  rewrite (Hexec is_free_statistics) with (j := 0) by done.
  destruct (generate_statistics type), (free_statistics type);
    rewrite ?filter_cons, ?filter_nil; simpl;
    repeat case_bool_decide; repeat case_decide; simpl; try lia;
    congruence.
Qed.

Lemma sets_calls_statistics db tl outputs i sets t :
  length (filter (λ c, is_generate_statistics t c = true)
            (sets_calls db tl outputs i sets))
    ≤ length (filter (λ t', t' = t) (set_type <$> sets))
  ∧ length (filter (λ c, is_free_statistics t c = true)
              (sets_calls db tl outputs i sets))
    ≤ length (filter (λ t', t' = t) (set_type <$> sets)).
Proof.
  revert i. induction sets as [|set sets IH]; intros i; [done|].
  cbn [sets_calls]. rewrite fmap_cons, filter_cons.
  destruct set as [|first more].
  { destruct (IH i). case_decide; rewrite ?length_cons; lia. }
  cbn [set_type].
  destruct (tl !! query_instance_get_type first) as [type|].
  - rewrite !filter_app, !length_app.
    destruct (partition_calls_statistics db t
                (query_instance_get_type first) type outputs i
                (first :: more)) as [Hg Hf].
    destruct (IH (i + length (first :: more))).
    revert Hg Hf. case_decide; intros Hg Hf; rewrite ?length_cons in *; lia.
  - destruct (IH i). case_decide; rewrite ?length_cons; lia.
Qed.

Lemma sorted_types_once (types : list nat) t :
  StronglySorted lt types → length (filter (λ t', t' = t) types) ≤ 1.
Proof.
  induction 1 as [|t' types _ IH Hlt]; [simpl; lia|].
  rewrite filter_cons. case_decide as Heq; [|done]. subst t'.
  replace (filter (λ t', t' = t) types) with (@nil nat); [simpl; lia|].
  clear IH. induction Hlt as [|t' types Ht _ IHlt]; [done|].
  rewrite filter_cons, decide_False by lia. done.
Qed.

(** X13. In one dispatch, [generate_statistics] is called at most once
    for a query type, and so is [free_statistics], however many
    instances of that type the list holds and wherever they are in the
    list. *)
Theorem statistics_generated_once_per_type db tl outputs l t :
  length (filter (λ c, is_generate_statistics t c = true)
            (query_dispatcher_dispatch_list db l tl outputs)) ≤ 1
  ∧ length (filter (λ c, is_free_statistics t c = true)
              (query_dispatcher_dispatch_list db l tl outputs)) ≤ 1.
Proof.
  rewrite QueryDispatcherFacts.dispatch_list_sets_calls.
  destruct (sets_calls_statistics db tl outputs 0 (partitions l) t)
    as [Hg Hf].
  assert (Honce :
    length (filter (λ t', t' = t) (set_type <$> partitions l)) ≤ 1).
  { apply sorted_types_once. unfold partitions.
    destruct (QueryDispatcherFacts.group_by_type_spec (sort_by_type l))
      as (_ & _ & Hs).
    apply Hs, QueryDispatcherFacts.sort_by_type_sorted. }
  lia.
Qed.

End Facts.

End QueryDispatcherOutputFacts.

(** ** Reservation manager: sequences of insertions and iteration *)

Module ReservationManagerClientFacts.

Import Reservation ReservationManager ReservationManagerClient.
Import ReservationManagerFacts.

(** X14. After a sequence of insertions, the entity found under an
    identifier is the one returned by the last insertion of a
    reservation with that identifier that returned an entity; failed
    insertions and insertions of other identifiers in between or
    afterwards do not change it. When no insertion of the sequence
    returned an entity for the identifier, the lookup finds what it
    found before the sequence. *)
Theorem lookup_finds_latest_insertion requests m res_id :
  (∀ k h,
     inserted_at requests (add_all requests m).2 res_id k h →
     (∀ j h', k < j →
        ¬ inserted_at requests (add_all requests m).2 res_id j h') →
     reservation_manager_get_by_id (add_all requests m).1 res_id = Some h)
  ∧ ((∀ k h, ¬ inserted_at requests (add_all requests m).2 res_id k h) →
     reservation_manager_get_by_id (add_all requests m).1 res_id
     = reservation_manager_get_by_id m res_id).
Proof.
  split; [|apply lookup_without_insertion].
  revert m. induction requests as [|[mallocs r] rest IH];
    intros m k h Hk Hlast.
  { by destruct Hk as (? & ? & ? & _). }
  rewrite add_all_cons in *. cbn [fst snd] in *.
  destruct (reservation_manager_add_reservation mallocs m r)
    as [[m' log] ret] eqn:Hadd. cbn [fst snd] in *.
  destruct k as [|k].
  - destruct Hk as (mallocs' & r' & [= <- <-] & [= ->] & Hid).
    rewrite lookup_without_insertion.
    + unfold reservation_manager_get_by_id.
      rewrite (add_index _ _ _ _ _ _ Hadd), <- Hid.
      apply lookup_insert_eq.
    + intros j h' Hj. apply (Hlast (S j) h'); [lia|].
      by apply inserted_at_S.
  - apply (IH m' k h); [by apply inserted_at_S in Hk|].
    intros j h' Hlt Hj. apply (Hlast (S j) h'); [lia|].
    by apply inserted_at_S.
Qed.

Lemma lookup_finds_latest_insertion_witness :
  (add_all sample_requests Samples.sample_manager).2
  = [Some (0, 0); None; Some (1, 0)]
  ∧ reservation_manager_get_by_id
      (add_all sample_requests Samples.sample_manager).1 42
    = Some (1, 0).
Proof.
  split; [by vm_compute|].
  apply (lookup_finds_latest_insertion sample_requests
           Samples.sample_manager 42) with (k := 2).
  - eexists _, _. split_and!; by vm_compute.
  - intros j h' Hlt (mallocs & r & Hreq & _).
    do 3 (destruct j as [|j]; [lia|]). done.
Defined.

End ReservationManagerClientFacts.

(** ** Reservation manager: what an insertion does to the iteration *)

Module ReservationManagerIterFacts.

Import Reservation ReservationManager ReservationManagerClient.

Section PoolSlots.
Context {A : Type}.
Implicit Types (p : Pool.pool A).

(** A setter called on an item just written is a write of the item the
    setter gives. *)
Lemma modify_set p h v (f : A → A) :
  Pool.pool_modify (Pool.pool_set p h v) h f = Pool.pool_set p h (f v).
Proof.
  unfold Pool.pool_modify, Pool.pool_set. simpl. f_equal.
  rewrite list_alter_alter_eq. apply list_alter_ext; [|done].
  intros b _. simpl. generalize h.2. clear. intros i. revert i.
  induction b as [|y b IH]; intros [|i]; simpl; [done..|].
  f_equal. apply IH.
Qed.

Lemma put_modify ok p x p' h (f : A → A) :
  Pool.__pool_put_item ok p x = (p', Some h) →
  Pool.__pool_put_item ok p (f x) = (Pool.pool_modify p' h f, Some h).
Proof.
  unfold Pool.__pool_put_item.
  destruct (Pool.__pool_alloc_item ok p) as [q [h'|]]; [|done].
  intros [= <- <-]. by rewrite modify_set.
Qed.

Lemma put_None ok p x p' :
  Pool.__pool_put_item ok p x = (p', None) → p' = p.
Proof.
  unfold Pool.__pool_put_item, Pool.__pool_alloc_item.
  repeat case_decide; [done|done|]. destruct ok; [done|]. by intros [= <-].
Qed.

(** [pool_put_item] adds the item after the live slots, which it leaves
    as they are. *)
Lemma live_slots_put ok p x p' h :
  Pool.wf p → Pool.__pool_put_item ok p x = (p', Some h) →
  Pool.live_slots p' = Pool.live_slots p ++ [Some x].
Proof.
  intros (Hcap & Hblocks & Htop & Husage).
  unfold Pool.__pool_put_item, Pool.__pool_alloc_item.
  destruct (lookup_lt_is_Some_2 (Pool.blocks p) (Pool.top p) Htop)
    as [b Hb].
  assert (Hlen : length b = Pool.block_capacity p).
  { by eapply (Forall_lookup_1 _ _ _ _ Hblocks). }
  case_decide as H1; [|case_decide as H2; [|destruct ok; [|done]]];
    intros [= <- <-]; unfold Pool.live_slots, Pool.pool_set; simpl.
  - rewrite take_alter_ge by lia.
    rewrite list_lookup_alter_eq, Hb. simpl.
    rewrite (take_S_r _ _ (Some x)) by (apply list_lookup_insert_eq; lia).
    rewrite take_insert_ge by lia. by rewrite app_assoc.
  - destruct (lookup_lt_is_Some_2 (Pool.blocks p) (S (Pool.top p)) H2)
      as [b1 Hb1].
    assert (Hlen1 : length b1 = Pool.block_capacity p).
    { by eapply (Forall_lookup_1 _ _ _ _ Hblocks). }
    rewrite take_alter_ge by lia. rewrite (take_S_r _ _ b Hb).
    rewrite concat_app. simpl. rewrite app_nil_r.
    rewrite list_lookup_alter_eq, Hb1, Hb. simpl.
    rewrite (take_ge b) by lia.
    destruct b1; [simpl in *; lia|]. simpl. by rewrite take_0.
  - assert (Hfull : Pool.blocks p = take (Pool.top p) (Pool.blocks p) ++ [b]).
    { rewrite <- (take_S_r _ _ b Hb). symmetry. apply take_ge. lia. }
    rewrite take_alter_ge by lia. rewrite take_app_length.
    rewrite list_lookup_alter_eq, lookup_app_r, Nat.sub_diag by lia.
    rewrite Hb. simpl. rewrite (take_ge b) by lia.
    rewrite Hfull at 1. rewrite concat_app. simpl. rewrite app_nil_r.
    destruct (Pool.block_capacity p); [lia|]. simpl. by rewrite take_0.
Qed.
End PoolSlots.

Lemma manager_iter_valid {S : Type} m (callback : @iter_callback S)
    user_data :
  reservation_manager_iter m callback user_data
  = iter_valid callback user_data (valid_reservations m).
Proof.
  unfold reservation_manager_iter, Pool.pool_iter, valid_reservations.
  apply ReservationManagerFacts.iter_items_valid.
Qed.

Lemma valid_reservations_snoc m m' e :
  Pool.live_slots (reservations m')
  = Pool.live_slots (reservations m) ++ [Some e] →
  valid_reservations m'
  = valid_reservations m
    ++ (if decide (reservation_is_valid e = 0%Z) then [e] else []).
Proof.
  unfold valid_reservations. intros ->.
  rewrite omap_app, filter_app. simpl. rewrite filter_cons.
  by case_decide.
Qed.

(** X15. An insertion that returns an entity adds the stored copy at the
    end of what an iteration visits (when the reservation is valid) and
    leaves the reservations visited before it, and their order, as they
    were. An insertion that fails is not seen by an iteration: with any
    callback and user data, iterating gives what it gave before the
    insertion, although the entity pool may have lost a slot to an
    invalidated copy. In both cases the entity pool stays well formed. *)
Theorem insertion_and_iteration mallocs m r m' log ret :
  Pool.wf (reservations m) →
  reservation_manager_add_reservation mallocs m r = (m', log, ret) →
  Pool.wf (reservations m')
  ∧ match ret with
    | Some h =>
        ∃ e, Pool.pool_get (reservations m') h = Some (Some e)
             ∧ is_stored_copy e r
             ∧ valid_reservations m'
               = valid_reservations m
                 ++ (if decide (reservation_is_valid r = 0%Z)
                     then [e] else [])
    | None =>
        ∀ (S : Type) (callback : @iter_callback S) user_data,
          reservation_manager_iter m' callback user_data
          = reservation_manager_iter m callback user_data
    end.
Proof.
  intros Hwf. unfold reservation_manager_add_reservation.
  destruct (Pool.__pool_put_item _ _ _) as [res' [h|]] eqn:Hp.
  2:{ intros [= <- <- <-]. apply put_None in Hp as ->. done. }
  pose proof (PoolFacts.wf_put _ _ _ _ _ Hwf Hp) as Hwf'.
  destruct (StringPool.string_pool_put (malloc_user_id mallocs) _ _)
    as [s1 pool_user_id];
  destruct (StringPool.string_pool_put (malloc_hotel_name mallocs) _ _)
    as [s2 pool_hotel_name].
  assert (Hfail :
    ∀ strings idx S (callback : @iter_callback S) user_data,
      reservation_manager_iter
        (mk_manager (Pool.pool_modify res' h reservation_invalidate)
           strings idx) callback user_data
      = reservation_manager_iter m callback user_data).
  { intros strings idx S callback user_data. rewrite !manager_iter_valid.
    rewrite (valid_reservations_snoc m _ (reservation_invalidate r)).
    - by rewrite app_nil_r.
    - simpl. eapply live_slots_put; [done|].
      by apply (put_modify _ _ _ _ _ reservation_invalidate). }
  destruct pool_user_id as [u|], pool_hotel_name as [hn|];
    intros [= <- <- <-]; simpl;
    try (split; [by apply PoolFacts.wf_modify | by apply Hfail]).
  split; [by do 2 apply PoolFacts.wf_modify|].
  pose proof (put_modify _ _ _ _ _ (reservation_set_user_id (PoolStr u)) Hp)
    as Hp1.
  pose proof (put_modify _ _ _ _ _
                (reservation_set_hotel_name (PoolStr hn)) Hp1) as Hp2.
  eexists. split_and!.
  - by destruct (PoolFacts.put_returns _ _ _ _ _ Hwf Hp2).
  - by exists u, hn.
  - rewrite (valid_reservations_snoc m (mk_manager _ s2 _) _
               (live_slots_put _ _ _ _ _ Hwf Hp2)).
    done.
Qed.

Lemma insertion_and_iteration_witness :
  reservation_manager_iter
    (reservation_manager_add_reservation Samples.hotel_name_refused
       Samples.sample_manager_1
       (Samples.sample_reservation 7 "U2" "Grand Hotel")).1.1
    (traced (λ (count : nat) _, (Datatypes.S count, 0%Z))) (0, [])
  = reservation_manager_iter Samples.sample_manager_1
      (traced (λ (count : nat) _, (Datatypes.S count, 0%Z))) (0, []).
Proof.
  pose proof (insertion_and_iteration Samples.hotel_name_refused
    Samples.sample_manager_1
    (Samples.sample_reservation 7 "U2" "Grand Hotel")
    (reservation_manager_add_reservation Samples.hotel_name_refused
       Samples.sample_manager_1
       (Samples.sample_reservation 7 "U2" "Grand Hotel")).1.1
    [] None) as H.
  apply H.
  - vm_compute. repeat split; try lia. repeat constructor.
  - vm_compute. reflexivity.
Defined.

End ReservationManagerIterFacts.

(** ** Deduplicating string pool: sequences of insertions *)

Module StringPoolNoDuplicatesClientFacts.

Import StringPool StringPoolNoDuplicates StringPoolNoDuplicatesClient.

(** An insertion never changes or removes an entry of the index. *)
Lemma put_keeps_index ok pool str pool' r k h :
  string_pool_no_duplicates_put ok pool str = (pool', r) →
  already_stored pool !! k = Some h →
  already_stored pool' !! k = Some h.
Proof.
  unfold string_pool_no_duplicates_put.
  destruct (already_stored pool !! c_str str) as [data|] eqn:Hl.
  { by intros [= <- <-]. }
  destruct (string_pool_put ok (strings pool) str) as [strings' [h'|]] eqn:Hp;
    intros [= <- <-]; simpl; [|done].
  intros Hk. rewrite lookup_insert_ne; [done|].
  pose proof (StringPoolFacts.put_stored _ _ _ _ _ Hp) as Hst.
  rewrite (StringPoolFacts.stored_string_at _ _ _ Hst). congruence.
Qed.

Lemma put_all_cons ok str rest pool :
  put_all ((ok, str) :: rest) pool
  = ((put_all rest (string_pool_no_duplicates_put ok pool str).1).1,
     (string_pool_no_duplicates_put ok pool str).2
     :: (put_all rest (string_pool_no_duplicates_put ok pool str).1).2).
Proof.
  simpl. destruct (string_pool_no_duplicates_put ok pool str) as [pool' ret].
  simpl. by destruct (put_all rest pool').
Qed.

(** After a sequence of insertions the index is consistent, it still
    has the entries it had, and it maps every string for which a pointer
    was returned to that pointer. *)
Lemma put_all_index requests pool :
  index_ok pool →
  index_ok (put_all requests pool).1
  ∧ (∀ k h, already_stored pool !! k = Some h →
            already_stored (put_all requests pool).1 !! k = Some h)
  ∧ ∀ i ok str h,
      requests !! i = Some (ok, str) →
      (put_all requests pool).2 !! i = Some (Some h) →
      already_stored (put_all requests pool).1 !! c_str str = Some h.
Proof.
  revert pool. induction requests as [|[ok0 str0] rest IH]; intros pool Hok.
  { split_and!; done. }
  rewrite put_all_cons. cbn [fst snd].
  destruct (string_pool_no_duplicates_put ok0 pool str0) as [pool' ret]
    eqn:Hput. cbn [fst snd].
  destruct (StringPoolNoDuplicatesFacts.put_index_ok _ _ _ _ _ Hok Hput)
    as [Hok' _].
  destruct (IH pool' Hok') as (Hfinal & Hkeep & Hrets).
  split_and!; [done| |].
  - intros k h Hk. apply Hkeep. by eapply put_keeps_index.
  - intros [|i] ok str h Hreq Hret.
    + injection Hreq as <- <-. injection Hret as ->.
      apply Hkeep.
      by destruct (StringPoolNoDuplicatesFacts.put_registers _ _ _ _ _
                     Hok Hput).
    + by eapply Hrets.
Qed.

(** X16. In a sequence of insertions into a deduplicating pool whose
    index is consistent, two insertions that return a pointer return the
    same pointer exactly when their strings are byte-equal, however many
    insertions, failed or not, lie between them: pointers of the pool
    can be compared in place of the strings. The string is found at the
    pointer in the pool the sequence leaves. *)
Theorem pointers_identify_strings requests pool i j ok_i str_i ok_j str_j
    h_i h_j :
  index_ok pool →
  requests !! i = Some (ok_i, str_i) →
  requests !! j = Some (ok_j, str_j) →
  (put_all requests pool).2 !! i = Some (Some h_i) →
  (put_all requests pool).2 !! j = Some (Some h_j) →
  (h_i = h_j ↔ c_str str_i = c_str str_j)
  ∧ string_at (strings (put_all requests pool).1) h_i = c_str str_i.
Proof.
  intros Hok Hi Hj Hri Hrj.
  destruct (put_all_index requests pool Hok) as (Hfinal & _ & Hrets).
  pose proof (Hrets _ _ _ _ Hi Hri) as Hidx_i.
  pose proof (Hrets _ _ _ _ Hj Hrj) as Hidx_j.
  split; [split|].
  - intros ->. eapply StringPoolFacts.stored_inj; by apply Hfinal.
  - intros Heq. rewrite Heq in Hidx_i. congruence.
  - by apply StringPoolFacts.stored_string_at, Hfinal.
Qed.

Lemma pointers_identify_strings_witness :
  (put_all sample_airlines Samples.sample_no_dups_pool).2
  = [Some (0, 0); Some (0, 4); Some (0, 0)]
  ∧ string_at (strings (put_all sample_airlines
                          Samples.sample_no_dups_pool).1) (0, 0)
    = list_ascii_of_string "TAP".
Proof.
  split; [by vm_compute|].
  refine (proj2 (pointers_identify_strings sample_airlines
    Samples.sample_no_dups_pool 0 2 true _ false _ (0, 0) (0, 0) _
    eq_refl eq_refl _ _)).
  - intros k h Hk. vm_compute in Hk. discriminate Hk.
  - by vm_compute.
  - by vm_compute.
Defined.

End StringPoolNoDuplicatesClientFacts.

(** ** Loader of the users file *)

Module UsersLoaderFacts.

Import Date UsersLoader.

Section AccountCreationDate.
Context {date_and_time_t user_t : Type}.
Variable date_and_time_from_string : list ascii → date_and_time_t * Z.
Variable date_and_time_get_date : date_and_time_t → date_t.
Variable user_get_birth_date : user_t → date_t.
Variable user_set_account_creation_date :
  user_t → date_and_time_t → user_t.

Let parse_account_creation_date :=
  __user_loader_parse_account_creation_date date_and_time_from_string
    date_and_time_get_date user_get_birth_date
    user_set_account_creation_date.

(** X17. For a user with a valid birth date, and a parser of dates with
    time that gives a valid date whenever it succeeds, the account
    creation date is accepted exactly when the token parses and the date
    is not before the birth date in the calendar; an account created on
    the day of birth is accepted. A rejected token, whether it does not
    parse or is too early, leaves the user as it was, and an accepted
    one only sets the account creation date. Nothing is asked of what
    the parser leaves behind when it fails. *)
Theorem account_creation_not_before_birth current_user token :
  let parsed := date_and_time_from_string token in
  let result := parse_account_creation_date current_user token in
  valid (user_get_birth_date current_user) →
  (parsed.2 = 0%Z → valid (date_and_time_get_date parsed.1)) →
  (result.2 = 0%Z
   ↔ parsed.2 = 0%Z
     ∧ ¬ before (date_and_time_get_date parsed.1)
           (user_get_birth_date current_user))
  ∧ (result.2 ≠ 0%Z → result.1 = current_user)
  ∧ (result.2 = 0%Z →
     result.1 = user_set_account_creation_date current_user parsed.1)
  ∧ (parsed.2 ≠ 0%Z → result = (current_user, parsed.2)).
Proof.
  intros parsed result. unfold result, parse_account_creation_date,
    __user_loader_parse_account_creation_date. fold parsed.
  destruct parsed as [date ret]. simpl.
  unfold valid, before, date_diff, DATE_YEAR_MIN, DATE_YEAR_MAX,
    DATE_MONTH_MIN, DATE_MONTH_MAX, DATE_DAY_MIN, DATE_DAY_MAX.
  destruct (date_and_time_get_date date) as [ya ma da].
  destruct (user_get_birth_date current_user) as [yb mb db]. simpl.
  intros Ha Hb. repeat case_decide; simpl; split_and!; try done; lia.
Qed.

End AccountCreationDate.

Lemma account_creation_not_before_birth_witness :
  __user_loader_parse_account_creation_date
    sample_date_and_time_from_string (λ date, date) fst
    (λ user date, (user.1, Some date)) sample_user
    (list_ascii_of_string "yesterday")
  = (sample_user, 1%Z)
  ∧ (__user_loader_parse_account_creation_date
       sample_date_and_time_from_string (λ date, date) fst
       (λ user date, (user.1, Some date)) sample_user
       (list_ascii_of_string "1990/05/16 23:59:59")).1
    = sample_user.
Proof.
  split.
  - destruct (account_creation_not_before_birth
                sample_date_and_time_from_string (λ date, date) fst
                (λ user date, (user.1, Some date)) sample_user
                (list_ascii_of_string "yesterday"))
      as (_ & _ & _ & Hunparsed).
    + vm_compute. intuition discriminate.
    + intros Hparsed. vm_compute in Hparsed. discriminate Hparsed.
    + apply Hunparsed. by vm_compute.
  - destruct (account_creation_not_before_birth
                sample_date_and_time_from_string (λ date, date) fst
                (λ user date, (user.1, Some date)) sample_user
                (list_ascii_of_string "1990/05/16 23:59:59"))
      as (_ & Hrejected & _).
    + vm_compute. intuition discriminate.
    + intros _. vm_compute. intuition discriminate.
    + apply Hrejected. by vm_compute.
Defined.

End UsersLoaderFacts.

(** ** The paging activity *)

Module ActivityPagingFacts.

Import ActivityPaging.

Lemma render_block_bounds remaining len i j text_y row k :
  (row, k) ∈ (render_block remaining len i j text_y).1 → i + j ≤ k < len.
Proof.
  revert j text_y. induction remaining as [|remaining IH]; intros j text_y;
    simpl; [by intros ?%elem_of_nil|].
  case_decide as Hend; [by intros ?%elem_of_nil|].
  destruct (render_block remaining len i (S j) (S text_y)) as [rest stop]
    eqn:Hrest. simpl. intros [[= -> ->]|Hin]%elem_of_cons; [lia|].
  specialize (IH (S j) (S text_y)). rewrite Hrest in IH.
  specialize (IH Hin). lia.
Qed.

Lemma render_blocks_bounds rounds len bl lines_until_end i text_y row k :
  (row, k) ∈ render_blocks rounds len bl lines_until_end i text_y →
  i ≤ k < len.
Proof.
  revert i text_y. induction rounds as [|rounds IH]; intros i text_y; simpl;
    [by intros ?%elem_of_nil|].
  case_decide; [|by intros ?%elem_of_nil].
  pose proof (render_block_bounds bl len i 0 text_y row k) as Hblock.
  destruct (render_block bl len i 0 text_y) as [block stop]. simpl in *.
  destruct stop; [intros Hin; specialize (Hblock Hin); lia|].
  intros [Hin|Hin]%elem_of_app; [specialize (Hblock Hin); lia|].
  apply IH in Hin. lia.
Qed.

Lemma ceil_div_pred a b : 0 < a → 0 < b → ceil_div a b - 1 = (a - 1) / b.
Proof.
  intros Ha Hb. unfold ceil_div.
  replace (a + b - 1) with (a - 1 + 1 * b) by lia.
  rewrite Nat.div_add by lia. lia.
Qed.

(** The lines that fit on the screen at once are at least one. *)
Lemma max_on_screen_lines_pos window_height bl len :
  0 < bl → 0 < len → ¬ window_height < bl + 5 →
  0 < Nat.min ((window_height - 4 - 1) / bl * bl) len.
Proof.
  intros Hbl Hlen Hh.
  assert (0 < (window_height - 4 - 1) / bl).
  { apply Nat.div_str_pos. lia. }
  apply Nat.min_glb_lt; [nia|done].
Qed.

Lemma render_ok paging window_height window_width :
  paging_ok paging →
  paging_ok (__activity_paging_render paging window_height window_width).1
  ∧ lines (__activity_paging_render paging window_height window_width).1
    = lines paging
  ∧ block_length
      (__activity_paging_render paging window_height window_width).1
    = block_length paging
  ∧ rendering_ok paging
      (__activity_paging_render paging window_height window_width).2.
Proof.
  intros [Hbl Href]. unfold __activity_paging_render.
  case_decide as Hsmall.
  { split_and!; try done. split; [|done]. by intros ?? ?%elem_of_nil. }
  apply Decidable.not_or in Hsmall as [Hh _].
  pose proof (max_on_screen_lines_pos window_height (block_length paging)
                (lines_length paging) Hbl ltac:(lia) Hh) as Hmax.
  set (max_on_screen_lines :=
    Nat.min
      ((window_height - 4 - 1) / block_length paging * block_length paging)
      (lines_length paging)) in *.
  rewrite ceil_div_pred by lia.
  set (max_page_number := (lines_length paging - 1) / max_on_screen_lines).
  set (page_number := page_reference_index paging / max_on_screen_lines).
  assert (Hpage : page_number ≤ max_page_number).
  { apply Nat.Div0.div_le_mono; lia. }
  assert (Hlast : max_page_number * max_on_screen_lines
                  < lines_length paging).
  { pose proof (Nat.Div0.mul_div_le (lines_length paging - 1)
                  max_on_screen_lines) as Hle.
    fold max_page_number in Hle. lia. }
  set (page_number' :=
    match change_page paging with
    | ACTIVITY_PAGING_ACTION_NEXT_PAGE =>
        if decide (page_number < max_page_number) then S page_number
        else page_number
    | ACTIVITY_PAGING_ACTION_PREVIOUS_PAGE =>
        if decide (0 < page_number) then page_number - 1 else page_number
    | ACTIVITY_PAGING_ACTION_KEEP => page_number
    end).
  assert (Hpage' : page_number' ≤ max_page_number).
  { unfold page_number'. destruct (change_page paging);
      repeat case_decide; lia. }
  simpl. split_and!; try done.
  - unfold paging_ok, lines_length in *. simpl. split; [done|]. nia.
  - split; simpl.
    + intros row k Hin%render_blocks_bounds.
      apply lookup_lt_is_Some. unfold lines_length in *. lia.
    + case_decide; [lia|done].
Qed.

Lemma keypress_ok paging key is_key_code :
  paging_ok paging →
  paging_ok (__activity_paging_keypress paging key is_key_code).1
  ∧ lines (__activity_paging_keypress paging key is_key_code).1
    = lines paging
  ∧ block_length (__activity_paging_keypress paging key is_key_code).1
    = block_length paging.
Proof.
  intros Hok. unfold __activity_paging_keypress. by repeat case_decide.
Qed.

Lemma first_empty_line_bounds lines i k :
  first_empty_line lines i = Some k → i ≤ k < i + length lines.
Proof.
  revert i. induction lines as [|line lines IH]; intros i; simpl; [done|].
  case_decide; [intros [= <-]; lia|]. intros Hk%IH. lia.
Qed.

(** The data of a paging activity when it starts. *)
Lemma run_data_ok lines blocking title :
  paging_ok (activity_paging_run_data lines blocking title)
  ∧ block_length (activity_paging_run_data lines blocking title)
    ≤ lines_length (activity_paging_run_data lines blocking title).
Proof.
  unfold activity_paging_run_data, paging_ok, lines_length. simpl.
  set (lines' := match lines with [] => [[]] | _ => lines end).
  assert (0 < length lines') by (unfold lines'; destruct lines; simpl; lia).
  destruct blocking; [|lia].
  destruct (first_empty_line lines' 0) as [k|] eqn:Hk; [|lia].
  apply first_empty_line_bounds in Hk. lia.
Qed.

Lemma activity_run_ok events paging :
  paging_ok paging →
  paging_ok (activity_run events paging).1
  ∧ lines (activity_run events paging).1 = lines paging
  ∧ Forall (rendering_ok paging) (activity_run events paging).2.
Proof.
  revert paging. induction events as [|[key code|h w] events IH];
    intros paging Hok; simpl; [done| |].
  - destruct (keypress_ok paging key code Hok) as (Hok' & Hlines & _).
    destruct (__activity_paging_keypress paging key code) as [paging' ret].
    simpl in *. case_decide; [|done].
    destruct (IH paging' Hok') as (Hfinal & Hl & Hshown).
    split_and!; [done|congruence|].
    eapply Forall_impl; [exact Hshown|]. unfold rendering_ok.
    intros shown. by rewrite Hlines.
  - destruct (render_ok paging h w Hok) as (Hok' & Hlines & _ & Hshown0).
    destruct (__activity_paging_render paging h w) as [paging' shown0].
    simpl in *. destruct (IH paging' Hok') as (Hfinal & Hl & Hshown).
    destruct (activity_run events paging') as [final renderings].
    simpl in *. split_and!; [done|congruence|].
    constructor; [done|].
    eapply Forall_impl; [exact Hshown|]. unfold rendering_ok.
    intros shown. by rewrite Hlines.
Qed.

(** X18. A paging activity started by [activity_paging_run] on any
    lines, with or without blocking, stays sound through any sequence
    of key presses and renderings, in windows of any size (resized at
    will between renderings): the page reference always is a line of
    the text, every line a rendering puts on the screen is a line of the
    text (no read past the end of [lines]), and a page indicator shows
    a page number between one and the number of pages. *)
Theorem paging_stays_in_bounds lines blocking title events :
  let paging := activity_paging_run_data lines blocking title in
  let result := activity_run events paging in
  page_reference_index result.1 < lines_length result.1
  ∧ ActivityPaging.lines result.1 = ActivityPaging.lines paging
  ∧ Forall (rendering_ok paging) result.2.
Proof.
  intros paging result.
  destruct (run_data_ok lines blocking title) as [Hok _].
  destruct (activity_run_ok events paging Hok) as ([_ Href] & Hl & Hshown).
  done.
Qed.

Lemma render_block_full remaining len i j text_y :
  i + j + remaining ≤ len →
  render_block remaining len i j text_y
  = ((λ t, (text_y + t, i + j + t)) <$> seq 0 remaining, false).
Proof.
  revert j text_y. induction remaining as [|remaining IH]; intros j text_y Hle;
    simpl; [done|].
  rewrite decide_False by lia. rewrite IH by lia. f_equal.
  rewrite !Nat.add_0_r. f_equal.
  rewrite <- (fmap_add_seq 1 0), <- list_fmap_compose.
  apply list_fmap_ext. intros _ t _. simpl. f_equal; lia.
Qed.

Lemma render_blocks_full rounds len bl lines_until_end i text_y blocks :
  0 < bl → lines_until_end ≤ len → i + blocks * bl = lines_until_end →
  blocks ≤ rounds →
  render_blocks rounds len bl lines_until_end i text_y
  = (λ t, (text_y + t, i + t)) <$> seq 0 (blocks * bl).
Proof.
  intros Hbl Hlen. revert i text_y blocks.
  induction rounds as [|rounds IH]; intros i text_y blocks Hend Hrounds.
  { by replace blocks with 0 by lia. }
  simpl. case_decide as Hfits.
  - destruct blocks as [|blocks]; [lia|].
    rewrite render_block_full by lia.
    rewrite (IH _ _ blocks) by lia.
    simpl. rewrite seq_app, fmap_app. f_equal.
    + apply list_fmap_ext. intros _ t _. simpl. f_equal; lia.
    + replace (0 + bl) with (bl + 0) by lia.
      rewrite <- (fmap_add_seq bl 0), <- list_fmap_compose.
      apply list_fmap_ext. intros _ t _. simpl. f_equal; lia.
  - by replace blocks with 0 by nia.
Qed.

(** X19. When the number of lines is a multiple of the block length and
    the window is large enough, a rendering at page [p] moves to the
    page the last key press asked for, staying on the first page on a
    previous-page request and on the last page on a next-page request,
    and puts on the screen all the lines of that page and no other: the
    lines from the first line of the page up to the first line of the
    next page or the end of the text, on consecutive rows. So every line
    of the text is shown, on the page its index divided by the lines of
    a page gives. *)
Theorem page_shows_all_its_lines paging window_height window_width c p :
  let max_on_screen_lines :=
    Nat.min ((window_height - 5) / block_length paging * block_length paging)
            (lines_length paging) in
  let max_page_number := (lines_length paging - 1) / max_on_screen_lines in
  let page_number :=
    match change_page paging with
    | ACTIVITY_PAGING_ACTION_NEXT_PAGE => Nat.min (p + 1) max_page_number
    | ACTIVITY_PAGING_ACTION_PREVIOUS_PAGE => p - 1
    | ACTIVITY_PAGING_ACTION_KEEP => p
    end in
  0 < block_length paging → 0 < c →
  lines_length paging = c * block_length paging →
  block_length paging + 5 ≤ window_height → 56 ≤ window_width →
  page_reference_index paging = p * max_on_screen_lines →
  p ≤ max_page_number →
  __activity_paging_render paging window_height window_width
  = (mk_paging_data (lines paging) (block_length paging)
       (page_number * max_on_screen_lines) (change_page paging)
       (title paging),
     mk_rendering
       (if decide (max_page_number ≠ 0)
        then Some (page_number + 1, max_page_number + 1) else None)
       ((λ t, (2 + t, page_number * max_on_screen_lines + t))
          <$> seq 0 (Nat.min max_on_screen_lines
                       (lines_length paging
                        - page_number * max_on_screen_lines)))).
Proof.
  intros max_on_screen_lines max_page_number page_number Hbl Hc Hlen Hh Hw
    Href Hp.
  unfold __activity_paging_render.
  rewrite decide_False by lia.
  replace (window_height - 4 - 1) with (window_height - 5) by lia.
  fold max_on_screen_lines.
  assert (Hmax : 0 < max_on_screen_lines).
  { pose proof (max_on_screen_lines_pos window_height (block_length paging)
                  (lines_length paging) Hbl ltac:(nia) ltac:(lia)) as H.
    by replace (window_height - 4 - 1) with (window_height - 5) in H by lia. }
  rewrite ceil_div_pred by nia. fold max_page_number.
  rewrite Href, Nat.div_mul by lia.
  set (page_number' :=
    match change_page paging with
    | ACTIVITY_PAGING_ACTION_NEXT_PAGE =>
        if decide (p < max_page_number) then S p else p
    | ACTIVITY_PAGING_ACTION_PREVIOUS_PAGE =>
        if decide (0 < p) then p - 1 else p
    | ACTIVITY_PAGING_ACTION_KEEP => p
    end).
  assert (Hsame : page_number' = page_number).
  { unfold page_number', page_number. destruct (change_page paging);
      repeat case_decide; lia. }
  rewrite Hsame. clear Hsame page_number'.
  assert (Hpage : page_number ≤ max_page_number).
  { unfold page_number. destruct (change_page paging); lia. }
  assert (Hlast : max_page_number * max_on_screen_lines
                  < lines_length paging).
  { pose proof (Nat.Div0.mul_div_le (lines_length paging - 1)
                  max_on_screen_lines) as Hle.
    fold max_page_number in Hle. lia. }
  (* The lines of a page are a whole number of blocks. *)
  set (m := Nat.min ((window_height - 5) / block_length paging) c).
  assert (Hm : max_on_screen_lines = m * block_length paging).
  { unfold max_on_screen_lines, m. rewrite Hlen.
    by rewrite Nat.mul_min_distr_r. }
  set (blocks := Nat.min m (c - page_number * m)).
  assert (Hblocks :
    Nat.min max_on_screen_lines
      (lines_length paging - page_number * max_on_screen_lines)
    = blocks * block_length paging).
  { unfold blocks. rewrite Hm, Hlen.
    rewrite <- Nat.mul_min_distr_r. f_equal.
    rewrite Nat.mul_sub_distr_r. lia. }
  do 2 f_equal. rewrite Hblocks.
  apply render_blocks_full; [done|lia| |].
  - rewrite <- Hblocks. nia.
  - assert (blocks * block_length paging ≤ lines_length paging) by lia.
    nia.
Qed.

Lemma page_shows_all_its_lines_witness :
  (__activity_paging_render
     (__activity_paging_keypress
        (activity_paging_run_data sample_lines true []) KEY_RIGHT true).1
     12 80).2
  = mk_rendering (Some (2, 2)) [(2, 6); (3, 7)].
Proof.
  pose proof (page_shows_all_its_lines
    (__activity_paging_keypress
       (activity_paging_run_data sample_lines true []) KEY_RIGHT true).1
    12 80 4 0) as H.
  rewrite H; [reflexivity|vm_compute; lia..].
Defined.

End ActivityPagingFacts.

(** ** The message box activity *)

Module ActivityMessageboxFacts.

Import ActivityMessagebox.

(** X20. In a window of at least 7 rows and 5 columns the message box is
    drawn, whatever the width of the message: it is three rows high, as
    wide as the message and its frame need but never wider than the
    window less four columns, it lies inside the window with at least
    two columns free on each side and two rows free above and below,
    and it is centred, the free space on the two sides differing by at
    most one column and one row. In a smaller window nothing is
    drawn. *)
Theorem messagebox_centred_in_window text_width window_height window_width :
  (0 ≤ text_width < 2 ^ 64)%Z →
  (0 ≤ window_height < 2 ^ 31)%Z →
  (0 ≤ window_width < 2 ^ 31)%Z →
  match __activity_messagebox_render text_width window_height window_width
  with
  | None => (window_width < 5 ∨ window_height < 7)%Z
  | Some box =>
      (7 ≤ window_height ∧ 5 ≤ window_width
       ∧ messagebox_height box = 3
       ∧ 0 ≤ messagebox_width box ≤ window_width - 4
       ∧ (text_width + 2 < 2 ^ 64 →
          messagebox_width box = Z.min (window_width - 4) (text_width + 2))
       ∧ 2 ≤ messagebox_x box
       ∧ messagebox_x box + messagebox_width box ≤ window_width - 2
       ∧ 2 ≤ messagebox_y box
       ∧ messagebox_y box + messagebox_height box ≤ window_height - 2
       ∧ 0 ≤ window_width - (messagebox_x box + messagebox_width box)
             - messagebox_x box ≤ 1
       ∧ 0 ≤ window_height - (messagebox_y box + messagebox_height box)
             - messagebox_y box ≤ 1)%Z
  end.
Proof.
  intros Htext Hheight Hwidth. unfold __activity_messagebox_render.
  case_decide as Hsmall; [done|]. simpl.
  assert (Hw : Q07.to_uint64 (window_width - 4) = (window_width - 4)%Z).
  { unfold Q07.to_uint64. apply Z.mod_small. lia. }
  assert (Ht : (0 ≤ Q07.to_uint64 (text_width + 2) < 2 ^ 64)%Z).
  { unfold Q07.to_uint64. apply Z.mod_pos_bound. lia. }
  assert (Ht' : (text_width + 2 < 2 ^ 64 →
                 Q07.to_uint64 (text_width + 2) = text_width + 2)%Z).
  { intros ?. unfold Q07.to_uint64. apply Z.mod_small. lia. }
  rewrite Hw.
  set (width := Z.min (window_width - 4) (Q07.to_uint64 (text_width + 2))).
  assert (Hrange : (0 ≤ width ≤ window_width - 4)%Z) by (unfold width; lia).
  assert (Hint : Q07.to_gint width = width).
  { unfold Q07.to_gint. rewrite Z.mod_small; lia. }
  rewrite Hint, !Z.quot_div_nonneg by lia.
  split_and!; Z.to_euclidean_division_equations; lia.
Qed.

Lemma messagebox_centred_in_window_witness :
  __activity_messagebox_render 11 24 80
  = Some (mk_messagebox_rendering 33 10 13 3 11 34 10).
Proof.
  pose proof (messagebox_centred_in_window 11 24 80
                ltac:(lia) ltac:(lia) ltac:(lia)) as H.
  destruct (__activity_messagebox_render 11 24 80) as [box|] eqn:Hbox;
    [|lia].
  vm_compute in Hbox. by injection Hbox as <-.
Defined.

End ActivityMessageboxFacts.

(** ** Loader of the passengers file *)

Module PassengersLoaderFacts.

Import PassengersLoader.

Lemma accepted_flights_cons line lines :
  accepted_flights (line :: lines)
  = if decide (line_retval line = 0%Z)
    then flight_id (line_relation line) :: accepted_flights lines
    else accepted_flights lines.
Proof.
  unfold accepted_flights. rewrite filter_cons. by case_decide.
Qed.

(** Every maximal run of accepted lines of one flight is committed once,
    with its length, in the order of the file; every rejected line is
    reported. *)
Lemma parse_commits_runs lines loader pool :
  Forall (λ line, malloc_id_pool line = true) lines →
  commit_buffer_id_pool loader = Some pool →
  flights (commit_last_flight (dataset_parser_parse lines loader))
  = foldl commit_run (flights loader)
      (match commit_buffer loader with
       | [] => runs (accepted_flights lines)
       | _ => runs_from (commit_buffer_flight loader)
                (length (commit_buffer loader)) (accepted_flights lines)
       end)
  ∧ reported (commit_last_flight (dataset_parser_parse lines loader))
    = reported loader
      ++ (line_text <$> filter (λ line, line_retval line ≠ 0%Z) lines).
Proof.
  intros Hmallocs. revert loader pool.
  induction Hmallocs as [|line lines Hmalloc _ IH];
    intros [fl rep buffer bflight id_pool rel el] pool Hpool;
    simpl in Hpool; subst id_pool.
  { simpl. unfold commit_last_flight. rewrite app_nil_r. simpl.
    by destruct buffer as [|h buffer]. }
  cbn [dataset_parser_parse]. rewrite accepted_flights_cons, filter_cons.
  unfold __passengers_loader_after_parse_line.
  cbn [flights reported commit_buffer commit_buffer_flight
       commit_buffer_id_pool current_relation error_line].
  destruct (decide (line_retval line = 0%Z)) as [Hok|Hbad].
  2:{ rewrite decide_True by done. rewrite (decide_True (P := _ ≠ _)) by done.
      rewrite decide_True by done.
      match goal with
      | |- context [dataset_parser_parse lines ?l] =>
          destruct (IH l pool eq_refl) as [Hflights Hreported]
      end.
      cbn [flights reported commit_buffer commit_buffer_flight] in *.
      rewrite Hflights, Hreported. by rewrite <- app_assoc. }
  rewrite decide_False by (by intros ?).
  rewrite (decide_False (P := _ ≠ _)) by (by intros ?).
  rewrite Hmalloc.
  case_bool_decide as Hnew;
    cbn [flights reported commit_buffer commit_buffer_flight
         commit_buffer_id_pool current_relation error_line
         __passengers_loader_commit_flight_list
         StringPool.string_pool_create].
  - destruct Hnew as [Hlen Hflight].
    destruct (StringPool.string_pool_put (malloc_id line) _ _)
      as [pool' pool_alloc_id] eqn:Hput.
    rewrite decide_True by done.
    match goal with
    | |- context [dataset_parser_parse lines ?l] =>
        destruct (IH l pool' eq_refl) as [Hflights Hreported]
    end.
    cbn [flights reported commit_buffer commit_buffer_flight app length]
      in *.
    rewrite Hflights, Hreported.
    destruct buffer as [|h buffer]; [done|].
    cbn [runs_from]. rewrite decide_False by done. done.
  - destruct (StringPool.string_pool_put (malloc_id line) _ _)
      as [pool' pool_alloc_id] eqn:Hput.
    rewrite decide_True by done.
    match goal with
    | |- context [dataset_parser_parse lines ?l] =>
        destruct (IH l pool' eq_refl) as [Hflights Hreported]
    end.
    cbn [flights reported commit_buffer commit_buffer_flight] in *.
    rewrite Hflights, Hreported.
    destruct buffer as [|h buffer]; [done|].
    cbn [length] in Hnew.
    apply not_and_l in Hnew as [Hlen|Hflight]; [by destruct Hlen|].
    apply dec_stable in Hflight. rewrite Hflight.
    cbn [app runs_from]. rewrite decide_True by done.
    split; [|done]. do 2 f_equal. rewrite length_cons, length_app. simpl. lia.
Qed.

Lemma runs_from_keys current count ids f :
  f ∈ (runs_from current count ids).*1 ↔ f = current ∨ f ∈ ids.
Proof.
  revert current count. induction ids as [|g ids IH]; intros current count;
    simpl.
  - rewrite list_elem_of_singleton, elem_of_nil. tauto.
  - case_decide as Heq.
    + rewrite IH, elem_of_cons. subst. tauto.
    + rewrite fmap_cons, !elem_of_cons, IH. simpl. tauto.
Qed.

Lemma runs_keys ids f : f ∈ (runs ids).*1 ↔ f ∈ ids.
Proof.
  destruct ids as [|g ids]; simpl; [done|].
  rewrite runs_from_keys, elem_of_cons. tauto.
Qed.

(** When the runs are of different flights, the run of a flight counts
    all its occurrences. *)
Lemma runs_from_count current count ids f n :
  NoDup (runs_from current count ids).*1 →
  (f, n) ∈ runs_from current count ids →
  n = (if decide (f = current) then count else 0)
      + length (filter (λ g, g = f) ids).
Proof.
  revert current count. induction ids as [|g ids IH]; intros current count;
    simpl.
  - intros _ [= -> ->]%list_elem_of_singleton.
    rewrite decide_True by done. simpl. lia.
  - rewrite filter_cons. case_decide as Heq.
    + subst g. intros Hnd Hin. rewrite (IH _ _ Hnd Hin).
      repeat case_decide; simpl; try lia; congruence.
    + rewrite fmap_cons, NoDup_cons. simpl. intros [Hnotin Hnd].
      rewrite runs_from_keys in Hnotin.
      intros [[= -> ->]|Hin]%elem_of_cons.
      * rewrite decide_True by done. rewrite decide_False by done.
        replace (filter (λ g, g = current) ids) with (@nil Z);
          [simpl; lia|].
        symmetry. clear -Hnotin. induction ids as [|h ids IH]; [done|].
        rewrite filter_cons, decide_False.
        -- apply IH. rewrite elem_of_cons in Hnotin. tauto.
        -- intros ->. apply Hnotin. right. left.
      * assert (Hkey : f ∈ (runs_from g 1 ids).*1).
        { apply list_elem_of_fmap. by exists (f, n). }
        rewrite (IH _ _ Hnd Hin).
        rewrite runs_from_keys in Hkey.
        rewrite (decide_False (P := f = current)) by (intros ->; tauto).
        repeat case_decide; simpl; try lia; congruence.
Qed.

Lemma commit_runs_lookup flights rs f :
  NoDup rs.*1 →
  (∀ n, (f, n) ∈ rs →
     foldl commit_run flights rs !! f
     = (λ _, to_uint16 (Z.of_nat n)) <$> flights !! f)
  ∧ (f ∉ rs.*1 → foldl commit_run flights rs !! f = flights !! f).
Proof.
  revert flights. induction rs as [|[g k] rs IH]; intros flights.
  { intros _. split; [by intros ? ?%elem_of_nil|done]. }
  rewrite fmap_cons, NoDup_cons. simpl. intros [Hnotin Hnd].
  destruct (IH (commit_run flights (g, k)) Hnd) as [Hin Hout].
  assert (Hc : commit_run flights (g, k)
               = alter (λ _, to_uint16 (Z.of_nat k)) g flights) by done.
  cbn [foldl]. rewrite Hc in *. split.
  - intros n [[= -> ->]|Hn]%elem_of_cons.
    + rewrite Hout by done. by rewrite lookup_alter_eq.
    + rewrite (Hin n Hn). rewrite lookup_alter_ne; [done|].
      intros ->. apply Hnotin, list_elem_of_fmap. by exists (f, n).
  - rewrite not_elem_of_cons. intros [Hne Hf].
    rewrite Hout by done. by rewrite lookup_alter_ne.
Qed.

(** X21. Let the identifier pools be allocated, and let the accepted
    lines of the passengers file list the passengers of each flight
    together. After the file is loaded, the number of passengers of
    every flight with an accepted line is the number of its accepted
    lines (as a [uint16_t]), whether or not the copies of the user
    identifiers could be allocated; the other flights keep their number
    of passengers; and the errors file holds the header and then the
    rejected lines, in the order of the file. *)
Theorem passengers_are_counted flights lines :
  Forall (λ line, malloc_id_pool line = true) lines →
  grouped_by_flight (accepted_flights lines) →
  let result := passengers_loader_load true flights lines in
  (∀ f, result.1 !! f
        = if decide (f ∈ accepted_flights lines)
          then (λ _, to_uint16
                       (Z.of_nat
                          (length (filter (λ g, g = f)
                                     (accepted_flights lines)))))
                 <$> flights !! f
          else flights !! f)
  ∧ result.2
    = PASSENGERS_LOADER_HEADER
      :: (line_text <$> filter (λ line, line_retval line ≠ 0%Z) lines).
Proof.
  intros Hmallocs Hgrouped result. unfold result, passengers_loader_load.
  simpl.
  match goal with
  | |- context [dataset_parser_parse lines ?l] =>
      destruct (parse_commits_runs lines l _ Hmallocs eq_refl)
        as [Hflights Hreported]
  end.
  simpl in *. rewrite Hflights, Hreported. split; [|done].
  intros f.
  destruct (commit_runs_lookup flights (runs (accepted_flights lines)) f
              Hgrouped) as [Hin Hout].
  case_decide as Hf.
  - apply runs_keys, list_elem_of_fmap in Hf as [[f' n] [-> Hn]].
    simpl in *. rewrite (Hin n Hn). do 3 f_equal.
    unfold grouped_by_flight in Hgrouped. revert Hgrouped Hn.
    destruct (accepted_flights lines) as [|g ids]; simpl;
      [by intros _ ?%elem_of_nil|].
    intros Hnd Hn. rewrite (runs_from_count _ _ _ _ _ Hnd Hn).
    rewrite filter_cons. repeat case_decide; simpl; try lia; congruence.
  - apply Hout. by rewrite runs_keys.
Qed.

Lemma passengers_are_counted_witness :
  (passengers_loader_load true sample_flights sample_passenger_lines).1
    !! 10%Z = Some 2%Z
  ∧ (passengers_loader_load true sample_flights sample_passenger_lines).2
    = [PASSENGERS_LOADER_HEADER; list_ascii_of_string "10;U9"].
Proof.
  destruct (passengers_are_counted sample_flights sample_passenger_lines)
    as [Hflights Hreported].
  - repeat constructor.
  - by apply (bool_decide_unpack _); vm_compute.
  - split; [|exact Hreported]. rewrite Hflights. by vm_compute.
Defined.

End PassengersLoaderFacts.
